(** * TinyTask macro editor: the .rec codec and the editable-timeline store

    A shallow embedding of [src/lib/recParser.ts] (the binary codec) and
    [src/hooks/useRecEditor.ts] (the editor store: timeline normaliser,
    mutations, selection, bounded undo/redo), followed by the properties
    the specification states about them.

    Modelling conventions.
    - A JavaScript [number] is [JS.number]: NaN, the two infinities, or a
      finite value given exactly as a rational. Rounding error of the
      binary64 representation and the sign of zero are not modelled.
    - Values the code obtains from [DataView.getUint32], and what it
      computes from them with integer arithmetic, are [Z]; JavaScript's
      [%] is the truncated remainder [Z.rem].
    - An [ArrayBuffer] is a [list byte]; a [Set<string>] is a [gset string].
    - React state cells are the fields of one record; every callback of
      the hook is a function on that record, run to completion against
      the state the callback closed over (the last rendered state).
    - [Date.now()] and [Math.random()] are inputs of the operations that
      call them; [file.arrayBuffer()] resolves with the bytes of the file;
      row indexes handed to the hook are integers. *)

From Stdlib Require Import ZArith QArith Qround Lia List.
From Stdlib Require Import Strings.Byte Strings.Ascii.
From stdpp Require Import base numbers list strings gmap pretty.

Local Open Scope Z_scope.

(** ** JavaScript numbers *)

Module JS.

Inductive number : Type :=
  | NaN
  | PosInf
  | NegInf
  | Fin (q : Q).

(** An integer as a number. *)
Definition Int (z : Z) : number := Fin (inject_Z z).

(** [Number.isFinite]. *)
Definition isFinite (v : number) : bool :=
  match v with Fin _ => true | _ => false end.

(** [a < b]; every comparison with NaN is false. *)
Definition lt (a b : number) : bool :=
  match a, b with
  | NaN, _ | _, NaN => false
  | Fin x, Fin y => negb (Qle_bool y x)
  | NegInf, NegInf => false
  | NegInf, _ => true
  | _, NegInf => false
  | PosInf, _ => false
  | Fin _, PosInf => true
  end.

(** [a === b] on numbers: NaN is not equal to itself. *)
Definition strict_eq (a b : number) : bool :=
  match a, b with
  | Fin x, Fin y => Qeq_bool x y
  | PosInf, PosInf | NegInf, NegInf => true
  | _, _ => false
  end.

(** [a >= b]. *)
Definition ge (a b : number) : bool := lt b a || strict_eq a b.

(** [a + b]. *)
Definition add (a b : number) : number :=
  match a, b with
  | NaN, _ | _, NaN => NaN
  | PosInf, NegInf | NegInf, PosInf => NaN
  | PosInf, _ | _, PosInf => PosInf
  | NegInf, _ | _, NegInf => NegInf
  | Fin x, Fin y => Fin (x + y)
  end.

(** [Math.round]: the nearest integer, halves towards +Infinity. *)
Definition Math_round (v : number) : number :=
  match v with
  | Fin q => Int (Qfloor (q + (1 # 2)))
  | _ => v
  end.

(** [Math.trunc] of a finite value, as an integer. *)
Definition trunc (q : Q) : Z := Z.quot (Qnum q) (Z.pos (Qden q)).

(** [Math.min] and [Math.max]: NaN if an argument is. *)
Definition Math_min (a b : number) : number :=
  match a, b with
  | NaN, _ | _, NaN => NaN
  | _, _ => if lt b a then b else a
  end.

Definition Math_max (a b : number) : number :=
  match a, b with
  | NaN, _ | _, NaN => NaN
  | _, _ => if lt a b then b else a
  end.

End JS.

(** ** Buffers and little-endian 32-bit access *)

Module DataView.

Definition byte_of_Z (z : Z) : byte :=
  match Byte.of_N (Z.to_N (z `mod` 256)) with
  | Some b => b
  | None => x00
  end.

Definition getUint8 (view : list byte) (offset : nat) : Z :=
  match view !! offset with
  | Some b => Z.of_N (Byte.to_N b)
  | None => 0
  end.

(** [view.getUint32(offset, true)]. A read past the end is a RangeError
    in JavaScript; the codec never reads there. *)
Definition getUint32 (view : list byte) (offset : nat) : Z :=
  Z.lor (getUint8 view offset)
    (Z.lor (Z.shiftl (getUint8 view (offset + 1)%nat) 8)
       (Z.lor (Z.shiftl (getUint8 view (offset + 2)%nat) 16)
          (Z.shiftl (getUint8 view (offset + 3)%nat) 24))).

(** [view.setUint32(offset, value, true)]: the value is taken modulo
    2^32 and stored least significant byte first. *)
Definition setUint32 (view : list byte) (offset : nat) (value : Z) : list byte :=
  let v := value `mod` 2 ^ 32 in
  <[(offset + 3)%nat := byte_of_Z (Z.shiftr v 24)]>
    (<[(offset + 2)%nat := byte_of_Z (Z.shiftr v 16)]>
       (<[(offset + 1)%nat := byte_of_Z (Z.shiftr v 8)]>
          (<[offset := byte_of_Z v]> view))).

(** [new ArrayBuffer(n)]: n zero bytes. *)
Definition ArrayBuffer (n : nat) : list byte := replicate n x00.

End DataView.

(** ** src/lib/recParser.ts *)

Module RecParser.
Import DataView.

Definition RECORD_BYTE_LENGTH : nat := 20.
Definition UINT32_SIZE : nat := 4.
Definition UINT32_MAX : Z := 0x100000000.

Module TinyTaskEvent.
Record t := mk
  { message : Z; paramL : Z; paramH : Z; time : Z; delay : Z; hwnd : Z }.
End TinyTaskEvent.

Record ParseResult := mkParseResult
  { events : list TinyTaskEvent.t;
    baseTime : Z;
    hwnds : list Z;
    duration : Z }.

Module EncodableEvent.
Record t := mk
  { message : JS.number; paramL : JS.number; paramH : JS.number;
    delay : JS.number; hwnd : JS.number }.
End EncodableEvent.

Definition diffUint32 (current previous : Z) : Z :=
  (current - previous + UINT32_MAX) `rem` UINT32_MAX.

(** [Set.prototype.add] on an insertion-ordered set of handles. *)
Definition hwndSet_add (hwnd : Z) (set : list Z) : list Z :=
  if decide (hwnd ∈ set) then set else set ++ [hwnd].

(** The mutable variables of [parseRec]'s loop. *)
Record ParseLoop := mkParseLoop
  { pl_events : list TinyTaskEvent.t;
    pl_hwndSet : list Z;
    pl_previousAbsoluteTime : Z;
    pl_baseTime : Z }.

(** One iteration of the [for] loop, at [index]. *)
Definition parse_iteration (view : list byte) (index : nat) (st : ParseLoop)
  : ParseLoop :=
  let offset := (index * RECORD_BYTE_LENGTH)%nat in
  let message := getUint32 view offset in
  let paramL := getUint32 view (offset + UINT32_SIZE)%nat in
  let paramH := getUint32 view (offset + UINT32_SIZE * 2)%nat in
  let absoluteTime := getUint32 view (offset + UINT32_SIZE * 3)%nat in
  let hwnd := getUint32 view (offset + UINT32_SIZE * 4)%nat in
  if decide (index = 0%nat) then
    {| pl_events :=
         pl_events st ++
           [TinyTaskEvent.mk message paramL paramH 0 0 hwnd];
       pl_hwndSet := hwndSet_add hwnd (pl_hwndSet st);
       pl_previousAbsoluteTime := absoluteTime;
       pl_baseTime := absoluteTime |}
  else
    let elapsed := diffUint32 absoluteTime (pl_previousAbsoluteTime st) in
    let previousEvent_time :=
      match last (pl_events st) with
      | Some previousEvent => TinyTaskEvent.time previousEvent
      | None => 0
      end in
    let time := previousEvent_time + elapsed in
    {| pl_events :=
         pl_events st ++
           [TinyTaskEvent.mk message paramL paramH time elapsed hwnd];
       pl_hwndSet := hwndSet_add hwnd (pl_hwndSet st);
       pl_previousAbsoluteTime := absoluteTime;
       pl_baseTime := pl_baseTime st |}.

(** [for (let index = from; index < from + count; index += 1)]. *)
Fixpoint parse_loop (view : list byte) (count from : nat) (st : ParseLoop)
  : ParseLoop :=
  match count with
  | O => st
  | S count' => parse_loop view count' (S from) (parse_iteration view from st)
  end.

Definition size_error (byteLength : nat) : string :=
  "Unexpected .rec size: " +:+ pretty byteLength +:+
  " bytes is not a multiple of " +:+ pretty RECORD_BYTE_LENGTH +:+ ".".

(** [parseRec]: [inl message] is the thrown [Error]. *)
Definition parseRec (buffer : list byte) : string + ParseResult :=
  if decide (length buffer = 0%nat) then
    inr (mkParseResult [] 0 [] 0)
  else if decide ((length buffer `mod` RECORD_BYTE_LENGTH)%nat ≠ 0%nat) then
    inl (size_error (length buffer))
  else
    let recordCount := (length buffer `div` RECORD_BYTE_LENGTH)%nat in
    let st := parse_loop buffer recordCount 0 (mkParseLoop [] [] 0 0) in
    let duration :=
      match last (pl_events st) with
      | Some e => TinyTaskEvent.time e
      | None => 0
      end in
    inr (mkParseResult (pl_events st) (pl_baseTime st) (pl_hwndSet st) duration).

Definition toUint32 (value : JS.number) : Z :=
  match value with
  | JS.Fin q =>
      let normalised := JS.trunc q in
      ((normalised `rem` UINT32_MAX) + UINT32_MAX) `rem` UINT32_MAX
  | _ => 0
  end.

(** The body of [events.forEach((event, index) => ...)] and the loop
    itself; the state is [absoluteTime] and the buffer behind [view]. *)
Definition encode_iteration (baseTime : Z) (index : nat)
    (event : EncodableEvent.t) (st : Z * list byte) : Z * list byte :=
  let '(absoluteTime, view) := st in
  let absoluteTime :=
    if decide (index = 0%nat) then baseTime
    else
      let increment := Z.max 0 (toUint32 (EncodableEvent.delay event)) in
      (absoluteTime + increment) `rem` UINT32_MAX in
  let offset := (index * RECORD_BYTE_LENGTH)%nat in
  let view := setUint32 view offset (toUint32 (EncodableEvent.message event)) in
  let view :=
    setUint32 view (offset + UINT32_SIZE)%nat (toUint32 (EncodableEvent.paramL event)) in
  let view :=
    setUint32 view (offset + UINT32_SIZE * 2)%nat
      (toUint32 (EncodableEvent.paramH event)) in
  let view := setUint32 view (offset + UINT32_SIZE * 3)%nat absoluteTime in
  let view :=
    setUint32 view (offset + UINT32_SIZE * 4)%nat (toUint32 (EncodableEvent.hwnd event)) in
  (absoluteTime, view).

Fixpoint encode_loop (baseTime : Z) (index : nat)
    (events : list EncodableEvent.t) (st : Z * list byte) : Z * list byte :=
  match events with
  | [] => st
  | event :: rest =>
      encode_loop baseTime (S index) rest (encode_iteration baseTime index event st)
  end.

(** [encodeRec(events, { baseTime })]; [None] is an absent option. *)
Definition encodeRec (events : list EncodableEvent.t)
    (baseTime : option JS.number) : list byte :=
  if decide (length events = 0%nat) then ArrayBuffer 0
  else
    let buffer := ArrayBuffer (length events * RECORD_BYTE_LENGTH)%nat in
    let baseTime := toUint32 (default (JS.Int 0) baseTime) in
    snd (encode_loop baseTime 0 events (baseTime, buffer)).

Definition cloneAsEncodable (events : list TinyTaskEvent.t)
  : list EncodableEvent.t :=
  map (fun e =>
         EncodableEvent.mk
           (JS.Int (TinyTaskEvent.message e))
           (JS.Int (TinyTaskEvent.paramL e))
           (JS.Int (TinyTaskEvent.paramH e))
           (JS.Int (TinyTaskEvent.delay e))
           (JS.Int (TinyTaskEvent.hwnd e)))
      events.

End RecParser.

(** ** src/hooks/useRecEditor.ts *)

Module RecEditor.

Module EditorEvent.
Record t := mk
  { id : string;
    message : JS.number;
    paramL : JS.number;
    paramH : JS.number;
    delay : JS.number;
    time : JS.number;
    hwnd : JS.number }.

(** [{ ...event, delay, time }] and [{ ...event, delay }]. *)
Definition with_delay_time (event : t) (delay time : JS.number) : t :=
  mk (id event) (message event) (paramL event) (paramH event) delay time
     (hwnd event).
Definition with_delay (event : t) (delay : JS.number) : t :=
  with_delay_time event delay (time event).
End EditorEvent.

Definition UINT32_MAX : Z := 0x100000000.
Definition HISTORY_LIMIT : nat := 50.

Definition sanitizeDelay (value : JS.number) : JS.number :=
  if negb (JS.isFinite value) || JS.lt value (JS.Int 0) then JS.Int 0
  else JS.Math_min (JS.Math_round value) (JS.Int (UINT32_MAX - 1)).

(** [events.map((event, index) => ...)] of [recomputeTimeline], from
    [index] on, with the running value of [elapsed]. *)
Fixpoint recompute_from (index : nat) (elapsed : JS.number)
    (events : list EditorEvent.t) : list EditorEvent.t :=
  match events with
  | [] => []
  | event :: rest =>
      if decide (index = 0%nat) then
        EditorEvent.with_delay_time event (JS.Int 0) (JS.Int 0)
          :: recompute_from (S index) (JS.Int 0) rest
      else
        let delay := sanitizeDelay (EditorEvent.delay event) in
        let elapsed := JS.add elapsed delay in
        EditorEvent.with_delay_time event delay elapsed
          :: recompute_from (S index) elapsed rest
  end.

Definition recomputeTimeline (events : list EditorEvent.t)
  : list EditorEvent.t :=
  recompute_from 0 (JS.Int 0) events.

(** The id template of [createEditorEvents]; the fields of a parsed event
    are integers and print in decimal. *)
Definition parsed_id (index : nat) (event : RecParser.TinyTaskEvent.t) : string :=
  pretty index +:+ "-" +:+ pretty (RecParser.TinyTaskEvent.time event)
    +:+ "-" +:+ pretty (RecParser.TinyTaskEvent.message event)
    +:+ "-" +:+ pretty (RecParser.TinyTaskEvent.paramL event)
    +:+ "-" +:+ pretty (RecParser.TinyTaskEvent.paramH event).

Definition createEditorEvents (events : list RecParser.TinyTaskEvent.t)
  : list EditorEvent.t :=
  imap (fun index event =>
          EditorEvent.mk
            (parsed_id index event)
            (JS.Int (RecParser.TinyTaskEvent.message event))
            (JS.Int (RecParser.TinyTaskEvent.paramL event))
            (JS.Int (RecParser.TinyTaskEvent.paramH event))
            (JS.Int (RecParser.TinyTaskEvent.delay event))
            (JS.Int (RecParser.TinyTaskEvent.time event))
            (JS.Int (RecParser.TinyTaskEvent.hwnd event)))
       events.

Record EventMutationResult := mkMutation
  { next : list EditorEvent.t;
    selectionOverride : option (gset string) }.

(** The state cells of [useRecEditor]. *)
Module S.
Record t := mk
  { events : list EditorEvent.t;
    initialEvents : list EditorEvent.t;
    baseTime : Z;
    fileName : option string;
    loading : bool;
    error : option string;
    isDirty : bool;
    selectedIds : gset string;
    selectionAnchor : option Z;
    history : list (list EditorEvent.t);
    future : list (list EditorEvent.t) }.
End S.

(** The state setters. *)
Definition setEvents v (s : S.t) : S.t :=
  S.mk v (S.initialEvents s) (S.baseTime s) (S.fileName s) (S.loading s)
    (S.error s) (S.isDirty s) (S.selectedIds s) (S.selectionAnchor s)
    (S.history s) (S.future s).
Definition setInitialEvents v (s : S.t) : S.t :=
  S.mk (S.events s) v (S.baseTime s) (S.fileName s) (S.loading s)
    (S.error s) (S.isDirty s) (S.selectedIds s) (S.selectionAnchor s)
    (S.history s) (S.future s).
Definition setBaseTime v (s : S.t) : S.t :=
  S.mk (S.events s) (S.initialEvents s) v (S.fileName s) (S.loading s)
    (S.error s) (S.isDirty s) (S.selectedIds s) (S.selectionAnchor s)
    (S.history s) (S.future s).
Definition setFileName v (s : S.t) : S.t :=
  S.mk (S.events s) (S.initialEvents s) (S.baseTime s) v (S.loading s)
    (S.error s) (S.isDirty s) (S.selectedIds s) (S.selectionAnchor s)
    (S.history s) (S.future s).
Definition setLoading v (s : S.t) : S.t :=
  S.mk (S.events s) (S.initialEvents s) (S.baseTime s) (S.fileName s) v
    (S.error s) (S.isDirty s) (S.selectedIds s) (S.selectionAnchor s)
    (S.history s) (S.future s).
Definition setError v (s : S.t) : S.t :=
  S.mk (S.events s) (S.initialEvents s) (S.baseTime s) (S.fileName s)
    (S.loading s) v (S.isDirty s) (S.selectedIds s) (S.selectionAnchor s)
    (S.history s) (S.future s).
Definition setIsDirty v (s : S.t) : S.t :=
  S.mk (S.events s) (S.initialEvents s) (S.baseTime s) (S.fileName s)
    (S.loading s) (S.error s) v (S.selectedIds s) (S.selectionAnchor s)
    (S.history s) (S.future s).
Definition setSelectedIds v (s : S.t) : S.t :=
  S.mk (S.events s) (S.initialEvents s) (S.baseTime s) (S.fileName s)
    (S.loading s) (S.error s) (S.isDirty s) v (S.selectionAnchor s)
    (S.history s) (S.future s).
Definition setSelectionAnchor v (s : S.t) : S.t :=
  S.mk (S.events s) (S.initialEvents s) (S.baseTime s) (S.fileName s)
    (S.loading s) (S.error s) (S.isDirty s) (S.selectedIds s) v
    (S.history s) (S.future s).
Definition setHistory v (s : S.t) : S.t :=
  S.mk (S.events s) (S.initialEvents s) (S.baseTime s) (S.fileName s)
    (S.loading s) (S.error s) (S.isDirty s) (S.selectedIds s)
    (S.selectionAnchor s) v (S.future s).
Definition setFuture v (s : S.t) : S.t :=
  S.mk (S.events s) (S.initialEvents s) (S.baseTime s) (S.fileName s)
    (S.loading s) (S.error s) (S.isDirty s) (S.selectedIds s)
    (S.selectionAnchor s) (S.history s) v.

(** The state of a freshly mounted hook. *)
Definition initial : S.t :=
  S.mk [] [] 0 None false None false ∅ None [] [].

(** [[...stack, snapshot]], then [shift()] when over the limit. *)
Definition push_limited (stack : list (list EditorEvent.t))
    (snapshot : list EditorEvent.t) : list (list EditorEvent.t) :=
  let next := stack ++ [snapshot] in
  if decide (HISTORY_LIMIT < length next)%nat then tail next else next.

Record CommitOptions := mkOptions
  { resetAnchor : option bool;
    trackHistory : option bool }.

Definition no_options : CommitOptions := mkOptions None None.

(** Truthiness of an optional boolean option. *)
Definition truthy (flag : option bool) : bool := default false flag.

Definition event_ids (events : list EditorEvent.t) : gset string :=
  list_to_set (map EditorEvent.id events).

Definition commitEvents
    (mutator : list EditorEvent.t → option EventMutationResult)
    (options : CommitOptions) (s : S.t) : S.t :=
  let previous := S.events s in
  match mutator previous with
  | None =>
      if truthy (resetAnchor options)
      then setSelectionAnchor None s else s
  | Some mutation =>
      let recomputed := recomputeTimeline (next mutation) in
      let s :=
        if decide (trackHistory options ≠ Some false) then
          let snapshot := previous in
          setFuture [] (setHistory (push_limited (S.history s) snapshot) s)
        else s in
      let s := setIsDirty true s in
      let availableIds := event_ids recomputed in
      let prior := S.selectedIds s in
      let s :=
        setSelectedIds
          match selectionOverride mutation with
          | Some override => filter (fun id => id ∈ availableIds) override
          | None =>
              let filtered := filter (fun id => id ∈ availableIds) prior in
              if decide (size filtered = size prior) then prior else filtered
          end s in
      let s :=
        if truthy (resetAnchor options)
           || match selectionOverride mutation with
              | Some override => bool_decide (size override = 0%nat)
              | None => false
              end
        then setSelectionAnchor None s else s in
      setEvents recomputed s
  end.

(** A picked file whose bytes have been read. *)
Record File := mkFile
  { name : string;
    arrayBuffer : list byte }.

Record LoadResult := mkLoadResult
  { lr_fileName : string;
    lr_baseTime : Z }.

(** [loadFile]: the [try] block runs to the end when [parseRec] returns,
    otherwise the [catch] block records the message; [finally] clears
    the loading flag. *)
Definition loadFile (file : File) (s : S.t) : S.t * option LoadResult :=
  let s := setError None s in
  let s := setLoading true s in
  match RecParser.parseRec (arrayBuffer file) with
  | inr parsed =>
      let editorEvents :=
        recomputeTimeline (createEditorEvents (RecParser.events parsed)) in
      let s := setEvents editorEvents s in
      let s := setInitialEvents editorEvents s in
      let s := setBaseTime (RecParser.baseTime parsed) s in
      let s := setFileName (Some (name file)) s in
      let s := setIsDirty false s in
      let s := setSelectedIds ∅ s in
      let s := setSelectionAnchor None s in
      let s := setHistory [] s in
      let s := setFuture [] s in
      (setLoading false s,
       Some (mkLoadResult (name file) (RecParser.baseTime parsed)))
  | inl message =>
      let s := setError (Some message) s in
      (setLoading false s, None)
  end.

Definition updateDelay (id : string) (value : JS.number) (s : S.t) : S.t :=
  let normalized := sanitizeDelay value in
  commitEvents
    (fun current =>
       let mapped :=
         map (fun event =>
                if negb (String.eqb (EditorEvent.id event) id) then (event, false)
                else if JS.strict_eq (EditorEvent.delay event) normalized
                     then (event, false)
                     else (EditorEvent.with_delay event normalized, true))
             current in
       let didChange := existsb snd mapped in
       let next := map fst mapped in
       if negb didChange then None else Some (mkMutation next None))
    no_options s.

Definition removeEvent (id : string) (s : S.t) : S.t :=
  commitEvents
    (fun current =>
       if negb (existsb (fun event => String.eqb (EditorEvent.id event) id) current)
       then None
       else
         let next :=
           List.filter (fun event => negb (String.eqb (EditorEvent.id event) id))
             current in
         Some (mkMutation next None))
    no_options s.

Definition resetChanges (s : S.t) : S.t :=
  if decide (length (S.initialEvents s) = 0%nat) then s
  else
    let snapshot := S.initialEvents s in
    let s := setEvents (recomputeTimeline snapshot) s in
    let s := setIsDirty false s in
    let s := setSelectedIds ∅ s in
    let s := setSelectionAnchor None s in
    let s := setHistory [] s in
    setFuture [] s.

(** The bytes [exportRec] puts in the blob. *)
Definition exportRec (s : S.t) : option (list byte) :=
  if decide (length (S.events s) = 0%nat) then None
  else
    Some (RecParser.encodeRec
            (map (fun e =>
                    RecParser.EncodableEvent.mk
                      (EditorEvent.message e) (EditorEvent.paramL e)
                      (EditorEvent.paramH e) (EditorEvent.delay e)
                      (EditorEvent.hwnd e))
                 (S.events s))
            (Some (JS.Int (S.baseTime s)))).

(** [toggleSelection(id, index, { shift, meta })], the two flags after
    their [?? false]. *)
Definition toggleSelection (id : string) (index : Z) (shift meta : bool)
    (s : S.t) : S.t :=
  let events := S.events s in
  let anchor := default index (S.selectionAnchor s) in
  let previous := S.selectedIds s in
  if shift && negb (bool_decide (length events = 0%nat)) then
    let start := Z.max 0 (Z.min anchor index) in
    let end_ := Z.min (Z.of_nat (length events) - 1) (Z.max anchor index) in
    let next : gset string := if meta then previous else ∅ in
    let next :=
      foldl (fun (next : gset string) cursor =>
               match events !! Z.to_nat cursor with
               | Some entry => {[EditorEvent.id entry]} ∪ next
               | None => next
               end)
            next (seqZ start (end_ - start + 1)) in
    let s :=
      match S.selectionAnchor s with
      | None => setSelectionAnchor (Some index) s
      | Some _ => s
      end in
    setSelectedIds next s
  else
    let next : gset string :=
      if decide (id ∈ previous) then previous ∖ {[id]} else {[id]} ∪ previous in
    let s :=
      setSelectionAnchor
        (if decide (size next = 0%nat) then None else Some index) s in
    setSelectedIds next s.

Definition selectAll (s : S.t) : S.t :=
  setSelectionAnchor None (setSelectedIds (event_ids (S.events s)) s).

Definition clearSelection (s : S.t) : S.t :=
  setSelectionAnchor None (setSelectedIds ∅ s).

Definition applyToSelection
    (updater : EditorEvent.t → nat → option EditorEvent.t) (s : S.t) : S.t :=
  let selectedIds := S.selectedIds s in
  if decide (size selectedIds = 0%nat) then s
  else
    commitEvents
      (fun current =>
         let mapped :=
           imap (fun index event =>
                   if negb (bool_decide (EditorEvent.id event ∈ selectedIds))
                   then (event, false)
                   else match updater event index with
                        | None => (event, false)
                        | Some updated => (updated, true)
                        end)
                current in
         let didChange := existsb snd mapped in
         let next := map fst mapped in
         if negb didChange then None else Some (mkMutation next None))
      no_options s.

Definition applyDelayToSelection (value : JS.number) (s : S.t) : S.t :=
  let normalized := sanitizeDelay value in
  applyToSelection
    (fun event _ =>
       if JS.strict_eq (EditorEvent.delay event) normalized then None
       else Some (EditorEvent.with_delay event normalized))
    s.

Definition addDelayToSelection (delta : JS.number) (s : S.t) : S.t :=
  let deltaRounded := JS.Math_round delta in
  applyToSelection
    (fun event _ =>
       let nextDelay :=
         sanitizeDelay (JS.add (EditorEvent.delay event) deltaRounded) in
       if JS.strict_eq nextDelay (EditorEvent.delay event) then None
       else Some (EditorEvent.with_delay event nextDelay))
    s.

Definition clampSmallDelays (threshold : JS.number) (s : S.t) : S.t :=
  let limit := JS.Math_max (JS.Int 0) (JS.Math_round threshold) in
  applyToSelection
    (fun event index =>
       if decide (index = 0%nat) then None
       else if JS.strict_eq (EditorEvent.delay event) (JS.Int 0)
               || JS.ge (EditorEvent.delay event) limit
            then None
            else Some (EditorEvent.with_delay event (JS.Int 0)))
    s.

Definition deleteSelected (s : S.t) : S.t :=
  let selectedIds := S.selectedIds s in
  if decide (size selectedIds = 0%nat) then s
  else
    commitEvents
      (fun current =>
         let next :=
           List.filter
             (fun event => negb (bool_decide (EditorEvent.id event ∈ selectedIds)))
             current in
         if decide (length next = length current) then None
         else Some (mkMutation next (Some ∅)))
      (mkOptions (Some true) None) s.

(** An element of [insertEvents]' [newEvents]: an event without id and
    time, whose delay may be absent. *)
Record EventTemplate := mkTemplate
  { t_message : JS.number;
    t_paramL : JS.number;
    t_paramH : JS.number;
    t_hwnd : JS.number;
    t_delay : option JS.number }.

(** [`new-${Date.now()}-${i}-${Math.random()}`]: [clock i] is what
    [Date.now()] returns while element [i] is built and [random i] is the
    text of the [Math.random()] drawn there. *)
Definition new_id (clock : nat → N) (random : nat → string) (i : nat) : string :=
  "new-" +:+ pretty (clock i) +:+ "-" +:+ pretty i +:+ "-" +:+ random i.

Definition insertEvents (clock : nat → N) (random : nat → string)
    (index : Z) (newEvents : list EventTemplate) (delayTotal : JS.number)
    (s : S.t) : S.t :=
  commitEvents
    (fun current =>
       let clampedIndex :=
         Z.to_nat (Z.max 0 (Z.min index (Z.of_nat (length current)))) in
       let eventsToAdd :=
         imap (fun i e =>
                 EditorEvent.mk
                   (new_id clock random i)
                   (t_message e) (t_paramL e) (t_paramH e)
                   (if decide (i = 0%nat) then delayTotal
                    else default (JS.Int 0) (t_delay e))
                   (JS.Int 0)
                   (t_hwnd e))
              newEvents in
       let next :=
         take clampedIndex current ++ eventsToAdd ++ drop clampedIndex current in
       Some (mkMutation next None))
    no_options s.

(** An [EditorEvent] passed where [insertEvents] expects a template: the
    spread keeps its fields, and id and time are then overwritten. *)
Definition as_template (e : EditorEvent.t) : EventTemplate :=
  mkTemplate (EditorEvent.message e) (EditorEvent.paramL e)
    (EditorEvent.paramH e) (EditorEvent.hwnd e) (Some (EditorEvent.delay e)).

Definition mergeFile (clock : nat → N) (random : nat → string)
    (file : File) (s : S.t) : S.t :=
  let events_length := Z.of_nat (length (S.events s)) in
  let s := setError None s in
  let s := setLoading true s in
  match RecParser.parseRec (arrayBuffer file) with
  | inr parsed =>
      let newEvents := createEditorEvents (RecParser.events parsed) in
      let s :=
        insertEvents clock random events_length (map as_template newEvents)
          (JS.Int 0) s in
      setLoading false s
  | inl message =>
      let s := setError (Some message) s in
      setLoading false s
  end.

Definition undo (s : S.t) : S.t :=
  let events := S.events s in
  let prevHistory := S.history s in
  match last prevHistory with
  | None => s
  | Some snapshot =>
      let s := setFuture (push_limited (S.future s) events) s in
      let s := setEvents (recomputeTimeline snapshot) s in
      let s := setSelectedIds ∅ s in
      let s := setSelectionAnchor None s in
      let s := setIsDirty true s in
      setHistory (removelast prevHistory) s
  end.

Definition redo (s : S.t) : S.t :=
  let events := S.events s in
  let prevFuture := S.future s in
  match last prevFuture with
  | None => s
  | Some snapshot =>
      let s := setHistory (push_limited (S.history s) events) s in
      let s := setEvents (recomputeTimeline snapshot) s in
      let s := setSelectedIds ∅ s in
      let s := setSelectionAnchor None s in
      let s := setIsDirty true s in
      setFuture (removelast prevFuture) s
  end.

Definition canUndo (s : S.t) : bool := negb (bool_decide (length (S.history s) = 0%nat)).
Definition canRedo (s : S.t) : bool := negb (bool_decide (length (S.future s) = 0%nat)).

(** *** The hook as a command interpreter *)

Inductive command :=
  | LoadFile (file : File)
  | MergeFile (clock : nat → N) (random : nat → string) (file : File)
  | UpdateDelay (id : string) (value : JS.number)
  | RemoveEvent (id : string)
  | InsertEvents (clock : nat → N) (random : nat → string) (index : Z)
      (newEvents : list EventTemplate) (delayTotal : JS.number)
  | ResetChanges
  | ToggleSelection (id : string) (index : Z) (shift meta : bool)
  | SelectAll
  | ClearSelection
  | ApplyDelayToSelection (value : JS.number)
  | AddDelayToSelection (delta : JS.number)
  | ClampSmallDelays (threshold : JS.number)
  | DeleteSelected
  | Undo
  | Redo.

Definition exec (c : command) (s : S.t) : S.t :=
  match c with
  | LoadFile file => fst (loadFile file s)
  | MergeFile clock random file => mergeFile clock random file s
  | UpdateDelay id value => updateDelay id value s
  | RemoveEvent id => removeEvent id s
  | InsertEvents clock random index newEvents delayTotal =>
      insertEvents clock random index newEvents delayTotal s
  | ResetChanges => resetChanges s
  | ToggleSelection id index shift meta => toggleSelection id index shift meta s
  | SelectAll => selectAll s
  | ClearSelection => clearSelection s
  | ApplyDelayToSelection value => applyDelayToSelection value s
  | AddDelayToSelection delta => addDelayToSelection delta s
  | ClampSmallDelays threshold => clampSmallDelays threshold s
  | DeleteSelected => deleteSelected s
  | Undo => undo s
  | Redo => redo s
  end.

(** Commands run one after the other, the first of the list first. *)
Definition run (cs : list command) (s : S.t) : S.t :=
  foldl (fun s c => exec c s) s cs.

End RecEditor.

(** * Vocabulary of the properties *)

(** ** The codec, record by record *)

Module CodecSpec.
Import DataView RecParser.

Definition u8 (b : byte) : Z := Z.of_N (Byte.to_N b).

(** The little-endian value of four bytes. *)
Definition le_value (b0 b1 b2 b3 : byte) : Z :=
  u8 b0 + 2 ^ 8 * u8 b1 + 2 ^ 16 * u8 b2 + 2 ^ 24 * u8 b3.

(** The four bytes [setUint32] stores. *)
Definition le_bytes (value : Z) : list byte :=
  let v := value `mod` 2 ^ 32 in
  [byte_of_Z v; byte_of_Z (Z.shiftr v 8); byte_of_Z (Z.shiftr v 16);
   byte_of_Z (Z.shiftr v 24)].

Definition record_bytes (message paramL paramH absoluteTime hwnd : Z) : list byte :=
  le_bytes message ++ le_bytes paramL ++ le_bytes paramH
    ++ le_bytes absoluteTime ++ le_bytes hwnd.

(** The timestamp written for the event at [index]. *)
Definition written_time (baseTime : Z) (index : nat) (absoluteTime : Z)
    (event : EncodableEvent.t) : Z :=
  if decide (index = 0%nat) then baseTime
  else (absoluteTime + Z.max 0 (toUint32 (EncodableEvent.delay event)))
         `rem` UINT32_MAX.

Fixpoint encoded_records (baseTime : Z) (index : nat) (absoluteTime : Z)
    (events : list EncodableEvent.t) : list byte :=
  match events with
  | [] => []
  | event :: rest =>
      let t := written_time baseTime index absoluteTime event in
      record_bytes (toUint32 (EncodableEvent.message event))
        (toUint32 (EncodableEvent.paramL event))
        (toUint32 (EncodableEvent.paramH event)) t
        (toUint32 (EncodableEvent.hwnd event))
      ++ encoded_records baseTime (S index) t rest
  end.

Fixpoint decoded_events (count index : nat)
    (previousAbsoluteTime previousTime : Z) (bytes : list byte)
  : list TinyTaskEvent.t :=
  match count with
  | O => []
  | S count' =>
      let absoluteTime := getUint32 bytes 12 in
      let elapsed :=
        if decide (index = 0%nat) then 0
        else diffUint32 absoluteTime previousAbsoluteTime in
      let time := if decide (index = 0%nat) then 0 else previousTime + elapsed in
      TinyTaskEvent.mk (getUint32 bytes 0) (getUint32 bytes 4)
        (getUint32 bytes 8) time elapsed (getUint32 bytes 16)
      :: decoded_events count' (S index) absoluteTime time (drop 20 bytes)
  end.

Definition last_time (events : list TinyTaskEvent.t) : Z :=
  match last events with
  | Some e => TinyTaskEvent.time e
  | None => 0
  end.

Fixpoint written_times (baseTime : Z) (index : nat) (absoluteTime : Z)
    (events : list EncodableEvent.t) : list Z :=
  match events with
  | [] => []
  | event :: rest =>
      let t := written_time baseTime index absoluteTime event in
      t :: written_times baseTime (S index) t rest
  end.

End CodecSpec.

(** ** Invariants and runs of the editor store *)

Module EditorSpec.
Import RecEditor.

(** [time[0] = 0 = delay[0]], and every later event is its delay after
    the event before it. *)
Definition timeline_ok (events : list EditorEvent.t) : Prop :=
  (∀ e, events !! 0%nat = Some e →
        EditorEvent.time e = JS.Int 0 ∧ EditorEvent.delay e = JS.Int 0)
  ∧ (∀ i p e, events !! i = Some p → events !! S i = Some e →
        EditorEvent.time e = JS.add (EditorEvent.time p) (EditorEvent.delay e)
        ∧ JS.ge (EditorEvent.time e) (EditorEvent.time p) = true).

(** The same for a tail of the sequence that follows time [previous]. *)
Fixpoint chain (previous : JS.number) (events : list EditorEvent.t) : Prop :=
  match events with
  | [] => True
  | e :: rest =>
      EditorEvent.time e = JS.add previous (EditorEvent.delay e)
      ∧ JS.ge (EditorEvent.time e) previous = true
      ∧ chain (EditorEvent.time e) rest
  end.

(** A sequence the normaliser leaves as it is. *)
Definition normalized (events : list EditorEvent.t) : Prop :=
  recomputeTimeline events = events.

(** The selection a commit leaves: the override if the mutation has one,
    else the prior selection, pruned to the ids of the new sequence. *)
Definition selection_after (m : EventMutationResult) (prior : gset string)
  : gset string :=
  filter (fun id => id ∈ event_ids (recomputeTimeline (next m)))
    (default prior (selectionOverride m)).

(** The commands that go through [commitEvents] with history tracking. *)
Definition is_edit (c : command) : bool :=
  match c with
  | MergeFile _ _ _ | UpdateDelay _ _ | RemoveEvent _ | InsertEvents _ _ _ _ _
  | ApplyDelayToSelection _ | AddDelayToSelection _ | ClampSmallDelays _
  | DeleteSelected => true
  | _ => false
  end.

(** What an edit command can do: nothing to the sequence and the stacks,
    or one commit. *)
Inductive edit_outcome (s s' : S.t) : Prop :=
  | edit_noop :
      S.events s' = S.events s →
      S.history s' = S.history s →
      S.future s' = S.future s →
      S.selectedIds s' = S.selectedIds s →
      S.isDirty s' = S.isDirty s →
      edit_outcome s s'
  | edit_commit (m : EventMutationResult) :
      S.events s' = recomputeTimeline (next m) →
      S.history s' = push_limited (S.history s) (S.events s) →
      S.future s' = [] →
      S.selectedIds s' = selection_after m (S.selectedIds s) →
      S.isDirty s' = true →
      edit_outcome s s'.

(** The state with the two stacks exchanged: [redo] is [undo] seen
    through it. *)
Definition swap_stacks (s : S.t) : S.t :=
  setFuture (S.history s) (setHistory (S.future s) s).

(** Each command of the list is an edit that changes the working
    sequence of the state it runs in. *)
Fixpoint mutations (cs : list command) (s : S.t) : Prop :=
  match cs with
  | [] => True
  | c :: cs' =>
      is_edit c = true
      ∧ S.events (exec c s) ≠ S.events s
      ∧ mutations cs' (exec c s)
  end.

(** The working sequences before each command of the list. *)
Fixpoint trace (cs : list command) (s : S.t) : list (list EditorEvent.t) :=
  match cs with
  | [] => []
  | c :: cs' => S.events s :: trace cs' (exec c s)
  end.

(** The selection holds only ids of events of the working sequence. *)
Definition selection_ok (s : S.t) : Prop :=
  S.selectedIds s ⊆ event_ids (S.events s).

(** A toggle names an event of the working sequence, as the event table
    does when a row is clicked. *)
Definition well_called (c : command) (s : S.t) : Prop :=
  match c with
  | ToggleSelection id _ _ _ => id ∈ event_ids (S.events s)
  | _ => True
  end.

(** Every toggle of the run names an event of the sequence it meets. *)
Fixpoint well_called_run (cs : list command) (s : S.t) : Prop :=
  match cs with
  | [] => True
  | c :: cs' => well_called c s ∧ well_called_run cs' (exec c s)
  end.

(** The callback of [current.map] in [updateDelay]. *)
Definition update_one (id : string) (normalized : JS.number)
    (event : EditorEvent.t) : EditorEvent.t * bool :=
  if negb (String.eqb (EditorEvent.id event) id) then (event, false)
  else if JS.strict_eq (EditorEvent.delay event) normalized then (event, false)
       else (EditorEvent.with_delay event normalized, true).

(** The first character of the string is the letter n. *)
Definition starts_with_n (s : string) : Prop := ∃ t, s = String "n"%char t.

(** Only the two file commands write the error cell. *)
Definition reads_file (c : command) : bool :=
  match c with
  | LoadFile _ | MergeFile _ _ _ => true
  | _ => false
  end.

(** The working sequence and every snapshot on the two stacks are
    normalised. *)
Definition stacks_normalized (s : S.t) : Prop :=
  normalized (S.events s)
  ∧ Forall normalized (S.history s)
  ∧ Forall normalized (S.future s).

End EditorSpec.

(** ** Sample recordings *)

(** A two-record recording whose clock wraps between the records. *)
Definition sample_recording : list byte :=
  [x00; x02; x00; x00;  x01; x00; x00; x00;  x02; x00; x00; x00;
   xf0; xff; xff; xff;  x07; x00; x00; x00;
   x01; x02; x00; x00;  x01; x01; x00; x00;  x02; x00; x03; x00;
   x10; x00; x00; x00;  x07; x00; x00; x00].

Definition sample_file : RecEditor.File :=
  RecEditor.mkFile "sample.rec" sample_recording.

(** The same recording with a third record. *)
Definition longer_file : RecEditor.File :=
  RecEditor.mkFile "longer.rec" (sample_recording ++ drop 20 sample_recording).

(** A file cut in the middle of a record. *)
Definition truncated_file : RecEditor.File :=
  RecEditor.mkFile "truncated.rec" (take 30 sample_recording).

(** Two events, the second with a delay of -5. *)
Definition negative_delay_events : list RecParser.EncodableEvent.t :=
  [RecParser.EncodableEvent.mk (JS.Int 512) (JS.Int 0) (JS.Int 0) (JS.Int 0)
     (JS.Int 7);
   RecParser.EncodableEvent.mk (JS.Int 512) (JS.Int 0) (JS.Int 0) (JS.Int (-5))
     (JS.Int 7)].

(** ** Vocabulary of the further properties *)

Module Layout.
Import DataView RecParser.

(** The absolute timestamp stored in record [i]. *)
Definition stored_time (bytes : list byte) (i : nat) : Z :=
  getUint32 bytes (i * 20 + 12).

(** Each event is its delay after the one before, the first after
    [previous], and every delay is below 2^32. *)
Fixpoint tt_chain (previous : Z) (events : list TinyTaskEvent.t) : Prop :=
  match events with
  | [] => True
  | e :: rest =>
      TinyTaskEvent.time e = previous + TinyTaskEvent.delay e
      ∧ 0 ≤ TinyTaskEvent.delay e < UINT32_MAX
      ∧ tt_chain (TinyTaskEvent.time e) rest
  end.

(** [new Set<number>()] filled by [add] calls, then [Array.from]. *)
Definition insertion_order (handles : list Z) : list Z :=
  foldl (fun set hwnd => hwndSet_add hwnd set) [] handles.

(** The sum of the [toUint32] values of the delays of a run of events. *)
Definition delay_sum (events : list EncodableEvent.t) : Z :=
  foldr (fun e acc => toUint32 (EncodableEvent.delay e) + acc) 0 events.

End Layout.

(** Three events with a fractional, a non-finite, a negative and an
    oversized field. *)
Definition mixed_events : list RecParser.EncodableEvent.t :=
  [RecParser.EncodableEvent.mk (JS.Int 512) (JS.Int 1) (JS.Int 2) (JS.Int 99)
     (JS.Int 7);
   RecParser.EncodableEvent.mk (JS.Fin (1029 # 2)) JS.NaN (JS.Int (-1))
     (JS.Int 16) (JS.Int (2 ^ 32 + 3));
   RecParser.EncodableEvent.mk (JS.Int 513) (JS.Int 1) (JS.Int 2)
     (JS.Int (2 ^ 32 - 1)) (JS.Int 7)].

Module Timeline.
Import RecEditor.

(** The integer a delay stands for once sanitised. *)
Definition delay_value (delay : JS.number) : Z :=
  match sanitizeDelay delay with
  | JS.Fin q => Qfloor q
  | _ => 0
  end.

(** The sum of the sanitised delays of a run of events. *)
Definition delay_total (events : list EditorEvent.t) : Z :=
  foldr (fun e acc => delay_value (EditorEvent.delay e) + acc) 0 events.

(** Event [index] of the normalised sequence, in closed form: the first
    event at 0 with delay 0, a later one at the sum of the sanitised delays
    of the events 1 to [index]. *)
Definition placed (events : list EditorEvent.t) (index : nat)
    (event : EditorEvent.t) : EditorEvent.t :=
  EditorEvent.with_delay_time event
    (JS.Int (if decide (index = 0%nat) then 0
             else delay_value (EditorEvent.delay event)))
    (JS.Int (delay_total (take index (drop 1 events)))).

(** The time of the last event, 0 for an empty sequence. *)
Definition end_time (events : list EditorEvent.t) : JS.number :=
  match last events with
  | Some previous => EditorEvent.time previous
  | None => JS.Int 0
  end.

(** The callback of [events.map] in [createEditorEvents]. *)
Definition parsed_event (index : nat) (event : RecParser.TinyTaskEvent.t)
  : EditorEvent.t :=
  EditorEvent.mk
    (parsed_id index event)
    (JS.Int (RecParser.TinyTaskEvent.message event))
    (JS.Int (RecParser.TinyTaskEvent.paramL event))
    (JS.Int (RecParser.TinyTaskEvent.paramH event))
    (JS.Int (RecParser.TinyTaskEvent.delay event))
    (JS.Int (RecParser.TinyTaskEvent.time event))
    (JS.Int (RecParser.TinyTaskEvent.hwnd event)).

(** The two stacks together respect [HISTORY_LIMIT]. *)
Definition stacks_bounded (s : S.t) : Prop :=
  (length (S.history s) + length (S.future s) ≤ HISTORY_LIMIT)%nat.

(** The state cells a file load decides and no other command writes. *)
Definition baseline (s : S.t) : list EditorEvent.t * Z * option string :=
  (S.initialEvents s, S.baseTime s, S.fileName s).

Definition is_load (c : command) : bool :=
  match c with
  | LoadFile _ => true
  | _ => false
  end.

(** The commands that only rewrite delays. *)
Definition is_delay_edit (c : command) : bool :=
  match c with
  | UpdateDelay _ _ | ApplyDelayToSelection _ | AddDelayToSelection _
  | ClampSmallDelays _ => true
  | _ => false
  end.

(** What [exportRec] passes to the encoder for one event. *)
Definition encodable (e : EditorEvent.t) : RecParser.EncodableEvent.t :=
  RecParser.EncodableEvent.mk (EditorEvent.message e) (EditorEvent.paramL e)
    (EditorEvent.paramH e) (EditorEvent.delay e) (EditorEvent.hwnd e).

(** The callback of [current.map] in [applyToSelection]. *)
Definition apply_one (updater : EditorEvent.t → nat → option EditorEvent.t)
    (selectedIds : gset string) (index : nat) (event : EditorEvent.t)
  : EditorEvent.t * bool :=
  if negb (bool_decide (EditorEvent.id event ∈ selectedIds))
  then (event, false)
  else match updater event index with
       | None => (event, false)
       | Some updated => (updated, true)
       end.

(** The string has no hyphen. *)
Fixpoint no_dash (s : string) : Prop :=
  match s with
  | EmptyString => True
  | String c t => c ≠ "-"%char ∧ no_dash t
  end.

(** The loop of the shift branch of [toggleSelection]. *)
Definition select_range (events : list EditorEvent.t) (start : gset string)
    (cursors : list Z) : gset string :=
  foldl (fun (next : gset string) cursor =>
           match events !! Z.to_nat cursor with
           | Some entry => {[EditorEvent.id entry]} ∪ next
           | None => next
           end)
        start cursors.

(** The clamped position at which [insertEvents] splices. *)
Definition clampedIndex (index : Z) (current : list EditorEvent.t) : nat :=
  Z.to_nat (Z.max 0 (Z.min index (Z.of_nat (length current)))).

End Timeline.

(** * Properties of the codec *)

Module CodecFacts.
Import DataView RecParser CodecSpec.

Lemma u8_range b : 0 ≤ u8 b < 256.
Proof.
  unfold u8. pose proof (Byte.to_N_bounded b) as H.
  lia.
Qed.

Lemma byte_of_Z_u8 b : byte_of_Z (u8 b) = b.
Proof.
  unfold byte_of_Z. pose proof (u8_range b).
  rewrite Z.mod_small by lia. unfold u8. rewrite N2Z.id, Byte.of_to_N. done.
Qed.

Lemma byte_of_Z_mod z : byte_of_Z (z `mod` 256) = byte_of_Z z.
Proof. unfold byte_of_Z. by rewrite Z.mod_mod. Qed.

Lemma lor_shiftl_add a b n :
  0 ≤ n → 0 ≤ a < 2 ^ n → Z.lor a (Z.shiftl b n) = a + b * 2 ^ n.
Proof.
  intros Hn Ha. rewrite <- Z.shiftl_mul_pow2 by done.
  symmetry. apply Z.add_nocarry_lor.
  apply Z.bits_inj'. intros i Hi.
  rewrite Z.land_spec, Z.bits_0.
  destruct (decide (i < n)) as [Hlt|Hge].
  - rewrite Z.shiftl_spec_low by done. apply andb_false_r.
  - destruct (decide (a = 0)) as [->|Hne]; [by rewrite Z.bits_0|].
    rewrite (Z.bits_above_log2 a i); [done|lia|].
    assert (Z.log2 a < n) by (apply Z.log2_lt_pow2; lia). lia.
Qed.

Lemma le_value_range b0 b1 b2 b3 : 0 ≤ le_value b0 b1 b2 b3 < 2 ^ 32.
Proof.
  unfold le_value.
  pose proof (u8_range b0). pose proof (u8_range b1).
  pose proof (u8_range b2). pose proof (u8_range b3). lia.
Qed.

Lemma getUint8_range view offset : 0 ≤ getUint8 view offset < 256.
Proof.
  unfold getUint8. destruct (view !! offset) as [b|]; [apply u8_range|lia].
Qed.

Lemma getUint32_sum view offset :
  getUint32 view offset
  = getUint8 view offset + 2 ^ 8 * getUint8 view (offset + 1)
    + 2 ^ 16 * getUint8 view (offset + 2) + 2 ^ 24 * getUint8 view (offset + 3).
Proof.
  unfold getUint32.
  pose proof (getUint8_range view offset).
  pose proof (getUint8_range view (offset + 1)).
  pose proof (getUint8_range view (offset + 2)).
  pose proof (getUint8_range view (offset + 3)).
  set (g0 := getUint8 view offset) in *.
  set (g1 := getUint8 view (offset + 1)) in *.
  set (g2 := getUint8 view (offset + 2)) in *.
  set (g3 := getUint8 view (offset + 3)) in *.
  rewrite !Z.shiftl_mul_pow2 by lia.
  rewrite <- (Z.shiftl_mul_pow2 g3 24), (lor_shiftl_add _ g3 24) by lia.
  replace (g2 * 2 ^ 16 + g3 * 2 ^ 24) with ((g2 + g3 * 2 ^ 8) * 2 ^ 16) by lia.
  rewrite <- (Z.shiftl_mul_pow2 _ 16), (lor_shiftl_add _ _ 16) by lia.
  replace (g1 * 2 ^ 8 + (g2 + g3 * 2 ^ 8) * 2 ^ 16)
    with ((g1 + g2 * 2 ^ 8 + g3 * 2 ^ 16) * 2 ^ 8) by lia.
  rewrite <- (Z.shiftl_mul_pow2 _ 8), (lor_shiftl_add _ _ 8) by lia.
  lia.
Qed.

Lemma getUint32_range view offset : 0 ≤ getUint32 view offset < 2 ^ 32.
Proof.
  rewrite getUint32_sum.
  pose proof (getUint8_range view offset).
  pose proof (getUint8_range view (offset + 1)).
  pose proof (getUint8_range view (offset + 2)).
  pose proof (getUint8_range view (offset + 3)).
  lia.
Qed.

Lemma getUint32_cons b0 b1 b2 b3 rest :
  getUint32 (b0 :: b1 :: b2 :: b3 :: rest) 0 = le_value b0 b1 b2 b3.
Proof. by rewrite getUint32_sum. Qed.

Lemma le_bytes_le_value b0 b1 b2 b3 :
  le_bytes (le_value b0 b1 b2 b3) = [b0; b1; b2; b3].
Proof.
  pose proof (le_value_range b0 b1 b2 b3) as Hr.
  unfold le_bytes. rewrite Z.mod_small by done.
  rewrite !Z.shiftr_div_pow2 by lia.
  rewrite <- (byte_of_Z_mod (le_value _ _ _ _)).
  rewrite <- (byte_of_Z_mod (_ `div` 2 ^ 8)).
  rewrite <- (byte_of_Z_mod (_ `div` 2 ^ 16)).
  rewrite <- (byte_of_Z_mod (_ `div` 2 ^ 24)).
  unfold le_value in *.
  pose proof (u8_range b0). pose proof (u8_range b1).
  pose proof (u8_range b2). pose proof (u8_range b3).
  replace ((u8 b0 + 2 ^ 8 * u8 b1 + 2 ^ 16 * u8 b2 + 2 ^ 24 * u8 b3) `mod` 256)
    with (u8 b0) by (Z.div_mod_to_equations; lia).
  replace (((u8 b0 + 2 ^ 8 * u8 b1 + 2 ^ 16 * u8 b2 + 2 ^ 24 * u8 b3) `div` 2 ^ 8) `mod` 256)
    with (u8 b1) by (Z.div_mod_to_equations; lia).
  replace (((u8 b0 + 2 ^ 8 * u8 b1 + 2 ^ 16 * u8 b2 + 2 ^ 24 * u8 b3) `div` 2 ^ 16) `mod` 256)
    with (u8 b2) by (Z.div_mod_to_equations; lia).
  replace (((u8 b0 + 2 ^ 8 * u8 b1 + 2 ^ 16 * u8 b2 + 2 ^ 24 * u8 b3) `div` 2 ^ 24) `mod` 256)
    with (u8 b3) by (Z.div_mod_to_equations; lia).
  by rewrite !byte_of_Z_u8.
Qed.

(** Reads and writes at an offset, relative to what precedes it. *)
Lemma getUint32_app pre rest k :
  getUint32 (pre ++ rest) (length pre + k) = getUint32 rest k.
Proof.
  unfold getUint32, getUint8.
  rewrite <- !Nat.add_assoc.
  rewrite !lookup_app_r by lia.
  by replace (length pre + k - length pre)%nat with k by lia;
     replace (length pre + (k + 1) - length pre)%nat with (k + 1)%nat by lia;
     replace (length pre + (k + 2) - length pre)%nat with (k + 2)%nat by lia;
     replace (length pre + (k + 3) - length pre)%nat with (k + 3)%nat by lia.
Qed.

Lemma getUint32_app_0 pre rest :
  getUint32 (pre ++ rest) (length pre) = getUint32 rest 0.
Proof. rewrite <- (getUint32_app pre rest 0). f_equal. lia. Qed.

Lemma setUint32_app pre rest k value :
  setUint32 (pre ++ rest) (length pre + k) value = pre ++ setUint32 rest k value.
Proof.
  unfold setUint32. rewrite <- !Nat.add_assoc. by rewrite !insert_app_r.
Qed.

Lemma setUint32_record z0 z1 z2 z3 z4 z5 z6 z7 z8 z9 z10 z11 z12 z13 z14 z15
    z16 z17 z18 z19 rest v0 v1 v2 v3 v4 :
  setUint32 (setUint32 (setUint32 (setUint32 (setUint32
    (z0 :: z1 :: z2 :: z3 :: z4 :: z5 :: z6 :: z7 :: z8 :: z9 :: z10 :: z11
       :: z12 :: z13 :: z14 :: z15 :: z16 :: z17 :: z18 :: z19 :: rest)
    0 v0) 4 v1) 8 v2) 12 v3) 16 v4
  = le_bytes v0 ++ le_bytes v1 ++ le_bytes v2 ++ le_bytes v3 ++ le_bytes v4 ++ rest.
Proof. reflexivity. Qed.

Lemma getUint32_record c0 c1 c2 c3 c4 c5 c6 c7 c8 c9 c10 c11 c12 c13 c14 c15
    c16 c17 c18 c19 rest :
  let record :=
    c0 :: c1 :: c2 :: c3 :: c4 :: c5 :: c6 :: c7 :: c8 :: c9 :: c10 :: c11
       :: c12 :: c13 :: c14 :: c15 :: c16 :: c17 :: c18 :: c19 :: rest in
  getUint32 record 0 = le_value c0 c1 c2 c3
  ∧ getUint32 record 4 = le_value c4 c5 c6 c7
  ∧ getUint32 record 8 = le_value c8 c9 c10 c11
  ∧ getUint32 record 12 = le_value c12 c13 c14 c15
  ∧ getUint32 record 16 = le_value c16 c17 c18 c19.
Proof.
  intros record. subst record. repeat split.
  - apply getUint32_cons.
  - rewrite <- (getUint32_cons c4 c5 c6 c7 (c8 :: c9 :: c10 :: c11 :: c12 :: c13 :: c14 :: c15 :: c16 :: c17 :: c18 :: c19 :: rest)).
    exact (getUint32_app [c0; c1; c2; c3] _ 0).
  - rewrite <- (getUint32_cons c8 c9 c10 c11 (c12 :: c13 :: c14 :: c15 :: c16 :: c17 :: c18 :: c19 :: rest)).
    exact (getUint32_app [c0; c1; c2; c3; c4; c5; c6; c7] _ 0).
  - rewrite <- (getUint32_cons c12 c13 c14 c15 (c16 :: c17 :: c18 :: c19 :: rest)).
    exact (getUint32_app [c0; c1; c2; c3; c4; c5; c6; c7; c8; c9; c10; c11] _ 0).
  - rewrite <- (getUint32_cons c16 c17 c18 c19 rest).
    exact (getUint32_app
             [c0; c1; c2; c3; c4; c5; c6; c7; c8; c9; c10; c11; c12; c13; c14; c15] _ 0).
Qed.

(** *** What [toUint32] computes *)

Lemma trunc_Int z : JS.trunc (inject_Z z) = z.
Proof. unfold JS.trunc. simpl. apply Z.quot_1_r. Qed.

Lemma toUint32_range value : 0 ≤ toUint32 value < UINT32_MAX.
Proof.
  unfold toUint32, UINT32_MAX. destruct value; try lia.
  generalize (JS.trunc q). intros n.
  pose proof (Z.rem_bound_abs n 4294967296 ltac:(lia)).
  destruct (decide (0 ≤ n)).
  - rewrite (Z.rem_mod_nonneg n) by lia.
    pose proof (Z.mod_pos_bound n 4294967296 ltac:(lia)).
    rewrite Z.rem_mod_nonneg by lia.
    apply Z.mod_pos_bound. lia.
  - pose proof (Z.rem_nonpos n 4294967296 ltac:(lia) ltac:(lia)).
    rewrite Z.rem_mod_nonneg by lia.
    apply Z.mod_pos_bound. lia.
Qed.

Lemma toUint32_Int_small z : 0 ≤ z < UINT32_MAX → toUint32 (JS.Int z) = z.
Proof.
  intros Hz. unfold toUint32, JS.Int. rewrite trunc_Int.
  unfold UINT32_MAX in *.
  rewrite (Z.rem_mod_nonneg z) by lia. rewrite (Z.mod_small z) by lia.
  rewrite Z.rem_mod_nonneg by lia.
  Z.div_mod_to_equations; lia.
Qed.

(** A negative integer delay wraps around instead of becoming 0. *)
Lemma toUint32_Int_neg z :
  - UINT32_MAX < z < 0 → toUint32 (JS.Int z) = UINT32_MAX + z.
Proof.
  intros Hz. unfold toUint32, JS.Int. rewrite trunc_Int.
  unfold UINT32_MAX in *.
  assert (z `rem` 4294967296 = z) as -> by (apply Z.rem_small_iff; lia).
  rewrite Z.rem_mod_nonneg by lia. rewrite Z.mod_small; lia.
Qed.

(** *** The encoder, record by record *)

Lemma encode_iteration_spec baseTime index event absoluteTime pre rest :
  length pre = (index * RECORD_BYTE_LENGTH)%nat →
  encode_iteration baseTime index event
    (absoluteTime, pre ++ replicate RECORD_BYTE_LENGTH x00 ++ rest)
  = (written_time baseTime index absoluteTime event,
     pre ++ record_bytes (toUint32 (EncodableEvent.message event))
              (toUint32 (EncodableEvent.paramL event))
              (toUint32 (EncodableEvent.paramH event))
              (written_time baseTime index absoluteTime event)
              (toUint32 (EncodableEvent.hwnd event)) ++ rest).
Proof.
  intros Hpre. unfold encode_iteration, written_time. rewrite <- Hpre.
  f_equal.
  replace (length pre) with (length pre + 0)%nat at 1 by lia.
  rewrite !setUint32_app.
  unfold RECORD_BYTE_LENGTH, UINT32_SIZE, record_bytes.
  cbn [replicate app Nat.mul Nat.add].
  rewrite setUint32_record. by rewrite <- !app_assoc.
Qed.

Lemma encode_loop_spec baseTime events : ∀ index absoluteTime pre,
  length pre = (index * RECORD_BYTE_LENGTH)%nat →
  snd (encode_loop baseTime index events
         (absoluteTime,
          pre ++ replicate (length events * RECORD_BYTE_LENGTH) x00))
  = pre ++ encoded_records baseTime index absoluteTime events.
Proof.
  induction events as [|event rest IH]; intros index absoluteTime pre Hpre.
  - done.
  - cbn [encode_loop encoded_records length].
    replace (S (length rest) * RECORD_BYTE_LENGTH)%nat
      with (RECORD_BYTE_LENGTH + length rest * RECORD_BYTE_LENGTH)%nat by lia.
    rewrite replicate_add, encode_iteration_spec by done.
    rewrite !app_assoc. rewrite IH.
    + by rewrite <- !app_assoc.
    + rewrite !length_app. unfold record_bytes, le_bytes, RECORD_BYTE_LENGTH in *.
      rewrite !length_app. simpl. lia.
Qed.

Lemma encodeRec_spec events baseTime :
  encodeRec events baseTime
  = encoded_records (toUint32 (default (JS.Int 0) baseTime)) 0
      (toUint32 (default (JS.Int 0) baseTime)) events.
Proof.
  unfold encodeRec. case_decide as Hlen.
  - by destruct events.
  - apply (encode_loop_spec _ events 0 _ []). done.
Qed.

(** *** The decoder, record by record *)

Lemma parse_loop_spec count : ∀ from pre rest st,
  length pre = (from * RECORD_BYTE_LENGTH)%nat →
  length rest = (count * RECORD_BYTE_LENGTH)%nat →
  let st' := parse_loop (pre ++ rest) count from st in
  pl_events st'
  = pl_events st
      ++ decoded_events count from (pl_previousAbsoluteTime st)
           (last_time (pl_events st)) rest
  ∧ pl_baseTime st'
    = match count, from with
      | S _, O => getUint32 rest 12
      | _, _ => pl_baseTime st
      end.
Proof.
  induction count as [|count IH]; intros from pre rest st Hpre Hrest; cbn zeta.
  - cbn. by rewrite app_nil_r.
  - cbn [parse_loop decoded_events].
    unfold RECORD_BYTE_LENGTH in *.
    assert (length (pre ++ take 20 rest) = (S from * 20)%nat) as Hpre'.
    { rewrite length_app, length_take. lia. }
    assert (length (drop 20 rest) = (count * 20)%nat) as Hrest'.
    { rewrite length_drop. lia. }
    pose proof (IH (S from) (pre ++ take 20 rest) (drop 20 rest)
                  (parse_iteration (pre ++ rest) from st) Hpre' Hrest') as [He Hb].
    rewrite <- app_assoc, take_drop in He, Hb.
    rewrite He, Hb. clear He Hb IH.
    unfold parse_iteration, RECORD_BYTE_LENGTH, UINT32_SIZE.
    rewrite <- Hpre.
    rewrite !getUint32_app, !getUint32_app_0. cbn [Nat.mul Nat.add].
    destruct (decide (from = 0%nat)) as [->|Hne].
    + cbn [pl_events pl_previousAbsoluteTime pl_baseTime].
      rewrite <- app_assoc. split; [|by destruct count].
      do 2 f_equal. unfold last_time. by rewrite last_snoc.
    + cbn [pl_events pl_previousAbsoluteTime pl_baseTime].
      rewrite <- app_assoc. split; [|destruct from; [done|by destruct count]].
      do 2 f_equal. unfold last_time at 1. by rewrite last_snoc.
Qed.

Lemma diffUint32_undo current previous :
  0 ≤ current < UINT32_MAX → 0 ≤ previous < UINT32_MAX →
  (previous + Z.max 0 (toUint32 (JS.Int (diffUint32 current previous))))
    `rem` UINT32_MAX = current.
Proof.
  intros Hc Hp. unfold diffUint32.
  assert (0 ≤ (current - previous + UINT32_MAX) `rem` UINT32_MAX < UINT32_MAX) as Hd.
  { unfold UINT32_MAX in *. rewrite Z.rem_mod_nonneg by lia.
    apply Z.mod_pos_bound. lia. }
  rewrite toUint32_Int_small by done.
  unfold UINT32_MAX in *.
  rewrite Z.rem_mod_nonneg in * by lia.
  rewrite Z.rem_mod_nonneg by lia.
  Z.div_mod_to_equations; lia.
Qed.

Lemma encoded_decoded count : ∀ index absoluteTime pa pt bytes baseTime,
  length bytes = (count * RECORD_BYTE_LENGTH)%nat →
  (index = 0%nat → baseTime = getUint32 bytes 12) →
  (index ≠ 0%nat → absoluteTime = pa ∧ 0 ≤ pa < UINT32_MAX) →
  encoded_records baseTime index absoluteTime
    (cloneAsEncodable (decoded_events count index pa pt bytes))
  = bytes.
Proof.
  induction count as [|count IH];
    intros index absoluteTime pa pt bytes baseTime Hlen Hbase Hpa.
  - by destruct bytes.
  - unfold RECORD_BYTE_LENGTH in *.
    destruct bytes as
      [|c0 [|c1 [|c2 [|c3 [|c4 [|c5 [|c6 [|c7 [|c8 [|c9 [|c10 [|c11 [|c12 [|c13 [|c14 [|c15 [|c16 [|c17 [|c18 [|c19 rest]]]]]]]]]]]]]]]]]]]];
      try (simpl in Hlen; lia).
    destruct (getUint32_record c0 c1 c2 c3 c4 c5 c6 c7 c8 c9 c10 c11 c12 c13
                c14 c15 c16 c17 c18 c19 rest) as (E0 & E4 & E8 & E12 & E16).
    cbn zeta in E0, E4, E8, E12, E16.
    cbn [decoded_events cloneAsEncodable map encoded_records drop
         EncodableEvent.message EncodableEvent.paramL EncodableEvent.paramH
         EncodableEvent.hwnd EncodableEvent.delay
         TinyTaskEvent.message TinyTaskEvent.paramL
         TinyTaskEvent.paramH TinyTaskEvent.hwnd TinyTaskEvent.delay].
    rewrite E0, E4, E8, E12, E16.
    pose proof (le_value_range c0 c1 c2 c3).
    pose proof (le_value_range c4 c5 c6 c7).
    pose proof (le_value_range c8 c9 c10 c11).
    pose proof (le_value_range c12 c13 c14 c15) as Ht.
    pose proof (le_value_range c16 c17 c18 c19).
    rewrite !toUint32_Int_small by (unfold UINT32_MAX; lia).
    assert (written_time baseTime index absoluteTime
              (EncodableEvent.mk (JS.Int (le_value c0 c1 c2 c3))
                 (JS.Int (le_value c4 c5 c6 c7)) (JS.Int (le_value c8 c9 c10 c11))
                 (JS.Int (if decide (index = 0%nat) then 0
                          else diffUint32 (le_value c12 c13 c14 c15) pa))
                 (JS.Int (le_value c16 c17 c18 c19)))
            = le_value c12 c13 c14 c15) as ->.
    { unfold written_time. cbn [EncodableEvent.delay].
      destruct (decide (index = 0%nat)) as [Hi|Hi].
      - rewrite (Hbase Hi). apply E12.
      - destruct (Hpa Hi) as [-> Hr].
        apply diffUint32_undo; [unfold UINT32_MAX; lia | done]. }
    unfold record_bytes. rewrite !le_bytes_le_value.
    cbn [app]. do 20 f_equal.
    apply IH.
    + simpl in Hlen. lia.
    + done.
    + intros _. unfold UINT32_MAX. split; [done|lia].
Qed.

(** *** [parseRec] on a buffer of whole records *)

Lemma parseRec_ok (buffer : list byte) :
  (length buffer `mod` RECORD_BYTE_LENGTH = 0)%nat →
  let count := (length buffer `div` RECORD_BYTE_LENGTH)%nat in
  parseRec buffer
  = inr (mkParseResult
           (decoded_events count 0 0 0 buffer)
           (match count with O => 0 | S _ => getUint32 buffer 12 end)
           (pl_hwndSet (parse_loop buffer count 0 (mkParseLoop [] [] 0 0)))
           (last_time (decoded_events count 0 0 0 buffer))).
Proof.
  intros Hmod count. unfold parseRec.
  assert (length buffer = (count * RECORD_BYTE_LENGTH)%nat) as Hlen.
  { subst count. unfold RECORD_BYTE_LENGTH in *.
    pose proof (Nat.div_mod_eq (length buffer) 20). lia. }
  case_decide as H0.
  - subst count. rewrite H0. done.
  - rewrite decide_False by (rewrite Hmod; lia).
    pose proof (parse_loop_spec count 0 [] buffer (mkParseLoop [] [] 0 0)
                  eq_refl Hlen) as [He Hb].
    cbn [app pl_events pl_previousAbsoluteTime pl_baseTime] in He, Hb.
    fold count. rewrite He, Hb. unfold last_time.
    do 2 f_equal; try by destruct count.
Qed.

(** *** Timestamps written by the encoder *)

Lemma u8_byte_of_Z z : u8 (byte_of_Z z) = z `mod` 256.
Proof.
  unfold u8, byte_of_Z.
  pose proof (Z.mod_pos_bound z 256 ltac:(lia)) as Hr.
  destruct (Byte.of_N (Z.to_N (z `mod` 256))) as [b|] eqn:E.
  - apply Byte.to_of_N in E. rewrite E. lia.
  - pose proof (Byte.to_of_N_option_map (Z.to_N (z `mod` 256))) as H.
    rewrite E in H. cbn in H.
    destruct (N.leb_spec (Z.to_N (z `mod` 256)) 255); [done|lia].
Qed.

Lemma le_value_le_bytes v rest :
  getUint32 (le_bytes v ++ rest) 0 = v `mod` 2 ^ 32.
Proof.
  unfold le_bytes. cbn [app]. rewrite getUint32_cons. unfold le_value.
  rewrite !u8_byte_of_Z, !Z.shiftr_div_pow2 by lia.
  pose proof (Z.mod_pos_bound v (2 ^ 32) ltac:(lia)).
  generalize dependent (v `mod` 2 ^ 32). intros w Hw.
  Z.div_mod_to_equations. lia.
Qed.

Lemma written_time_range baseTime index absoluteTime event :
  0 ≤ baseTime < UINT32_MAX → 0 ≤ absoluteTime →
  0 ≤ written_time baseTime index absoluteTime event < UINT32_MAX.
Proof.
  intros Hb Ha. unfold written_time. case_decide; [done|].
  unfold UINT32_MAX in *. rewrite Z.rem_mod_nonneg by lia.
  apply Z.mod_pos_bound. lia.
Qed.

Lemma length_record_bytes m l h t w : length (record_bytes m l h t w) = 20%nat.
Proof. done. Qed.

Lemma encoded_records_time events : ∀ baseTime index absoluteTime i t,
  0 ≤ baseTime < UINT32_MAX → 0 ≤ absoluteTime →
  written_times baseTime index absoluteTime events !! i = Some t →
  getUint32 (encoded_records baseTime index absoluteTime events) (i * 20 + 12) = t.
Proof.
  induction events as [|event rest IH];
    intros baseTime index absoluteTime i t Hb Ha Ht; [done|].
  cbn [written_times encoded_records] in *.
  pose proof (written_time_range baseTime index absoluteTime event Hb Ha) as Hr.
  destruct i as [|i].
  - cbn in Ht. injection Ht as <-.
    etrans;
      [exact (getUint32_app
                (le_bytes (toUint32 (EncodableEvent.message event))
                 ++ le_bytes (toUint32 (EncodableEvent.paramL event))
                 ++ le_bytes (toUint32 (EncodableEvent.paramH event)))
                (le_bytes (written_time baseTime index absoluteTime event)
                 ++ le_bytes (toUint32 (EncodableEvent.hwnd event))
                 ++ encoded_records baseTime (S index)
                      (written_time baseTime index absoluteTime event) rest)
                0)|].
    rewrite le_value_le_bytes.
    unfold UINT32_MAX in Hr. apply Z.mod_small. lia.
  - cbn [lookup list_lookup] in Ht.
    replace (S i * 20 + 12)%nat
      with (length (record_bytes (toUint32 (EncodableEvent.message event))
                      (toUint32 (EncodableEvent.paramL event))
                      (toUint32 (EncodableEvent.paramH event))
                      (written_time baseTime index absoluteTime event)
                      (toUint32 (EncodableEvent.hwnd event))) + (i * 20 + 12))%nat
      by (rewrite length_record_bytes; lia).
    rewrite getUint32_app. apply IH; [done|lia|done].
Qed.

Lemma written_times_step events : ∀ baseTime index absoluteTime i t',
  written_times baseTime index absoluteTime events !! S i = Some t' →
  ∃ t e, written_times baseTime index absoluteTime events !! i = Some t
         ∧ events !! S i = Some e
         ∧ t' = (t + Z.max 0 (toUint32 (EncodableEvent.delay e))) `rem` UINT32_MAX.
Proof.
  induction events as [|event rest IH];
    intros baseTime index absoluteTime i t' Ht; [done|].
  cbn [written_times] in *. destruct i as [|i].
  - destruct rest as [|e rest]; [done|]. cbn in Ht. injection Ht as <-.
    eexists _, e. split; [done|]. split; [done|].
    unfold written_time at 1. by rewrite decide_False.
  - apply IH in Ht as (t & e & H1 & H2 & H3). by exists t, e.
Qed.

Lemma length_written_times events : ∀ baseTime index absoluteTime,
  length (written_times baseTime index absoluteTime events) = length events.
Proof.
  induction events as [|event rest IH]; intros; cbn; [done|]. by rewrite IH.
Qed.

(** What the encoder writes as the timestamp of every record after the
    first: the previous written timestamp plus [toUint32] of the delay,
    modulo 2^32. [toUint32] is 0 on a non-finite delay and the delay itself
    on an integer below 2^32; a negative delay it wraps around (see
    [toUint32_Int_neg]), so [Math.max(0, ...)] never acts. *)
Lemma encodeRec_timestamp_step events baseTime i e :
  events !! S i = Some e →
  getUint32 (encodeRec events baseTime) (S i * 20 + 12)
  = (getUint32 (encodeRec events baseTime) (i * 20 + 12)
     + toUint32 (EncodableEvent.delay e)) `rem` UINT32_MAX.
Proof.
  intros He. rewrite encodeRec_spec.
  set (bt := toUint32 (default (JS.Int 0) baseTime)).
  pose proof (toUint32_range (default (JS.Int 0) baseTime)) as Hb. fold bt in Hb.
  destruct (written_times bt 0 bt events !! S i) as [t'|] eqn:Ht'.
  - destruct (written_times_step _ _ _ _ _ _ Ht') as (t & e' & Ht & He' & ->).
    rewrite He in He'. injection He' as <-.
    rewrite (encoded_records_time _ _ _ _ _ _ Hb (proj1 Hb) Ht').
    rewrite (encoded_records_time _ _ _ _ _ _ Hb (proj1 Hb) Ht).
    pose proof (toUint32_range (EncodableEvent.delay e)). by rewrite Z.max_r by lia.
  - apply lookup_ge_None in Ht'. rewrite length_written_times in Ht'.
    apply lookup_lt_Some in He. lia.
Qed.

End CodecFacts.

(** * Properties of the editor store *)

Module NumberFacts.

Lemma lt_Int a b : JS.lt (JS.Int a) (JS.Int b) = bool_decide (a < b).
Proof.
  unfold JS.lt, JS.Int, Qle_bool. simpl. rewrite !Z.mul_1_r.
  case_bool_decide; [apply negb_true_iff, Z.leb_gt | apply negb_false_iff, Z.leb_le]; lia.
Qed.

Lemma Math_min_Int a b :
  JS.Math_min (JS.Int a) (JS.Int b)
  = if bool_decide (b < a) then JS.Int b else JS.Int a.
Proof. unfold JS.Math_min. cbn [JS.Int]. by rewrite <- lt_Int. Qed.

Lemma round_Int z : JS.Math_round (JS.Int z) = JS.Int z.
Proof.
  unfold JS.Math_round, JS.Int. do 2 f_equal.
  unfold Qfloor, Qplus, inject_Z. simpl. rewrite !Z.mul_1_r.
  Z.div_mod_to_equations; lia.
Qed.

Lemma Qfloor_half_nonneg q : (0 <= q)%Q → 0 ≤ Qfloor (q + (1 # 2)).
Proof.
  intros Hq. change 0 with (Qfloor 0). apply Qfloor_resp_le.
  apply Qle_trans with q; [done|].
  rewrite <- (Qplus_0_r q) at 1. apply Qplus_le_r. done.
Qed.

Lemma ge_add_nonneg x z :
  0 ≤ z → JS.ge (JS.add (JS.Fin x) (JS.Int z)) (JS.Fin x) = true.
Proof.
  intros Hz. unfold JS.ge, JS.add, JS.Int, JS.lt, JS.strict_eq.
  assert (x <= x + inject_Z z)%Q as Hle.
  { rewrite <- (Qplus_0_r x) at 1. apply Qplus_le_r.
    change 0%Q with (inject_Z 0). by rewrite <- Zle_Qle. }
  destruct (Qle_bool (x + inject_Z z) x) eqn:E; [|done].
  apply Qle_bool_iff in E. simpl. apply Qeq_bool_iff. by apply Qle_antisym.
Qed.

End NumberFacts.

Module EditorFacts.
Import RecEditor NumberFacts EditorSpec.

(** [sanitizeDelay] always returns an integer between 0 and 2^32 - 1. *)
Lemma sanitizeDelay_range value :
  ∃ z, sanitizeDelay value = JS.Int z ∧ 0 ≤ z ≤ UINT32_MAX - 1.
Proof.
  unfold sanitizeDelay, UINT32_MAX.
  destruct value as [| | |q]; cbn [JS.isFinite negb orb];
    try (exists 0; split; [done|lia]).
  destruct (JS.lt (JS.Fin q) (JS.Int 0)) eqn:Hneg.
  - exists 0. split; [done|lia].
  - cbn [JS.Math_round]. rewrite Math_min_Int.
    case_bool_decide.
    + eexists. split; [done|lia].
    + eexists. split; [done|]. split; [|lia].
      apply Qfloor_half_nonneg.
      unfold JS.lt, JS.Int in Hneg. apply negb_false_iff, Qle_bool_iff in Hneg.
      done.
Qed.

Lemma sanitizeDelay_Int z :
  0 ≤ z ≤ UINT32_MAX - 1 → sanitizeDelay (JS.Int z) = JS.Int z.
Proof.
  intros Hz. unfold sanitizeDelay, UINT32_MAX in *.
  change (JS.isFinite (JS.Int z)) with true. cbn [negb orb].
  rewrite lt_Int, bool_decide_false by lia.
  rewrite round_Int, Math_min_Int.
  by rewrite bool_decide_false by lia.
Qed.

Lemma sanitizeDelay_idem value :
  sanitizeDelay (sanitizeDelay value) = sanitizeDelay value.
Proof.
  destruct (sanitizeDelay_range value) as (z & -> & Hz).
  by apply sanitizeDelay_Int.
Qed.

Lemma recompute_from_idem events : ∀ index elapsed,
  recompute_from index elapsed (recompute_from index elapsed events)
  = recompute_from index elapsed events.
Proof.
  induction events as [|event rest IH]; intros index elapsed; [done|].
  cbn [recompute_from]. destruct (decide (index = 0%nat)) as [->|Hne].
  - cbn [recompute_from decide]. rewrite decide_True by done.
    f_equal. apply IH.
  - cbn [recompute_from]. rewrite decide_False by done.
    cbn [EditorEvent.with_delay_time EditorEvent.delay].
    rewrite sanitizeDelay_idem. f_equal. apply IH.
Qed.

Lemma recomputeTimeline_idem events :
  recomputeTimeline (recomputeTimeline events) = recomputeTimeline events.
Proof. apply recompute_from_idem. Qed.

(** *** The sequencing invariant *)

Lemma recompute_from_chain events : ∀ index x,
  index ≠ 0%nat → chain (JS.Fin x) (recompute_from index (JS.Fin x) events).
Proof.
  induction events as [|event rest IH]; intros index x Hne; [done|].
  cbn [recompute_from]. rewrite decide_False by done. cbn zeta.
  destruct (sanitizeDelay_range (EditorEvent.delay event)) as (z & -> & Hz).
  cbn [chain EditorEvent.with_delay_time EditorEvent.time EditorEvent.delay].
  split; [done|]. split; [apply ge_add_nonneg; lia|].
  apply IH. lia.
Qed.

Lemma chain_lookup events : ∀ previous,
  chain previous events →
  ∀ i p e,
    (previous :: (EditorEvent.time <$> events)) !! i = Some p →
    events !! i = Some e →
    EditorEvent.time e = JS.add p (EditorEvent.delay e)
    ∧ JS.ge (EditorEvent.time e) p = true.
Proof.
  induction events as [|event rest IH]; intros previous Hc i p e Hp He; [done|].
  destruct Hc as (Ht & Hg & Hc). destruct i as [|i].
  - cbn in Hp, He. by simplify_eq.
  - cbn in Hp, He. by apply (IH _ Hc i).
Qed.

Lemma recomputeTimeline_ok events : timeline_ok (recomputeTimeline events).
Proof.
  destruct events as [|event rest]; [done|].
  unfold recomputeTimeline. cbn [recompute_from decide]. rewrite decide_True by done.
  pose proof (recompute_from_chain rest 1 (inject_Z 0) ltac:(lia)) as Hc.
  split.
  - intros e He. cbn in He. by simplify_eq.
  - intros i p e Hp He. cbn in He.
    apply (chain_lookup _ _ Hc i); [|done].
    destruct i as [|i].
    + cbn in Hp. by simplify_eq.
    + change (recompute_from 1 (JS.Int 0) rest !! i = Some p) in Hp.
      change ((EditorEvent.time <$> recompute_from 1 (JS.Int 0) rest) !! i
              = Some (EditorEvent.time p)).
      by rewrite list_lookup_fmap, Hp.
Qed.

Lemma normalized_recompute events : normalized (recomputeTimeline events).
Proof. apply recomputeTimeline_idem. Qed.

Lemma normalized_ok events : normalized events → timeline_ok events.
Proof. intros <-. apply recomputeTimeline_ok. Qed.

Lemma recompute_from_ids events : ∀ index elapsed,
  map EditorEvent.id (recompute_from index elapsed events)
  = map EditorEvent.id events.
Proof.
  induction events as [|event rest IH]; intros index elapsed; [done|].
  cbn [recompute_from]. case_decide; cbn; by rewrite IH.
Qed.

Lemma recomputeTimeline_ids events :
  map EditorEvent.id (recomputeTimeline events) = map EditorEvent.id events.
Proof. apply recompute_from_ids. Qed.

Lemma event_ids_recompute events :
  event_ids (recomputeTimeline events) = event_ids events.
Proof. unfold event_ids. by rewrite recomputeTimeline_ids. Qed.

Lemma length_recomputeTimeline events :
  length (recomputeTimeline events) = length events.
Proof.
  rewrite <- (length_map EditorEvent.id (recomputeTimeline _)),
    recomputeTimeline_ids.
  apply length_map.
Qed.

(** *** What a commit does to each state cell *)

Lemma filter_size_eq (P : string → Prop) `{!∀ x, Decision (P x)} (X : gset string) :
  (if decide (size (filter P X) = size X) then X else filter P X) = filter P X.
Proof.
  case_decide as Hsize; [|done].
  symmetry. apply set_subseteq_size_eq; [|lia].
  intros x. rewrite elem_of_filter. tauto.
Qed.

Lemma commitEvents_null mutator options s :
  mutator (S.events s) = None →
  commitEvents mutator options s
  = if truthy (resetAnchor options) then setSelectionAnchor None s else s.
Proof. intros H. unfold commitEvents. by rewrite H. Qed.

Lemma commitEvents_some mutator options s m :
  mutator (S.events s) = Some m →
  let s' := commitEvents mutator options s in
  S.events s' = recomputeTimeline (next m)
  ∧ S.isDirty s' = true
  ∧ S.selectedIds s' = selection_after m (S.selectedIds s)
  ∧ (trackHistory options ≠ Some false →
     S.history s' = push_limited (S.history s) (S.events s)
     ∧ S.future s' = [])
  ∧ S.initialEvents s' = S.initialEvents s
  ∧ S.baseTime s' = S.baseTime s
  ∧ S.fileName s' = S.fileName s
  ∧ S.loading s' = S.loading s
  ∧ S.error s' = S.error s.
Proof.
  intros H. unfold commitEvents. rewrite H. cbn zeta.
  unfold selection_after.
  destruct (decide (trackHistory options ≠ Some false)) as [Ht|Ht];
    destruct (truthy (resetAnchor options)
              || match selectionOverride m with
                 | Some override => bool_decide (size override = 0%nat)
                 | None => false
                 end);
    destruct (selectionOverride m) as [override|];
    cbn; rewrite ?filter_size_eq; repeat split; try done;
    intros; done.
Qed.

(** *** Commands that edit the sequence through [commitEvents] *)

Lemma commitEvents_outcome mutator options s :
  trackHistory options ≠ Some false →
  edit_outcome s (commitEvents mutator options s).
Proof.
  intros Ht. destruct (mutator (S.events s)) as [m|] eqn:Hm.
  - destruct (commitEvents_some mutator options s m Hm)
      as (He & Hd & Hsel & Hh & _).
    destruct (Hh Ht) as [Hh1 Hh2]. by eapply edit_commit.
  - rewrite commitEvents_null by done.
    destruct (truthy _); by apply edit_noop.
Qed.

Lemma applyToSelection_outcome updater s :
  edit_outcome s (applyToSelection updater s).
Proof.
  unfold applyToSelection. case_decide; [by apply edit_noop|].
  by apply commitEvents_outcome.
Qed.

(** Moving an outcome across changes of cells it does not mention. *)
Lemma edit_outcome_frame s0 s s1 s' :
  S.events s = S.events s0 → S.history s = S.history s0 →
  S.future s = S.future s0 → S.selectedIds s = S.selectedIds s0 →
  S.isDirty s = S.isDirty s0 →
  S.events s' = S.events s1 → S.history s' = S.history s1 →
  S.future s' = S.future s1 → S.selectedIds s' = S.selectedIds s1 →
  S.isDirty s' = S.isDirty s1 →
  edit_outcome s s1 → edit_outcome s0 s'.
Proof.
  intros E1 E2 E3 E4 E5 F1 F2 F3 F4 F5 [? ? ? ? ?|m ? ? ? ? ?].
  - apply edit_noop; congruence.
  - apply (edit_commit _ _ m); congruence.
Qed.

Lemma edit_outcome_exec c s : is_edit c = true → edit_outcome s (exec c s).
Proof.
  destruct c; try discriminate; intros _; cbn [exec].
  - unfold mergeFile. destruct (RecParser.parseRec _) as [message|parsed].
    + by apply edit_noop.
    + unfold insertEvents.
      match goal with
      | |- edit_outcome _ (setLoading false (commitEvents ?m ?o ?s1)) =>
          pose proof (commitEvents_outcome m o s1 ltac:(done)) as Ho
      end.
      refine (edit_outcome_frame _ _ _ _ _ _ _ _ _ _ _ _ _ _ Ho); done.
  - by apply commitEvents_outcome.
  - by apply commitEvents_outcome.
  - by apply commitEvents_outcome.
  - apply applyToSelection_outcome.
  - apply applyToSelection_outcome.
  - apply applyToSelection_outcome.
  - unfold deleteSelected. case_decide; [by apply edit_noop|].
    by apply commitEvents_outcome.
Qed.

(** *** Every command leaves the sequence or installs a normalised one *)

Lemma exec_events c s :
  S.events (exec c s) = S.events s
  ∨ ∃ l, S.events (exec c s) = recomputeTimeline l.
Proof.
  destruct (is_edit c) eqn:Hedit.
  { destruct (edit_outcome_exec c s Hedit) as [? ? ? ? ?|m ? ? ? ? ?]; eauto. }
  destruct c; try discriminate Hedit; cbn [exec].
  - unfold loadFile. destruct (RecParser.parseRec _); cbn; eauto.
  - unfold resetChanges. case_decide; cbn; eauto.
  - unfold toggleSelection.
    destruct (_ && _); [destruct (S.selectionAnchor s)|]; cbn; eauto.
  - cbn; eauto.
  - cbn; eauto.
  - unfold undo. destruct (last _); cbn; eauto.
  - unfold redo. destruct (last _); cbn; eauto.
Qed.

Lemma exec_normalized c s :
  normalized (S.events s) → normalized (S.events (exec c s)).
Proof.
  intros Hn. destruct (exec_events c s) as [->|[l ->]];
    [done|apply normalized_recompute].
Qed.

Lemma run_cons c cs s : run (c :: cs) s = run cs (exec c s).
Proof. done. Qed.

Lemma run_normalized cs : ∀ s,
  normalized (S.events s) → normalized (S.events (run cs s)).
Proof.
  induction cs as [|c cs IH]; intros s Hn; [done|].
  rewrite run_cons. by apply IH, exec_normalized.
Qed.

Lemma initial_normalized : normalized (S.events initial).
Proof. done. Qed.

(** *** The bounded stacks *)

Lemma push_limited_drop stack snapshot :
  ∃ d, (d ≤ 1)%nat
       ∧ (d ≤ length stack + 1 - HISTORY_LIMIT)%nat
       ∧ push_limited stack snapshot = drop d (stack ++ [snapshot]).
Proof.
  unfold push_limited. rewrite length_app. cbn [length].
  case_decide.
  - exists 1%nat. split; [lia|]. split; [lia|].
    generalize (stack ++ [snapshot]). intros [|? ?]; reflexivity.
  - exists 0%nat. split; [lia|]. split; [lia|done].
Qed.

Lemma drop_app_inside {A} (d : nat) (l1 l2 : list A) :
  (d ≤ length l1)%nat → drop d l1 ++ l2 = drop d (l1 ++ l2).
Proof. intros Hd. rewrite drop_app. replace (d - length l1)%nat with 0%nat by lia. done. Qed.

Lemma redo_swap s : redo s = swap_stacks (undo (swap_stacks s)).
Proof.
  unfold redo, undo, swap_stacks. cbn.
  destruct (last (S.future s)); [done|by destruct s].
Qed.

Lemma swap_stacks_involutive s : swap_stacks (swap_stacks s) = s.
Proof. by destruct s. Qed.

Lemma redo_iter_swap n s :
  Nat.iter n redo s = swap_stacks (Nat.iter n undo (swap_stacks s)).
Proof.
  induction n as [|n IH].
  - simpl. by rewrite swap_stacks_involutive.
  - by rewrite !Nat.iter_succ, IH, redo_swap, swap_stacks_involutive.
Qed.

Lemma undo_empty s : S.history s = [] → undo s = s.
Proof. intros H. unfold undo. by rewrite H. Qed.

Lemma undo_step s stack snapshot :
  S.history s = stack ++ [snapshot] → normalized snapshot →
  S.events (undo s) = snapshot
  ∧ S.history (undo s) = stack
  ∧ S.future (undo s) = push_limited (S.future s) (S.events s).
Proof.
  intros H Hn. unfold undo. rewrite H, last_snoc. cbn.
  by rewrite removelast_last.
Qed.

(** Undoing as many times as there are snapshots on top of [stack]. *)
Lemma undo_iter snapshots : ∀ s stack,
  S.history s = stack ++ snapshots →
  Forall normalized snapshots →
  let u := Nat.iter (length snapshots) undo s in
  S.history u = stack
  ∧ S.events u = hd (S.events s) snapshots
  ∧ ∃ k, (k ≤ length (S.future s) + length snapshots - HISTORY_LIMIT)%nat
         ∧ S.future u
           = drop k (S.future s ++ rev (tail (snapshots ++ [S.events s]))).
Proof.
  induction snapshots as [|x snapshots IH] using rev_ind;
    intros s stack Hh Hn; cbn zeta.
  - cbn. rewrite app_nil_r in *. repeat split; [done|].
    exists 0%nat. split; [lia|done].
  - apply Forall_app in Hn as [Hn Hx]. rewrite Forall_singleton in Hx.
    rewrite length_app. cbn [length].
    replace (length snapshots + 1)%nat with (S (length snapshots)) by lia.
    rewrite Nat.iter_succ_r.
    rewrite app_assoc in Hh.
    destruct (undo_step s _ x Hh Hx) as (He1 & Hh1 & Hf1).
    destruct (IH (undo s) stack Hh1 Hn) as (Hhu & Heu & k & Hk & Hfu).
    split; [done|]. split.
    { rewrite Heu, He1. by destruct snapshots. }
    destruct (push_limited_drop (S.future s) (S.events s)) as (d & Hd1 & Hd & Hp).
    rewrite Hf1, Hp in Hfu, Hk.
    exists (d + k)%nat. split.
    { rewrite length_drop, length_app in Hk. cbn [length] in Hk. lia. }
    rewrite Hfu, He1.
    rewrite drop_app_inside by (rewrite length_app; cbn [length]; lia).
    rewrite drop_drop. f_equal. rewrite <- app_assoc. f_equal.
    replace (tail ((snapshots ++ [x]) ++ [S.events s]))
      with (tail (snapshots ++ [x]) ++ [S.events s])
      by (by destruct snapshots).
    by rewrite rev_app_distr.
Qed.

(** *** Mutations and the snapshots they leave *)

Lemma length_trace cs : ∀ s, length (trace cs s) = length cs.
Proof. induction cs; intros; cbn; [done|]. by rewrite IHcs. Qed.

Lemma mutation_step c s :
  is_edit c = true → S.events (exec c s) ≠ S.events s →
  S.history (exec c s) = push_limited (S.history s) (S.events s)
  ∧ S.future (exec c s) = [].
Proof.
  intros Hedit Hneq.
  by destruct (edit_outcome_exec c s Hedit) as [? ? ? ? ?|m ? ? ? ? ?].
Qed.

Lemma trace_normalized cs : ∀ s,
  normalized (S.events s) → Forall normalized (trace cs s).
Proof.
  induction cs as [|c cs IH]; intros s Hn; cbn; [done|].
  constructor; [done|]. by apply IH, exec_normalized.
Qed.

Lemma mutations_stacks cs : ∀ s,
  mutations cs s →
  (∃ k, (k ≤ length (S.history s) + length cs - HISTORY_LIMIT)%nat
        ∧ S.history (run cs s) = drop k (S.history s ++ trace cs s))
  ∧ (cs ≠ [] → S.future (run cs s) = []).
Proof.
  induction cs as [|c cs IH]; intros s Hm.
  - split; [|done]. exists 0%nat. split; [lia|]. cbn. by rewrite app_nil_r.
  - destruct Hm as (Hedit & Hneq & Hm).
    destruct (mutation_step c s Hedit Hneq) as [Hh Hf].
    destruct (IH _ Hm) as [(k & Hk & Hrun) Hfut].
    destruct (push_limited_drop (S.history s) (S.events s)) as (d & Hd1 & Hd & Hp).
    rewrite run_cons. cbn [trace length]. split.
    + exists (d + k)%nat. rewrite Hh, Hp in Hrun, Hk. split.
      { rewrite length_drop, length_app in Hk. cbn [length] in Hk. lia. }
      rewrite Hrun.
      rewrite drop_app_inside by (rewrite length_app; cbn [length]; lia).
      rewrite drop_drop. by rewrite <- app_assoc.
    + intros _. destruct cs as [|c' cs]; [done|]. by apply Hfut.
Qed.

Lemma trace_hd cs s : hd (S.events (run cs s)) (trace cs s) = S.events s.
Proof. by destruct cs. Qed.

(** Undoing all of a run of at most [HISTORY_LIMIT] mutations, then
    redoing as many. *)
Lemma undo_redo_run cs s :
  normalized (S.events s) →
  mutations cs s →
  (length cs ≤ HISTORY_LIMIT)%nat →
  let n := length cs in
  S.events (Nat.iter n undo (run cs s)) = S.events s
  ∧ S.events (Nat.iter n redo (Nat.iter n undo (run cs s)))
    = S.events (run cs s).
Proof.
  intros Hn Hm Hlen n. subst n.
  destruct (mutations_stacks cs s Hm) as [(k & Hk & Hh) Hfut].
  rewrite <- drop_app_inside in Hh by lia.
  pose proof (trace_normalized cs s Hn) as Hsnaps.
  pose proof (undo_iter (trace cs s) (run cs s) _ Hh Hsnaps) as Hu.
  rewrite length_trace in Hu. cbn zeta in Hu.
  destruct Hu as (Hhu & Heu & k' & Hk' & Hfu).
  rewrite trace_hd in Heu. split; [done|].
  destruct cs as [|c cs]; [done|].
  rewrite Hfut in Hfu, Hk' by done.
  replace k' with 0%nat in Hfu by (cbn [length] in *; lia).
  cbn [app drop] in Hfu.
  set (u := Nat.iter (length (c :: cs)) undo (run (c :: cs) s)) in *.
  rewrite redo_iter_swap.
  set (snaps := rev (tail (trace (c :: cs) s ++ [S.events (run (c :: cs) s)]))) in *.
  assert (length snaps = length (c :: cs)) as Hls.
  { subst snaps. rewrite length_rev. cbn [trace app tail].
    rewrite length_app, length_trace. cbn [length]. lia. }
  assert (Forall normalized snaps) as Hns.
  { subst snaps. apply Forall_rev. cbn [trace app tail].
    apply Forall_app. split.
    - apply trace_normalized. by apply exec_normalized.
    - apply Forall_singleton. by apply run_normalized. }
  pose proof (undo_iter snaps (swap_stacks u) [] Hfu Hns) as Hr.
  rewrite Hls in Hr. cbn zeta in Hr. destruct Hr as (_ & Her & _).
  change (S.events (swap_stacks (Nat.iter (length (c :: cs)) undo (swap_stacks u))))
    with (S.events (Nat.iter (length (c :: cs)) undo (swap_stacks u))).
  rewrite Her. subst snaps. cbn [trace app tail].
  rewrite rev_app_distr. done.
Qed.

(** *** Selection *)

Lemma elem_of_event_ids x events :
  x ∈ event_ids events ↔ ∃ e, e ∈ events ∧ EditorEvent.id e = x.
Proof.
  unfold event_ids. rewrite elem_of_list_to_set, list_elem_of_In, in_map_iff.
  split; intros (e & H1 & H2); exists e; by rewrite ?list_elem_of_In in *.
Qed.

Lemma selection_after_subseteq m prior :
  selection_after m prior ⊆ event_ids (recomputeTimeline (next m)).
Proof. unfold selection_after. intros x. rewrite elem_of_filter. tauto. Qed.

Lemma toggle_range_subseteq events cursors : ∀ start : gset string,
  start ⊆ event_ids events →
  foldl (fun (next : gset string) cursor =>
           match events !! Z.to_nat cursor with
           | Some entry => {[EditorEvent.id entry]} ∪ next
           | None => next
           end) start cursors
  ⊆ event_ids events.
Proof.
  induction cursors as [|cursor cursors IH]; intros start Hs; [done|].
  cbn [foldl]. apply IH.
  destruct (events !! Z.to_nat cursor) as [entry|] eqn:He; [|done].
  apply union_least; [|done].
  apply singleton_subseteq_l, elem_of_event_ids.
  exists entry. split; [|done]. by eapply list_elem_of_lookup_2.
Qed.

(** Reading a cell after a sequence of setters. *)
Ltac cells :=
  cbn [S.events S.initialEvents S.baseTime S.fileName S.loading S.error
       S.isDirty S.selectedIds S.selectionAnchor S.history S.future
       setEvents setInitialEvents setBaseTime setFileName setLoading setError
       setIsDirty setSelectedIds setSelectionAnchor setHistory setFuture
       selectAll clearSelection fst snd].

Lemma exec_selection_ok c s :
  well_called c s → selection_ok s → selection_ok (exec c s).
Proof.
  unfold selection_ok. intros Hc Hs.
  destruct (is_edit c) eqn:Hedit.
  { destruct (edit_outcome_exec c s Hedit) as [He _ _ Hsel _|m He _ _ Hsel _];
      rewrite He, Hsel; [done|apply selection_after_subseteq]. }
  destruct c; try discriminate Hedit; cbn [exec].
  - unfold loadFile. destruct (RecParser.parseRec _); cells;
      [done|apply empty_subseteq].
  - unfold resetChanges. case_decide; cells; [done|apply empty_subseteq].
  - unfold toggleSelection. cbn [well_called] in Hc.
    destruct (_ && _).
    + destruct (S.selectionAnchor s); cells;
        (apply toggle_range_subseteq; destruct meta;
         [done|apply empty_subseteq]).
    + cells. case_decide.
      * etrans; [apply subseteq_difference_l|]; done.
      * apply union_least; [by apply singleton_subseteq_l|done].
  - cells. done.
  - cells. apply empty_subseteq.
  - unfold undo. cbv zeta. destruct (last _); cells; [apply empty_subseteq|done].
  - unfold redo. cbv zeta. destruct (last _); cells; [apply empty_subseteq|done].
Qed.

Lemma run_selection_ok cs : ∀ s,
  well_called_run cs s → selection_ok s → selection_ok (run cs s).
Proof.
  induction cs as [|c cs IH]; intros s Hc Hs; [done|].
  destruct Hc as [Hc Hcs]. rewrite run_cons. by apply IH, exec_selection_ok.
Qed.

Lemma removeEvent_present id s :
  id ∈ event_ids (S.events s) →
  S.events (removeEvent id s)
  = recomputeTimeline
      (List.filter (fun event => negb (String.eqb (EditorEvent.id event) id))
         (S.events s))
  ∧ S.selectedIds (removeEvent id s)
    = filter (fun x => x ∈ event_ids (S.events s) ∧ x ≠ id) (S.selectedIds s).
Proof.
  intros Hin. unfold removeEvent.
  set (mutator := fun current : list EditorEvent.t => _).
  assert (mutator (S.events s)
          = Some (mkMutation
                    (List.filter
                       (fun event => negb (String.eqb (EditorEvent.id event) id))
                       (S.events s)) None)) as Hm.
  { subst mutator. cbn beta.
    assert (existsb (fun event => String.eqb (EditorEvent.id event) id)
              (S.events s) = true) as ->; [|done].
    apply existsb_exists. apply elem_of_event_ids in Hin as (e & He & Hid).
    exists e. split; [by apply list_elem_of_In|]. by apply String.eqb_eq. }
  destruct (commitEvents_some mutator no_options s _ Hm) as (He & _ & Hsel & _).
  split; [done|]. rewrite Hsel. unfold selection_after. cbn [next selectionOverride default].
  apply set_eq. intros x. rewrite !elem_of_filter.
  rewrite event_ids_recompute, !elem_of_event_ids.
  split.
  - intros [(e & He' & Hid) Hx]. split; [|done].
    apply list_elem_of_In, filter_In in He' as [He' Hne].
    apply negb_true_iff, String.eqb_neq in Hne. split; [|congruence].
    exists e. by rewrite list_elem_of_In.
  - intros [[(e & He' & Hid) Hne] Hx]. split; [|done].
    exists e. split; [|done]. apply list_elem_of_In, filter_In.
    split; [by apply list_elem_of_In|].
    apply negb_true_iff, String.eqb_neq. congruence.
Qed.

(** *** Reading the normaliser's output by position *)

Lemma recompute_from_lookup events : ∀ index elapsed i e',
  recompute_from index elapsed events !! i = Some e' →
  ∃ ev, events !! i = Some ev
        ∧ EditorEvent.id e' = EditorEvent.id ev
        ∧ EditorEvent.delay e'
          = if decide (index + i = 0)%nat then JS.Int 0
            else sanitizeDelay (EditorEvent.delay ev).
Proof.
  induction events as [|event rest IH]; intros index elapsed i e' He; [done|].
  cbn [recompute_from] in He. destruct i as [|i].
  - exists event. split; [done|].
    destruct (decide (index = 0%nat)) as [->|Hne]; cbn in He; simplify_eq; cbn.
    + done.
    + split; [done|]. rewrite decide_False by lia. done.
  - destruct (decide (index = 0%nat)) as [->|Hne]; cbn in He;
      apply IH in He as (ev & Hev & Hid & Hd); exists ev;
      (split; [done|]); (split; [done|]);
      rewrite Hd; rewrite !decide_False by lia; done.
Qed.

Lemma recompute_from_take l1 l2 : ∀ index elapsed,
  take (length l1) (recompute_from index elapsed (l1 ++ l2))
  = recompute_from index elapsed l1.
Proof.
  induction l1 as [|event rest IH]; intros index elapsed; [done|].
  cbn [app recompute_from length]. case_decide; cbn [take]; by rewrite IH.
Qed.

(** *** [updateDelay] *)

Lemma strict_eq_refl_Int z : JS.strict_eq (JS.Int z) (JS.Int z) = true.
Proof. unfold JS.strict_eq, JS.Int. apply Qeq_bool_iff. reflexivity. Qed.

Lemma sanitizeDelay_strict_eq d z :
  JS.strict_eq d (JS.Int z) = true → 0 ≤ z ≤ UINT32_MAX - 1 →
  sanitizeDelay d = JS.Int z.
Proof.
  intros Heq Hz. destruct d as [| | |q]; try done.
  unfold JS.strict_eq, JS.Int in Heq. apply Qeq_bool_iff in Heq.
  rewrite <- (sanitizeDelay_Int z Hz).
  unfold sanitizeDelay. cbn [JS.isFinite negb orb].
  assert (JS.lt (JS.Fin q) (JS.Int 0) = JS.lt (JS.Int z) (JS.Int 0)) as ->.
  { unfold JS.lt, JS.Int. f_equal.
    apply eq_true_iff_eq. rewrite !Qle_bool_iff. by rewrite Heq. }
  assert (JS.Math_round (JS.Fin q) = JS.Math_round (JS.Int z)) as ->; [|done].
  unfold JS.Math_round, JS.Int. do 2 f_equal. apply Qfloor_comp. by rewrite Heq.
Qed.

Lemma updateDelay_unfold id value s :
  updateDelay id value s
  = commitEvents
      (fun current =>
         if negb (existsb snd (map (update_one id (sanitizeDelay value)) current))
         then None
         else Some (mkMutation
                      (map fst (map (update_one id (sanitizeDelay value)) current))
                      None))
      no_options s.
Proof. reflexivity. Qed.

Lemma update_one_unchanged id normalized events :
  existsb snd (map (update_one id normalized) events) = false ↔
  ∀ e, e ∈ events → EditorEvent.id e = id →
       JS.strict_eq (EditorEvent.delay e) normalized = true.
Proof.
  induction events as [|event rest IH]; cbn [map existsb].
  - split; [|done]. intros _ e He. by apply elem_of_nil in He.
  - rewrite orb_false_iff, IH. split.
    + intros [H1 H2] e He Hid. apply elem_of_cons in He as [->|He]; [|by apply H2].
      unfold update_one in H1. rewrite Hid, String.eqb_refl in H1. cbn in H1.
      by destruct (JS.strict_eq _ _).
    + intros H. split; [|intros e He; apply H; by right].
      unfold update_one. destruct (String.eqb _ id) eqn:E; [|done]. cbn.
      apply String.eqb_eq in E. rewrite (H event); [done|by left|done].
Qed.

Lemma updateDelay_noop id value s :
  (∀ e, e ∈ S.events s → EditorEvent.id e = id →
        JS.strict_eq (EditorEvent.delay e) (sanitizeDelay value) = true) →
  updateDelay id value s = s.
Proof.
  intros H. rewrite updateDelay_unfold, commitEvents_null; [done|].
  apply update_one_unchanged in H. by rewrite H.
Qed.

Lemma updateDelay_commit id value s :
  existsb snd (map (update_one id (sanitizeDelay value)) (S.events s)) = true →
  S.events (updateDelay id value s)
  = recomputeTimeline
      (map fst (map (update_one id (sanitizeDelay value)) (S.events s)))
  ∧ S.history (updateDelay id value s) = push_limited (S.history s) (S.events s)
  ∧ S.future (updateDelay id value s) = []
  ∧ S.isDirty (updateDelay id value s) = true.
Proof.
  intros H. rewrite updateDelay_unfold.
  match goal with
  | |- context [commitEvents ?m ?o ?s] =>
      destruct (commitEvents_some m o s
                  (mkMutation
                     (map fst (map (update_one id (sanitizeDelay value)) (S.events s)))
                     None))
        as (He & Hd & _ & Hh & _)
  end.
  { cbn beta. by rewrite H. }
  destruct Hh as [Hh Hf]; [done|]. done.
Qed.

Lemma lookup_map {A B} (f : A → B) (l : list A) i :
  map f l !! i = f <$> l !! i.
Proof. revert i. induction l; intros [|i]; cbn; auto. Qed.

Lemma updateDelay_delay id value s i e :
  (0 < i)%nat →
  S.events (updateDelay id value s) !! i = Some e →
  EditorEvent.id e = id →
  JS.strict_eq (EditorEvent.delay e) (sanitizeDelay value) = true.
Proof.
  intros Hi He Hid.
  destruct (existsb snd (map (update_one id (sanitizeDelay value)) (S.events s)))
    eqn:Hchange.
  - destruct (updateDelay_commit id value s Hchange) as (Hev & _).
    rewrite Hev in He. apply recompute_from_lookup in He as (ev' & Hl & Hid' & Hd).
    rewrite decide_False in Hd by lia.
    rewrite !lookup_map in Hl.
    destruct (S.events s !! i) as [ev|] eqn:Hs; [|done]. cbn in Hl.
    injection Hl as <-.
    destruct (sanitizeDelay_range value) as (z & Hz & Hr). rewrite Hz in *.
    unfold update_one in *.
    destruct (String.eqb (EditorEvent.id ev) id) eqn:E; cbn in *.
    + destruct (JS.strict_eq (EditorEvent.delay ev) (JS.Int z)) eqn:E2; cbn in *.
      * rewrite Hd, (sanitizeDelay_strict_eq _ z E2 Hr). apply strict_eq_refl_Int.
      * rewrite Hd, sanitizeDelay_Int by done. apply strict_eq_refl_Int.
    + apply String.eqb_neq in E. congruence.
  - pose proof Hchange as Hall. rewrite update_one_unchanged in Hall.
    rewrite updateDelay_noop in He by done.
    apply Hall; [|done]. by eapply list_elem_of_lookup_2.
Qed.

(** *** Identifiers *)

Lemma pretty_N_go_no_n x : ∀ s,
  ¬ starts_with_n s → ¬ starts_with_n (pretty_N_go x s).
Proof.
  induction (N.lt_wf_0 x) as [x _ IH]. intros s Hs.
  assert (x = 0 ∨ 0 < x)%N as [->|Hx] by lia.
  - by rewrite pretty_N_go_0.
  - rewrite pretty_N_go_step by done. apply IH.
    { by apply N.div_lt. }
    intros [t Ht]. unfold pretty_N_char in Ht. by repeat case_match.
Qed.

Lemma pretty_nat_no_n (n : nat) : ¬ starts_with_n (pretty n).
Proof.
  unfold pretty, pretty_nat, pretty, pretty_N. case_decide.
  - by intros [t Ht].
  - apply pretty_N_go_no_n. by intros [t Ht].
Qed.

(** An id made by [insertEvents] is never an id made by
    [createEditorEvents]: the former starts with the letter n, the latter
    with a digit of the index. *)
Lemma new_id_parsed_id clock random i index event :
  new_id clock random i ≠ parsed_id index event.
Proof.
  unfold new_id, parsed_id. intros H.
  pose proof (pretty_nat_no_n index) as Hn.
  destruct (pretty index) as [|c t] eqn:E.
  - cbn in H. discriminate.
  - cbn in H. injection H as <- _. apply Hn. by eexists.
Qed.

(** *** [loadFile] and [mergeFile] *)

Lemma parseRec_bad_length buffer :
  (length buffer `mod` RecParser.RECORD_BYTE_LENGTH ≠ 0)%nat →
  RecParser.parseRec buffer = inl (RecParser.size_error (length buffer)).
Proof.
  intros H. unfold RecParser.parseRec.
  rewrite decide_False; [by rewrite decide_True|].
  intros H0. rewrite H0 in H. by apply H.
Qed.

Lemma insertEvents_at_end clock random newEvents delayTotal s :
  let added :=
    imap (fun i e =>
            EditorEvent.mk (new_id clock random i)
              (t_message e) (t_paramL e) (t_paramH e)
              (if decide (i = 0%nat) then delayTotal
               else default (JS.Int 0) (t_delay e))
              (JS.Int 0) (t_hwnd e))
         newEvents in
  let s' :=
    insertEvents clock random (Z.of_nat (length (S.events s))) newEvents
      delayTotal s in
  S.events s' = recomputeTimeline (S.events s ++ added)
  ∧ S.history s' = push_limited (S.history s) (S.events s)
  ∧ S.future s' = []
  ∧ S.error s' = S.error s
  ∧ S.loading s' = S.loading s.
Proof.
  intros added s'. subst s'. unfold insertEvents.
  match goal with
  | |- context [commitEvents ?m ?o ?s] =>
      destruct (commitEvents_some m o s (mkMutation (S.events s ++ added) None))
        as (He & _ & _ & Hh & _ & _ & _ & Hl & Herr)
  end.
  { cbn beta. do 2 f_equal.
    replace (Z.to_nat (Z.max 0 (Z.min (Z.of_nat (length (S.events s)))
                                  (Z.of_nat (length (S.events s))))))
      with (length (S.events s)) by lia.
    rewrite firstn_all, drop_all. by rewrite app_nil_r. }
  destruct Hh as [Hh Hf]; [done|]. done.
Qed.

Lemma mergeFile_ok clock random file s parsed :
  RecParser.parseRec (arrayBuffer file) = inr parsed →
  let added :=
    imap (fun i e =>
            EditorEvent.mk (new_id clock random i)
              (t_message e) (t_paramL e) (t_paramH e)
              (if decide (i = 0%nat) then JS.Int 0
               else default (JS.Int 0) (t_delay e))
              (JS.Int 0) (t_hwnd e))
         (map as_template (createEditorEvents (RecParser.events parsed))) in
  let s' := mergeFile clock random file s in
  S.events s' = recomputeTimeline (S.events s ++ added)
  ∧ S.history s' = push_limited (S.history s) (S.events s)
  ∧ S.future s' = [].
Proof.
  intros Hp added s'. subst s'. unfold mergeFile. rewrite Hp.
  destruct (insertEvents_at_end clock random
              (map as_template (createEditorEvents (RecParser.events parsed)))
              (JS.Int 0) (setLoading true (setError None s)))
    as (He & Hh & Hf & _).
  cells. cbn [S.events S.history setLoading setError] in He, Hh. done.
Qed.

Lemma length_createEditorEvents events :
  length (createEditorEvents events) = length events.
Proof. unfold createEditorEvents. apply length_imap. Qed.

(** *** The error cell *)

Lemma commitEvents_error mutator options s :
  S.error (commitEvents mutator options s) = S.error s.
Proof.
  destruct (mutator (S.events s)) as [m|] eqn:Hm.
  - by destruct (commitEvents_some mutator options s m Hm)
      as (_ & _ & _ & _ & _ & _ & _ & _ & ?).
  - rewrite commitEvents_null by done. by destruct (truthy _).
Qed.

Lemma exec_error c s : reads_file c = false → S.error (exec c s) = S.error s.
Proof.
  intros Hc. destruct c; try discriminate Hc; cbn [exec].
  - apply commitEvents_error.
  - apply commitEvents_error.
  - apply commitEvents_error.
  - unfold resetChanges. by case_decide.
  - unfold toggleSelection.
    destruct (_ && _); [by destruct (S.selectionAnchor s)|done].
  - done.
  - done.
  - unfold applyDelayToSelection, applyToSelection.
    case_decide; [done|apply commitEvents_error].
  - unfold addDelayToSelection, applyToSelection.
    case_decide; [done|apply commitEvents_error].
  - unfold clampSmallDelays, applyToSelection.
    case_decide; [done|apply commitEvents_error].
  - unfold deleteSelected. case_decide; [done|apply commitEvents_error].
  - unfold undo. cbv zeta. by destruct (last _).
  - unfold redo. cbv zeta. by destruct (last _).
Qed.

Lemma loadFile_bad_length file s :
  (length (arrayBuffer file) `mod` RecParser.RECORD_BYTE_LENGTH ≠ 0)%nat →
  loadFile file s
  = (setLoading false
       (setError (Some (RecParser.size_error (length (arrayBuffer file)))) s),
     None).
Proof.
  intros H. unfold loadFile. rewrite parseRec_bad_length by done. by destruct s.
Qed.

Lemma mergeFile_bad_length clock random file s :
  (length (arrayBuffer file) `mod` RecParser.RECORD_BYTE_LENGTH ≠ 0)%nat →
  mergeFile clock random file s
  = setLoading false
      (setError (Some (RecParser.size_error (length (arrayBuffer file)))) s).
Proof.
  intros H. unfold mergeFile. rewrite parseRec_bad_length by done. by destruct s.
Qed.

(** *** Snapshots are normalised sequences *)

Lemma push_limited_normalized stack snapshot :
  Forall normalized stack → normalized snapshot →
  Forall normalized (push_limited stack snapshot).
Proof.
  intros Hs Hn.
  destruct (push_limited_drop stack snapshot) as (d & _ & _ & ->).
  apply Forall_drop, Forall_app. split; [done|]. by constructor.
Qed.

Lemma removelast_normalized (stack : list (list EditorEvent.t)) :
  Forall normalized stack → Forall normalized (removelast stack).
Proof.
  intros H. destruct stack as [|x stack] using rev_ind; [done|].
  rewrite removelast_last. by apply Forall_app in H as [H _].
Qed.

Lemma exec_stacks_normalized c s :
  stacks_normalized s → stacks_normalized (exec c s).
Proof.
  intros (He & Hh & Hf).
  split; [by apply exec_normalized|].
  destruct (is_edit c) eqn:Hedit.
  { destruct (edit_outcome_exec c s Hedit) as [_ E1 E2 _ _|m _ E1 E2 _ _];
      rewrite E1, E2; [done|].
    split; [by apply push_limited_normalized|done]. }
  destruct c; try discriminate Hedit; cbn [exec].
  - unfold loadFile. by destruct (RecParser.parseRec _).
  - unfold resetChanges. by case_decide.
  - unfold toggleSelection.
    destruct (_ && _); [by destruct (S.selectionAnchor s)|done].
  - done.
  - done.
  - unfold undo. cbv zeta. destruct (last _) eqn:El; [|done]. cells.
    split; [by apply removelast_normalized|by apply push_limited_normalized].
  - unfold redo. cbv zeta. destruct (last _) eqn:El; [|done]. cells.
    split; [by apply push_limited_normalized|by apply removelast_normalized].
Qed.

Lemma run_stacks_normalized cs : ∀ s,
  stacks_normalized s → stacks_normalized (run cs s).
Proof.
  induction cs as [|c cs IH]; intros s Hs; [done|].
  rewrite run_cons. by apply IH, exec_stacks_normalized.
Qed.

Lemma initial_stacks_normalized : stacks_normalized initial.
Proof. by repeat split. Qed.

(** *** What a merge appends *)

Lemma mergeFile_lookup_added clock random file s parsed i e :
  RecParser.parseRec (arrayBuffer file) = inr parsed →
  S.events (mergeFile clock random file s) !! (length (S.events s) + i)%nat
    = Some e →
  EditorEvent.id e = new_id clock random i
  ∧ (i = 0%nat → EditorEvent.delay e = JS.Int 0).
Proof.
  intros Hp He.
  destruct (mergeFile_ok clock random file s parsed Hp) as (Hev & _).
  cbv zeta in Hev. rewrite Hev in He.
  apply recompute_from_lookup in He as (ev & Hl & Hid & Hd).
  rewrite lookup_app_r in Hl by lia.
  replace (length (S.events s) + i - length (S.events s))%nat with i in Hl by lia.
  rewrite list_lookup_imap in Hl.
  destruct (_ !! i) as [t|]; [|done]. cbn in Hl. injection Hl as <-.
  cbn in Hid, Hd. split; [done|]. intros ->.
  rewrite Hd. cbn. case_decide; [done|].
  apply sanitizeDelay_Int. unfold UINT32_MAX. lia.
Qed.

Lemma mergeFile_length clock random file s parsed :
  RecParser.parseRec (arrayBuffer file) = inr parsed →
  length (S.events (mergeFile clock random file s))
  = (length (S.events s) + length (RecParser.events parsed))%nat.
Proof.
  intros Hp. destruct (mergeFile_ok clock random file s parsed Hp) as (Hev & _).
  cbv zeta in Hev. rewrite Hev, length_recomputeTimeline, length_app.
  by rewrite length_imap, length_map, length_createEditorEvents.
Qed.

Lemma mergeFile_prefix clock random file s parsed :
  RecParser.parseRec (arrayBuffer file) = inr parsed →
  normalized (S.events s) →
  take (length (S.events s)) (S.events (mergeFile clock random file s))
  = S.events s.
Proof.
  intros Hp Hn. destruct (mergeFile_ok clock random file s parsed Hp) as (Hev & _).
  cbv zeta in Hev. rewrite Hev. unfold recomputeTimeline.
  rewrite recompute_from_take. apply Hn.
Qed.

End EditorFacts.

(** * Further properties of the codec *)

Module CodecMore.
Import DataView RecParser CodecSpec CodecFacts Layout.

(** *** [toUint32] and [diffUint32] as arithmetic modulo 2^32 *)

Lemma wrap_twice n :
  ((n `rem` UINT32_MAX) + UINT32_MAX) `rem` UINT32_MAX = n `mod` UINT32_MAX.
Proof.
  unfold UINT32_MAX.
  pose proof (Z.rem_bound_abs n 4294967296 ltac:(lia)).
  pose proof (Z.quot_rem' n 4294967296) as Hq.
  assert (- 4294967296 < n `rem` 4294967296 < 4294967296) by lia.
  rewrite Z.rem_mod_nonneg by lia.
  rewrite Hq at 2.
  rewrite (Z.add_comm (4294967296 * _)), Z.mul_comm, Z.mod_add by lia.
  by rewrite <- (Z.mod_add (n `rem` 4294967296) 1 4294967296) by lia.
Qed.

Lemma toUint32_Fin q : toUint32 (JS.Fin q) = JS.trunc q `mod` UINT32_MAX.
Proof. apply wrap_twice. Qed.

Lemma diffUint32_mod current previous :
  - UINT32_MAX ≤ current - previous →
  diffUint32 current previous = (current - previous) `mod` UINT32_MAX.
Proof.
  intros H. unfold diffUint32, UINT32_MAX in *.
  rewrite Z.rem_mod_nonneg by lia.
  rewrite <- (Z.mod_add (current - previous) 1 4294967296) by lia.
  f_equal.
Qed.

(** *** The decoded events, read by position *)

Lemma getUint32_drop bytes k :
  (20 ≤ length bytes)%nat →
  getUint32 (drop 20 bytes) k = getUint32 bytes (20 + k).
Proof.
  intros H.
  assert (length (take 20 bytes) = 20%nat) as Hl by (rewrite length_take; lia).
  transitivity
    (getUint32 (take 20 bytes ++ drop 20 bytes) (length (take 20 bytes) + k)).
  - by rewrite getUint32_app.
  - by rewrite take_drop, Hl.
Qed.

Lemma decoded_events_lookup count : ∀ index pa pt bytes i e,
  length bytes = (count * 20)%nat →
  decoded_events count index pa pt bytes !! i = Some e →
  TinyTaskEvent.message e = getUint32 bytes (i * 20)
  ∧ TinyTaskEvent.paramL e = getUint32 bytes (i * 20 + 4)
  ∧ TinyTaskEvent.paramH e = getUint32 bytes (i * 20 + 8)
  ∧ TinyTaskEvent.hwnd e = getUint32 bytes (i * 20 + 16)
  ∧ TinyTaskEvent.delay e
    = if decide (index + i = 0)%nat then 0
      else diffUint32 (stored_time bytes i)
             (match i with O => pa | S j => stored_time bytes j end).
Proof.
  induction count as [|count IH]; intros index pa pt bytes i e Hlen He; [done|].
  cbn [decoded_events] in He. destruct i as [|i].
  - cbn in He. injection He as <-. cbn.
    repeat split. unfold stored_time. cbn.
    destruct (decide (index = 0%nat)) as [->|Hne]; [done|].
    by rewrite decide_False by lia.
  - cbn [lookup list_lookup] in He.
    change ((decoded_events count (S index) (getUint32 bytes 12)
               (if decide (index = 0%nat) then 0
                else pt + (if decide (index = 0%nat) then 0
                           else diffUint32 (getUint32 bytes 12) pa))
               (drop 20 bytes)) !! i = Some e) in He.
    apply IH in He as (H1 & H2 & H3 & H4 & H5);
      [|rewrite length_drop; lia].
    rewrite !getUint32_drop in * by lia.
    rewrite H1, H2, H3, H4, H5.
    replace (S i * 20)%nat with (20 + i * 20)%nat by lia.
    rewrite <- !Nat.add_assoc. repeat split.
    rewrite decide_False by lia. rewrite decide_False by lia.
    unfold stored_time. rewrite !getUint32_drop by lia.
    replace (S i * 20 + 12)%nat with (20 + (i * 20 + 12))%nat by lia.
    f_equal. destruct i as [|j]; [done|].
    by rewrite getUint32_drop by lia.
Qed.

Lemma diffUint32_range current previous :
  - UINT32_MAX ≤ current - previous →
  0 ≤ diffUint32 current previous < UINT32_MAX.
Proof.
  intros H. rewrite diffUint32_mod by done. apply Z.mod_pos_bound.
  unfold UINT32_MAX. lia.
Qed.

Lemma decoded_events_chain count : ∀ index pa pt bytes,
  0 ≤ pa < UINT32_MAX →
  tt_chain (if decide (index = 0%nat) then 0 else pt)
    (decoded_events count index pa pt bytes).
Proof.
  induction count as [|count IH]; intros index pa pt bytes Hpa; [done|].
  cbn [decoded_events tt_chain TinyTaskEvent.time TinyTaskEvent.delay].
  pose proof (getUint32_range bytes 12) as Hr.
  split; [by case_decide|]. split.
  - case_decide; [unfold UINT32_MAX; lia|].
    apply diffUint32_range. unfold UINT32_MAX in *. lia.
  - specialize (IH (S index) (getUint32 bytes 12)
                  (if decide (index = 0%nat) then 0
                   else pt + (if decide (index = 0%nat) then 0
                              else diffUint32 (getUint32 bytes 12) pa))
                  (drop 20 bytes)).
    rewrite decide_False in IH by lia. apply IH. unfold UINT32_MAX. lia.
Qed.

Lemma tt_chain_lookup events : ∀ previous,
  tt_chain previous events →
  ∀ i p e,
    (previous :: (TinyTaskEvent.time <$> events)) !! i = Some p →
    events !! i = Some e →
    TinyTaskEvent.time e = p + TinyTaskEvent.delay e
    ∧ 0 ≤ TinyTaskEvent.delay e < UINT32_MAX.
Proof.
  induction events as [|event rest IH]; intros previous Hc i p e Hp He; [done|].
  destruct Hc as (Ht & Hd & Hc). destruct i as [|i].
  - cbn in Hp, He. by simplify_eq.
  - cbn in Hp, He. by apply (IH _ Hc i).
Qed.

(** The last time is the sum of all delays. *)
Lemma tt_chain_last events : ∀ previous,
  tt_chain previous events →
  match last events with
  | Some e => TinyTaskEvent.time e
  | None => previous
  end = previous + foldr Z.add 0 (TinyTaskEvent.delay <$> events).
Proof.
  induction events as [|event rest IH]; intros previous Hc; [cbn; lia|].
  destruct Hc as (Ht & Hd & Hc). specialize (IH _ Hc).
  cbn [fmap list_fmap foldr]. rewrite last_cons.
  destruct (last rest); lia.
Qed.


(** *** The window handles, in the order of their first record *)

Lemma parse_iteration_hwndSet view index st :
  pl_hwndSet st = insertion_order (TinyTaskEvent.hwnd <$> pl_events st) →
  pl_hwndSet (parse_iteration view index st)
  = insertion_order
      (TinyTaskEvent.hwnd <$> pl_events (parse_iteration view index st)).
Proof.
  intros H. unfold parse_iteration, insertion_order in *.
  case_decide; cbn [pl_hwndSet pl_events];
    by rewrite fmap_app, foldl_app, <- H.
Qed.

Lemma parse_loop_hwndSet view count : ∀ from st,
  pl_hwndSet st = insertion_order (TinyTaskEvent.hwnd <$> pl_events st) →
  pl_hwndSet (parse_loop view count from st)
  = insertion_order
      (TinyTaskEvent.hwnd <$> pl_events (parse_loop view count from st)).
Proof.
  induction count as [|count IH]; intros from st H; [done|].
  cbn [parse_loop]. apply IH. by apply parse_iteration_hwndSet.
Qed.

Lemma hwndSet_add_NoDup hwnd set : NoDup set → NoDup (hwndSet_add hwnd set).
Proof.
  intros H. unfold hwndSet_add. case_decide as Hin; [done|].
  apply NoDup_app. split; [done|]. split; [|apply NoDup_singleton].
  intros x Hx Hx'. apply list_elem_of_singleton in Hx'. by subst.
Qed.

Lemma hwndSet_add_elem x hwnd set :
  x ∈ hwndSet_add hwnd set ↔ x ∈ set ∨ x = hwnd.
Proof.
  unfold hwndSet_add. case_decide as Hin.
  - split; [by left|]. by intros [H| ->].
  - rewrite elem_of_app, list_elem_of_singleton. done.
Qed.

Lemma foldl_hwndSet_add handles : ∀ set,
  NoDup set →
  NoDup (foldl (fun set hwnd => hwndSet_add hwnd set) set handles)
  ∧ ∀ x, x ∈ foldl (fun set hwnd => hwndSet_add hwnd set) set handles
         ↔ x ∈ set ∨ x ∈ handles.
Proof.
  induction handles as [|h rest IH]; intros set Hset; cbn [foldl].
  - split; [done|]. intros x. rewrite elem_of_nil. tauto.
  - destruct (IH (hwndSet_add h set) (hwndSet_add_NoDup h set Hset)) as [H1 H2].
    split; [done|]. intros x.
    rewrite H2, hwndSet_add_elem, elem_of_cons. tauto.
Qed.

Lemma insertion_order_spec handles :
  NoDup (insertion_order handles)
  ∧ ∀ x, x ∈ insertion_order handles ↔ x ∈ handles.
Proof.
  destruct (foldl_hwndSet_add handles [] (NoDup_nil_2)) as [H1 H2].
  split; [done|]. intros x. unfold insertion_order. rewrite H2, elem_of_nil.
  tauto.
Qed.

Lemma length_decoded_events count : ∀ index pa pt bytes,
  length (decoded_events count index pa pt bytes) = count.
Proof.
  induction count as [|count IH]; intros; cbn; [done|]. by rewrite IH.
Qed.

(** *** The encoder, read by position *)

Lemma length_le_bytes v : length (le_bytes v) = 4%nat.
Proof. done. Qed.

Lemma record_bytes_fields m l h t w rest :
  0 ≤ m < UINT32_MAX → 0 ≤ l < UINT32_MAX → 0 ≤ h < UINT32_MAX →
  0 ≤ w < UINT32_MAX →
  getUint32 (record_bytes m l h t w ++ rest) 0 = m
  ∧ getUint32 (record_bytes m l h t w ++ rest) 4 = l
  ∧ getUint32 (record_bytes m l h t w ++ rest) 8 = h
  ∧ getUint32 (record_bytes m l h t w ++ rest) 16 = w.
Proof.
  unfold UINT32_MAX. intros Hm Hl Hh Hw. unfold record_bytes.
  rewrite <- !app_assoc. split; [|split; [|split]].
  - rewrite le_value_le_bytes. apply Z.mod_small. lia.
  - etrans; [exact (getUint32_app (le_bytes m) _ 0)|].
    rewrite le_value_le_bytes. apply Z.mod_small. lia.
  - etrans; [exact (getUint32_app (le_bytes m ++ le_bytes l) _ 0)|].
    rewrite le_value_le_bytes. apply Z.mod_small. lia.
  - etrans;
      [exact (getUint32_app
                (le_bytes m ++ le_bytes l ++ le_bytes h ++ le_bytes t) _ 0)|].
    rewrite le_value_le_bytes. apply Z.mod_small. lia.
Qed.

Lemma encoded_records_lookup events : ∀ baseTime index absoluteTime i e,
  events !! i = Some e →
  let bytes := encoded_records baseTime index absoluteTime events in
  getUint32 bytes (i * 20) = toUint32 (EncodableEvent.message e)
  ∧ getUint32 bytes (i * 20 + 4) = toUint32 (EncodableEvent.paramL e)
  ∧ getUint32 bytes (i * 20 + 8) = toUint32 (EncodableEvent.paramH e)
  ∧ getUint32 bytes (i * 20 + 16) = toUint32 (EncodableEvent.hwnd e).
Proof.
  induction events as [|event rest IH];
    intros baseTime index absoluteTime i e He; [done|].
  cbn zeta. cbn [encoded_records]. destruct i as [|i].
  - cbn in He. injection He as ->.
    apply record_bytes_fields; apply toUint32_range.
  - cbn [lookup list_lookup] in He.
    specialize (IH baseTime (S index)
                  (written_time baseTime index absoluteTime event) i e He).
    cbn zeta in IH. destruct IH as (H0 & H4 & H8 & H16).
    set (record := record_bytes _ _ _ _ _).
    assert (∀ k, (S i * 20 + k)%nat = (length record + (i * 20 + k))%nat) as Hk
      by (intros k; subst record; rewrite length_record_bytes; lia).
    replace (S i * 20)%nat with (S i * 20 + 0)%nat by lia.
    rewrite !Hk, !getUint32_app, Nat.add_0_r. done.
Qed.

Lemma length_encoded_records events : ∀ baseTime index absoluteTime,
  length (encoded_records baseTime index absoluteTime events)
  = (length events * 20)%nat.
Proof.
  induction events as [|event rest IH]; intros; [done|].
  cbn [encoded_records]. rewrite length_app, length_record_bytes, IH.
  cbn [length]. lia.
Qed.

Lemma delay_sum_nonneg events : 0 ≤ delay_sum events.
Proof.
  induction events as [|e rest IH]; cbn; [done|].
  pose proof (toUint32_range (EncodableEvent.delay e)). unfold delay_sum in IH.
  lia.
Qed.

Lemma written_times_sum events : ∀ baseTime index absoluteTime i t,
  index ≠ 0%nat → 0 ≤ absoluteTime →
  written_times baseTime index absoluteTime events !! i = Some t →
  t = (absoluteTime + delay_sum (take (S i) events)) `mod` UINT32_MAX.
Proof.
  induction events as [|event rest IH];
    intros baseTime index absoluteTime i t Hi Ha Ht; [done|].
  cbn [written_times] in Ht.
  pose proof (toUint32_range (EncodableEvent.delay event)) as Hd.
  assert (written_time baseTime index absoluteTime event
          = (absoluteTime + toUint32 (EncodableEvent.delay event))
              `mod` UINT32_MAX) as Hw.
  { unfold written_time. rewrite decide_False by done.
    rewrite Z.max_r by lia. unfold UINT32_MAX in *.
    apply Z.rem_mod_nonneg; lia. }
  destruct i as [|i].
  - cbn in Ht. injection Ht as <-. rewrite Hw. cbn. by rewrite Z.add_0_r.
  - cbn [lookup list_lookup] in Ht.
    apply IH in Ht; [|lia|].
    + rewrite Ht, Hw. cbn [take delay_sum foldr].
      fold (delay_sum (take (S i) rest)).
      unfold UINT32_MAX. rewrite Zplus_mod_idemp_l. f_equal. lia.
    + rewrite Hw. apply Z.mod_pos_bound. unfold UINT32_MAX. lia.
Qed.

Lemma written_times_closed events baseTime i t :
  0 ≤ baseTime < UINT32_MAX →
  written_times baseTime 0 baseTime events !! i = Some t →
  t = (baseTime + delay_sum (take i (drop 1 events))) `mod` UINT32_MAX.
Proof.
  intros Hb Ht. destruct events as [|event rest]; [done|].
  cbn [written_times] in Ht. destruct i as [|i].
  - cbn in Ht. injection Ht as <-. cbn. rewrite Z.add_0_r.
    symmetry. apply Z.mod_small. done.
  - cbn [lookup list_lookup] in Ht. unfold written_time at 1 in Ht.
    rewrite decide_True in Ht by done.
    apply written_times_sum in Ht; [|lia|lia]. done.
Qed.

Lemma written_times_lookup events : ∀ baseTime index absoluteTime i,
  (i < length events)%nat →
  is_Some (written_times baseTime index absoluteTime events !! i).
Proof.
  intros. apply lookup_lt_is_Some. by rewrite length_written_times.
Qed.

Lemma encodeRec_mod_length events baseTime :
  length (encodeRec events baseTime) = (length events * 20)%nat.
Proof. by rewrite encodeRec_spec, length_encoded_records. Qed.

(** Decoding what the encoder wrote: the delay of a later event is its
    [toUint32] value again. *)
Lemma diffUint32_written previous d :
  0 ≤ previous < UINT32_MAX → 0 ≤ d < UINT32_MAX →
  diffUint32 ((previous + d) `rem` UINT32_MAX) previous = d.
Proof.
  unfold diffUint32, UINT32_MAX. intros Hp Hd.
  rewrite (Z.rem_mod_nonneg (previous + d)) by lia.
  pose proof (Z.mod_pos_bound (previous + d) 4294967296 ltac:(lia)).
  rewrite Z.rem_mod_nonneg by lia.
  Z.div_mod_to_equations. lia.
Qed.

(** *** Decoding what the encoder wrote *)

Lemma parseRec_encodeRec (es : list EncodableEvent.t)
    (bt : option JS.number) :
  ∃ r, parseRec (encodeRec es bt) = inr r
    ∧ length (events r) = length es
    ∧ baseTime r = (if decide (length es = 0%nat) then 0
                    else toUint32 (default (JS.Int 0) bt))
    ∧ ∀ i e, es !! i = Some e →
        ∃ e', events r !! i = Some e'
          ∧ TinyTaskEvent.message e' = toUint32 (EncodableEvent.message e)
          ∧ TinyTaskEvent.paramL e' = toUint32 (EncodableEvent.paramL e)
          ∧ TinyTaskEvent.paramH e' = toUint32 (EncodableEvent.paramH e)
          ∧ TinyTaskEvent.hwnd e' = toUint32 (EncodableEvent.hwnd e)
          ∧ TinyTaskEvent.delay e'
            = match i with
              | O => 0
              | S _ => toUint32 (EncodableEvent.delay e)
              end.
Proof.
  pose proof (encodeRec_mod_length es bt) as Hlen.
  assert (length (encodeRec es bt) `mod` RECORD_BYTE_LENGTH = 0)%nat as Hmod.
  { rewrite Hlen. unfold RECORD_BYTE_LENGTH. apply Nat.Div0.mod_mul. }
  assert (length (encodeRec es bt) `div` RECORD_BYTE_LENGTH = length es)%nat
    as Hdiv.
  { rewrite Hlen. unfold RECORD_BYTE_LENGTH. apply Nat.div_mul. lia. }
  rewrite (parseRec_ok _ Hmod). cbn zeta. rewrite Hdiv.
  eexists. split; [done|]. cbn [events baseTime].
  split; [apply length_decoded_events|].
  pose proof (toUint32_range (default (JS.Int 0) bt)) as Hb.
  assert (∀ i t,
            written_times (toUint32 (default (JS.Int 0) bt)) 0
              (toUint32 (default (JS.Int 0) bt)) es !! i = Some t →
            stored_time (encodeRec es bt) i = t) as Hstored.
  { intros i t Ht. unfold stored_time. rewrite encodeRec_spec.
    by apply encoded_records_time; [|lia|]. }
  split.
  - destruct es as [|e0 rest]; [done|]. rewrite decide_False by done.
    by apply (Hstored 0%nat).
  - intros i e He.
    assert (i < length es)%nat as Hi by (by apply lookup_lt_Some in He).
    destruct (lookup_lt_is_Some_2
                (decoded_events (length es) 0 0 0 (encodeRec es bt)) i)
      as [e' He']; [by rewrite length_decoded_events|].
    exists e'. split; [done|].
    destruct (decoded_events_lookup (length es) 0 0 0 _ i e' Hlen He')
      as (H1 & H2 & H3 & H4 & H5).
    destruct (encoded_records_lookup es
                (toUint32 (default (JS.Int 0) bt)) 0
                (toUint32 (default (JS.Int 0) bt)) i e He)
      as (G0 & G4 & G8 & G16).
    rewrite <- encodeRec_spec in G0, G4, G8, G16.
    rewrite H1, H2, H3, H4, H5, G0, G4, G8, G16.
    repeat (split; [done|]).
    destruct i as [|j]; [done|]. rewrite decide_False by lia.
    destruct (written_times_lookup es (toUint32 (default (JS.Int 0) bt)) 0
                (toUint32 (default (JS.Int 0) bt)) (S j) Hi) as [t' Ht'].
    destruct (written_times_step _ _ _ _ _ _ Ht') as (t & e2 & Ht & He2 & ->).
    rewrite He in He2. injection He2 as <-.
    rewrite (Hstored _ _ Ht'), (Hstored _ _ Ht).
    pose proof (toUint32_range (EncodableEvent.delay e)) as Hd.
    rewrite Z.max_r by lia.
    apply diffUint32_written; [|done].
    pose proof (written_times_closed es _ j t Hb Ht) as ->.
    apply Z.mod_pos_bound. unfold UINT32_MAX. lia.
Qed.

End CodecMore.

(** * Further properties of the editor *)

Module EditorMore.
Import RecEditor NumberFacts EditorSpec EditorFacts Timeline.

(** *** The normaliser in closed form *)

Lemma add_Int a b : JS.add (JS.Int a) (JS.Int b) = JS.Int (a + b).
Proof.
  unfold JS.add, JS.Int, Qplus, inject_Z. cbn [Qnum Qden].
  by rewrite !Z.mul_1_r.
Qed.

Lemma sanitizeDelay_value delay :
  sanitizeDelay delay = JS.Int (delay_value delay)
  ∧ 0 ≤ delay_value delay ≤ UINT32_MAX - 1.
Proof.
  unfold delay_value.
  destruct (sanitizeDelay_range delay) as (z & -> & Hz).
  unfold JS.Int. rewrite Qfloor_Z. done.
Qed.

Lemma delay_value_Int z : 0 ≤ z ≤ UINT32_MAX - 1 → delay_value (JS.Int z) = z.
Proof.
  intros Hz. unfold delay_value. rewrite sanitizeDelay_Int by done.
  unfold JS.Int. apply Qfloor_Z.
Qed.

Lemma delay_total_nonneg events : 0 ≤ delay_total events.
Proof.
  induction events as [|e rest IH]; cbn; [done|].
  destruct (sanitizeDelay_value (EditorEvent.delay e)) as [_ H].
  unfold delay_total in IH. lia.
Qed.

Lemma recompute_from_closed events : ∀ index t,
  index ≠ 0%nat →
  recompute_from index (JS.Int t) events
  = imap (fun i e =>
            EditorEvent.with_delay_time e
              (JS.Int (delay_value (EditorEvent.delay e)))
              (JS.Int (t + delay_total (take (S i) events))))
         events.
Proof.
  induction events as [|event rest IH]; intros index t Hi; [done|].
  cbn [recompute_from]. rewrite decide_False by done. cbn zeta.
  destruct (sanitizeDelay_value (EditorEvent.delay event)) as [-> _].
  rewrite add_Int, IH by lia. cbn [imap]. f_equal.
  - cbn. by rewrite Z.add_0_r.
  - apply imap_ext. intros i e He. cbn [compose take delay_total foldr].
    do 2 f_equal. fold (delay_total (take (S i) rest)). lia.
Qed.

Lemma recomputeTimeline_closed events :
  recomputeTimeline events = imap (placed events) events.
Proof.
  unfold recomputeTimeline. destruct events as [|event rest]; [done|].
  cbn [recompute_from]. rewrite decide_True by done.
  rewrite recompute_from_closed by lia. reflexivity.
Qed.

Lemma recomputeTimeline_lookup events i :
  recomputeTimeline events !! i = placed events i <$> events !! i.
Proof. by rewrite recomputeTimeline_closed, list_lookup_imap. Qed.

(** A normalised sequence has sanitised delays. *)
Lemma normalized_lookup events i e :
  normalized events → events !! i = Some e → placed events i e = e.
Proof.
  intros Hn He. unfold normalized in Hn.
  pose proof (recomputeTimeline_lookup events i) as H.
  rewrite Hn, He in H. cbn in H. by injection H.
Qed.

Lemma normalized_delay events i e :
  normalized events → events !! i = Some e →
  EditorEvent.delay e
  = JS.Int (if decide (i = 0%nat) then 0
            else delay_value (EditorEvent.delay e))
  ∧ sanitizeDelay (EditorEvent.delay e) = EditorEvent.delay e.
Proof.
  intros Hn He. pose proof (normalized_lookup events i e Hn He) as H.
  apply (f_equal EditorEvent.delay) in H. cbn in H.
  split; [done|]. rewrite <- H at 1 2.
  apply sanitizeDelay_Int. case_decide; [unfold UINT32_MAX; lia|].
  apply sanitizeDelay_value.
Qed.

(** The normaliser reads the delays only. *)
Lemma delay_total_ext (l1 l2 : list EditorEvent.t) :
  EditorEvent.delay <$> l1 = EditorEvent.delay <$> l2 →
  delay_total l1 = delay_total l2.
Proof.
  revert l2. induction l1 as [|a l1 IH]; intros [|b l2] H; try done.
  cbn in H. injection H as Hd Hr. cbn. rewrite Hd. f_equal.
  by apply IH.
Qed.

(** *** Loading *)

Import RecParser CodecSpec Layout CodecMore.

Lemma createEditorEvents_imap es :
  createEditorEvents es = imap parsed_event es.
Proof. reflexivity. Qed.

Lemma parsed_events_normalized_from (es : list TinyTaskEvent.t) :
  ∀ (k index : nat) previous,
  index ≠ 0%nat → tt_chain previous es →
  recompute_from index (JS.Int previous)
    (imap (fun i => parsed_event (k + i)) es)
  = imap (fun i => parsed_event (k + i)) es.
Proof.
  induction es as [|e rest IH]; intros k index previous Hi Hc; [done|].
  destruct Hc as (Ht & Hd & Hc).
  cbn [imap recompute_from]. rewrite decide_False by done. cbn zeta.
  cbn [parsed_event EditorEvent.delay].
  rewrite sanitizeDelay_Int
    by (unfold RecParser.UINT32_MAX, RecEditor.UINT32_MAX in *; lia).
  rewrite add_Int, <- Ht. f_equal.
  specialize (IH (S k) (S index) (TinyTaskEvent.time e) ltac:(lia) Hc).
  rewrite (imap_ext _ (fun i => parsed_event (S k + i)) rest); [done|].
  intros i x Hx. cbn [compose]. by rewrite Nat.add_succ_r.
Qed.

(** A decoded recording is already normalised. *)
Lemma decoded_normalized count bytes :
  normalized (createEditorEvents (decoded_events count 0 0 0 bytes)).
Proof.
  unfold normalized, recomputeTimeline. rewrite createEditorEvents_imap.
  destruct count as [|count]; [done|].
  pose proof (decoded_events_chain (S count) 0 0 0 bytes
                ltac:(unfold RecParser.UINT32_MAX; lia)) as Hc.
  rewrite decide_True in Hc by done.
  cbn [CodecSpec.decoded_events] in *. rewrite !decide_True in * by done.
  destruct Hc as (_ & _ & Hc). cbn [TinyTaskEvent.time] in Hc.
  cbn [imap recompute_from]. rewrite decide_True by done. f_equal.
  apply (parsed_events_normalized_from _ 1 1 0); [lia|done].
Qed.

Lemma parseRec_events_normalized buffer parsed :
  parseRec buffer = inr parsed →
  normalized (createEditorEvents (RecParser.events parsed)).
Proof.
  intros Hp.
  destruct (decide (length buffer `mod` RECORD_BYTE_LENGTH = 0)%nat) as [Hm|Hm].
  - rewrite (CodecFacts.parseRec_ok buffer Hm) in Hp.
    apply (inj inr) in Hp. subst parsed. apply decoded_normalized.
  - by rewrite (parseRec_bad_length buffer Hm) in Hp.
Qed.

Lemma loadFile_ok file s parsed :
  parseRec (arrayBuffer file) = inr parsed →
  loadFile file s
  = (S.mk (createEditorEvents (RecParser.events parsed))
       (createEditorEvents (RecParser.events parsed))
       (RecParser.baseTime parsed) (Some (name file)) false None false ∅ None
       [] [],
     Some (mkLoadResult (name file) (RecParser.baseTime parsed))).
Proof.
  intros Hp. unfold loadFile. rewrite Hp.
  pose proof (parseRec_events_normalized _ _ Hp) as Hn.
  unfold normalized in Hn. rewrite Hn. reflexivity.
Qed.

(** *** Exporting *)

Lemma encodable_parsed es :
  map encodable (createEditorEvents es) = cloneAsEncodable es.
Proof.
  rewrite createEditorEvents_imap. unfold cloneAsEncodable.
  apply list_eq. intros i.
  rewrite !lookup_map, list_lookup_imap. by destruct (es !! i).
Qed.

Lemma exportRec_loaded file s parsed :
  parseRec (arrayBuffer file) = inr parsed →
  exportRec (fst (loadFile file s))
  = if decide (length (arrayBuffer file) = 0%nat) then None
    else Some (arrayBuffer file).
Proof.
  intros Hp. rewrite (loadFile_ok file s parsed Hp). cbn [fst].
  unfold exportRec. cbn [S.events S.baseTime].
  rewrite length_createEditorEvents.
  destruct (decide (length (arrayBuffer file) `mod` RECORD_BYTE_LENGTH = 0)%nat)
    as [Hm|Hm]; [|by rewrite (parseRec_bad_length _ Hm) in Hp].
  fold encodable. rewrite encodable_parsed.
  pose proof (CodecFacts.parseRec_ok _ Hm) as Hok. cbv zeta in Hok.
  rewrite Hp in Hok. apply (inj inr) in Hok. subst parsed.
  cbn [RecParser.events RecParser.baseTime].
  rewrite length_decoded_events.
  remember (length (arrayBuffer file) `div` RECORD_BYTE_LENGTH)%nat
    as count eqn:Hcnt.
  assert (length (arrayBuffer file) = (count * RECORD_BYTE_LENGTH)%nat) as Hlen.
  { subst count. unfold RECORD_BYTE_LENGTH in *.
    pose proof (Nat.div_mod_eq (length (arrayBuffer file)) 20). lia. }
  clear Hcnt Hp. destruct count as [|n].
  - rewrite !decide_True by lia. done.
  - rewrite !decide_False by (unfold RECORD_BYTE_LENGTH in *; lia).
    f_equal. rewrite CodecFacts.encodeRec_spec. cbn [default]. unfold id.
    pose proof (CodecFacts.getUint32_range (arrayBuffer file) 12).
    rewrite CodecFacts.toUint32_Int_small by (unfold RecParser.UINT32_MAX; lia).
    apply CodecFacts.encoded_decoded; [done|done|done].
Qed.

(** *** The two stacks *)

Lemma push_limited_below stack snapshot :
  (length stack < HISTORY_LIMIT)%nat →
  push_limited stack snapshot = stack ++ [snapshot].
Proof.
  intros H. unfold push_limited. cbv zeta.
  rewrite decide_False; [done|]. rewrite length_app. cbn. lia.
Qed.

Lemma length_push_limited stack snapshot :
  (length stack ≤ HISTORY_LIMIT)%nat →
  (length (push_limited stack snapshot) ≤ HISTORY_LIMIT)%nat.
Proof.
  intros H. unfold push_limited. cbv zeta. case_decide as Hlen.
  - replace (tail (stack ++ [snapshot])) with (drop 1 (stack ++ [snapshot]))
      by (by destruct (stack ++ [snapshot])).
    rewrite length_drop, length_app. cbn. lia.
  - lia.
Qed.

Lemma last_length_removelast {A} (l : list A) x :
  last l = Some x → l = removelast l ++ [x] ∧ (0 < length l)%nat.
Proof.
  intros H. destruct l as [|a l] using rev_ind; [done|].
  rewrite last_snoc in H. injection H as ->.
  rewrite removelast_last, length_app. cbn. split; [done|lia].
Qed.

Lemma undo_bounded s snapshot :
  stacks_bounded s → last (S.history s) = Some snapshot →
  undo s
  = setHistory (removelast (S.history s))
      (setIsDirty true
         (setSelectionAnchor None
            (setSelectedIds ∅
               (setEvents (recomputeTimeline snapshot)
                  (setFuture (S.future s ++ [S.events s]) s))))).
Proof.
  intros Hb Hl. unfold undo. cbv zeta. rewrite Hl.
  destruct (last_length_removelast _ _ Hl) as [_ Hlen].
  rewrite push_limited_below; [done|]. unfold stacks_bounded in Hb. lia.
Qed.

Lemma redo_bounded s snapshot :
  stacks_bounded s → last (S.future s) = Some snapshot →
  redo s
  = setFuture (removelast (S.future s))
      (setIsDirty true
         (setSelectionAnchor None
            (setSelectedIds ∅
               (setEvents (recomputeTimeline snapshot)
                  (setHistory (S.history s ++ [S.events s]) s))))).
Proof.
  intros Hb Hl. unfold redo. cbv zeta. rewrite Hl.
  destruct (last_length_removelast _ _ Hl) as [_ Hlen].
  rewrite push_limited_below; [done|]. unfold stacks_bounded in Hb. lia.
Qed.

Lemma exec_bounded c s : stacks_bounded s → stacks_bounded (exec c s).
Proof.
  intros Hb. destruct (is_edit c) eqn:Hedit.
  { unfold stacks_bounded in *.
    destruct (edit_outcome_exec c s Hedit)
      as [_ Hh Hf _ _|m _ Hh Hf _ _]; rewrite Hh, Hf; [done|].
    cbn [length]. rewrite Nat.add_0_r. apply length_push_limited. lia. }
  destruct c; try discriminate Hedit; cbn [exec].
  - unfold loadFile. destruct (RecParser.parseRec _); [done|].
    unfold stacks_bounded, HISTORY_LIMIT. cbn. lia.
  - unfold resetChanges. case_decide; [done|].
    unfold stacks_bounded, HISTORY_LIMIT. cbn. lia.
  - unfold toggleSelection.
    destruct (_ && _); [by destruct (S.selectionAnchor s)|done].
  - done.
  - done.
  - destruct (last (S.history s)) as [snapshot|] eqn:Hl.
    + rewrite (undo_bounded s snapshot Hb Hl).
      destruct (last_length_removelast _ _ Hl) as [Heq Hlen].
      unfold stacks_bounded in *. cells.
      rewrite Heq, !length_app in Hb. rewrite length_app. cbn in *. lia.
    + unfold undo. cbv zeta. by rewrite Hl.
  - destruct (last (S.future s)) as [snapshot|] eqn:Hl.
    + rewrite (redo_bounded s snapshot Hb Hl).
      destruct (last_length_removelast _ _ Hl) as [Heq Hlen].
      unfold stacks_bounded in *. cells.
      rewrite Heq, !length_app in Hb. rewrite length_app. cbn in *. lia.
    + unfold redo. cbv zeta. by rewrite Hl.
Qed.

Lemma run_bounded cs : ∀ s, stacks_bounded s → stacks_bounded (run cs s).
Proof.
  induction cs as [|c cs IH]; intros s Hb; [done|].
  rewrite run_cons. by apply IH, exec_bounded.
Qed.

Lemma initial_bounded : stacks_bounded initial.
Proof. unfold stacks_bounded, HISTORY_LIMIT. cbn. lia. Qed.

Lemma redo_undo s :
  stacks_normalized s → stacks_bounded s → S.history s ≠ [] →
  S.events (redo (undo s)) = S.events s
  ∧ S.history (redo (undo s)) = S.history s
  ∧ S.future (redo (undo s)) = S.future s.
Proof.
  intros (Hn & Hh & Hf) Hb Hne.
  destruct (last (S.history s)) as [snapshot|] eqn:Hl;
    [|by apply last_None in Hl].
  destruct (last_length_removelast _ _ Hl) as [Heq Hlen].
  assert (normalized snapshot) as Hs.
  { rewrite Heq in Hh. apply Forall_app in Hh as [_ Hh].
    by rewrite Forall_singleton in Hh. }
  set (u := undo s).
  assert (S.events u = snapshot ∧ S.history u = removelast (S.history s)
          ∧ S.future u = S.future s ++ [S.events s]) as (Eu & Hu & Fu).
  { subst u. rewrite (undo_bounded s snapshot Hb Hl). cells. by rewrite Hs. }
  assert (stacks_bounded u) as Hbu by apply (exec_bounded Undo s Hb).
  assert (last (S.future u) = Some (S.events s)) as Hlu
    by (by rewrite Fu, last_snoc).
  rewrite (redo_bounded u (S.events s) Hbu Hlu). cells.
  rewrite Hn, Hu, Eu, Fu, removelast_last, <- Heq. done.
Qed.

Lemma undo_redo s :
  stacks_normalized s → stacks_bounded s → S.future s ≠ [] →
  S.events (undo (redo s)) = S.events s
  ∧ S.history (undo (redo s)) = S.history s
  ∧ S.future (undo (redo s)) = S.future s.
Proof.
  intros (Hn & Hh & Hf) Hb Hne.
  destruct (last (S.future s)) as [snapshot|] eqn:Hl;
    [|by apply last_None in Hl].
  destruct (last_length_removelast _ _ Hl) as [Heq Hlen].
  assert (normalized snapshot) as Hs.
  { rewrite Heq in Hf. apply Forall_app in Hf as [_ Hf].
    by rewrite Forall_singleton in Hf. }
  set (u := redo s).
  assert (S.events u = snapshot ∧ S.future u = removelast (S.future s)
          ∧ S.history u = S.history s ++ [S.events s]) as (Eu & Fu & Hu).
  { subst u. rewrite (redo_bounded s snapshot Hb Hl). cells. by rewrite Hs. }
  assert (stacks_bounded u) as Hbu by apply (exec_bounded Redo s Hb).
  assert (last (S.history u) = Some (S.events s)) as Hlu
    by (by rewrite Hu, last_snoc).
  rewrite (undo_bounded u (S.events s) Hbu Hlu). cells.
  rewrite Hn, Hu, Eu, Fu, removelast_last, <- Heq. done.
Qed.

(** *** The loaded baseline *)

Lemma events_setError v s : S.events (setError v s) = S.events s.
Proof. done. Qed.


Lemma commitEvents_baseline mutator options s :
  baseline (commitEvents mutator options s) = baseline s
  ∧ S.loading (commitEvents mutator options s) = S.loading s.
Proof.
  unfold baseline. destruct (mutator (S.events s)) as [m|] eqn:Hm.
  - destruct (commitEvents_some mutator options s m Hm)
      as (_ & _ & _ & _ & -> & -> & -> & -> & _). done.
  - rewrite commitEvents_null by done. by destruct (truthy _).
Qed.

Lemma exec_baseline c s :
  is_load c = false →
  baseline (exec c s) = baseline s
  ∧ (S.loading s = false → S.loading (exec c s) = false).
Proof.
  intros Hc. destruct c; try discriminate Hc; cbn [exec].
  - unfold mergeFile. destruct (RecParser.parseRec _); [done|].
    unfold insertEvents.
    match goal with
    | |- context [commitEvents ?m ?o ?s1] =>
        destruct (commitEvents_baseline m o s1) as [Hb _]
    end.
    unfold baseline in *. cells. by rewrite Hb.
  - destruct (commitEvents_baseline
                (λ current,
                   if negb (existsb snd
                              (map (update_one id (sanitizeDelay value)) current))
                   then None
                   else Some (mkMutation
                                (map fst (map (update_one id (sanitizeDelay value))
                                            current)) None))
                no_options s) as [Hb Hl].
    rewrite updateDelay_unfold, Hb, Hl. done.
  - unfold removeEvent.
    match goal with
    | |- context [commitEvents ?m ?o ?s1] =>
        destruct (commitEvents_baseline m o s1) as [-> ->]
    end. done.
  - unfold insertEvents.
    match goal with
    | |- context [commitEvents ?m ?o ?s1] =>
        destruct (commitEvents_baseline m o s1) as [-> ->]
    end. done.
  - unfold resetChanges. by case_decide.
  - unfold toggleSelection.
    destruct (_ && _); [by destruct (S.selectionAnchor s)|done].
  - done.
  - done.
  - unfold applyDelayToSelection, applyToSelection. case_decide; [done|].
    match goal with
    | |- context [commitEvents ?m ?o ?s1] =>
        destruct (commitEvents_baseline m o s1) as [-> ->]
    end. done.
  - unfold addDelayToSelection, applyToSelection. case_decide; [done|].
    match goal with
    | |- context [commitEvents ?m ?o ?s1] =>
        destruct (commitEvents_baseline m o s1) as [-> ->]
    end. done.
  - unfold clampSmallDelays, applyToSelection. case_decide; [done|].
    match goal with
    | |- context [commitEvents ?m ?o ?s1] =>
        destruct (commitEvents_baseline m o s1) as [-> ->]
    end. done.
  - unfold deleteSelected. case_decide; [done|].
    match goal with
    | |- context [commitEvents ?m ?o ?s1] =>
        destruct (commitEvents_baseline m o s1) as [-> ->]
    end. done.
  - unfold undo. cbv zeta. by destruct (last _).
  - unfold redo. cbv zeta. by destruct (last _).
Qed.

Lemma run_baseline cs : ∀ s,
  forallb (fun c => negb (is_load c)) cs = true →
  baseline (run cs s) = baseline s
  ∧ (S.loading s = false → S.loading (run cs s) = false).
Proof.
  induction cs as [|c cs IH]; intros s Hcs; [done|].
  cbn [forallb] in Hcs. apply andb_true_iff in Hcs as [Hc Hcs].
  apply negb_true_iff in Hc. rewrite run_cons.
  destruct (exec_baseline c s Hc) as [Hb Hl].
  destruct (IH (exec c s) Hcs) as [Hb' Hl'].
  rewrite Hb', Hb. split; [done|]. intros H. by apply Hl', Hl.
Qed.

Lemma resetChanges_after_load file s0 parsed cs :
  RecParser.parseRec (arrayBuffer file) = inr parsed →
  RecParser.events parsed ≠ [] →
  forallb (fun c => negb (is_load c)) cs = true →
  let loaded := fst (loadFile file s0) in
  resetChanges (run cs loaded) = setError (S.error (run cs loaded)) loaded.
Proof.
  intros Hp Hne Hcs loaded.
  destruct (run_baseline cs loaded Hcs) as [Hb Hl].
  assert (loaded
          = S.mk (createEditorEvents (RecParser.events parsed))
              (createEditorEvents (RecParser.events parsed))
              (RecParser.baseTime parsed) (Some (name file)) false None false ∅
              None [] []) as Hloaded
    by (subst loaded; by rewrite (loadFile_ok file s0 parsed Hp)).
  remember (run cs loaded) as s eqn:Hs. clear Hs.
  rewrite Hloaded in *. clear Hloaded loaded.
  specialize (Hl eq_refl). unfold baseline in Hb. cbn in Hb.
  injection Hb as Hi Hbt Hfn.
  unfold resetChanges. rewrite Hi.
  rewrite decide_False.
  2:{ rewrite length_createEditorEvents. by destruct (RecParser.events parsed). }
  pose proof (parseRec_events_normalized _ _ Hp) as Hn. unfold normalized in Hn.
  rewrite Hn. destruct s. cbn in *. by subst.
Qed.

(** *** The ids a commit leaves *)

Lemma commitEvents_ids mutator options s :
  map EditorEvent.id (S.events (commitEvents mutator options s))
  = match mutator (S.events s) with
    | Some m => map EditorEvent.id (next m)
    | None => map EditorEvent.id (S.events s)
    end.
Proof.
  destruct (mutator (S.events s)) as [m|] eqn:Hm.
  - destruct (commitEvents_some mutator options s m Hm) as (-> & _).
    apply recomputeTimeline_ids.
  - rewrite commitEvents_null by done. by destruct (truthy _).
Qed.

Lemma filter_map_ids (p : string → bool) (l : list EditorEvent.t) :
  map EditorEvent.id (List.filter (fun e => p (EditorEvent.id e)) l)
  = List.filter p (map EditorEvent.id l).
Proof.
  induction l as [|e l IH]; [done|]. cbn.
  destruct (p (EditorEvent.id e)); cbn; by rewrite IH.
Qed.

Lemma filter_all {A} (p : A → bool) (l : list A) :
  existsb (fun x => negb (p x)) l = false → List.filter p l = l.
Proof.
  induction l as [|x l IH]; [done|]. cbn. intros H.
  apply orb_false_iff in H as [Hx Hl]. apply negb_false_iff in Hx.
  rewrite Hx. by rewrite IH.
Qed.

Lemma existsb_map {A B} (f : A → B) (p : B → bool) (l : list A) :
  existsb p (map f l) = existsb (fun x => p (f x)) l.
Proof. induction l as [|x l IH]; [done|]. cbn. by rewrite IH. Qed.

Lemma existsb_id_elem id (l : list EditorEvent.t) :
  existsb (fun event => String.eqb (EditorEvent.id event) id) l = true
  ↔ id ∈ event_ids l.
Proof.
  rewrite elem_of_event_ids, existsb_exists. split.
  - intros (e & He & Heq). exists e. apply String.eqb_eq in Heq.
    split; [by apply list_elem_of_In|done].
  - intros (e & He & Heq). exists e. split; [by apply list_elem_of_In|].
    by apply String.eqb_eq.
Qed.

Lemma removeEvent_absent id s :
  id ∉ event_ids (S.events s) → removeEvent id s = s.
Proof.
  intros H. unfold removeEvent. rewrite commitEvents_null; [done|].
  destruct (existsb _ _) eqn:He; [|done].
  by apply existsb_id_elem in He.
Qed.

Lemma removeEvent_ids id s :
  map EditorEvent.id (S.events (removeEvent id s))
  = List.filter (fun x => negb (String.eqb x id))
      (map EditorEvent.id (S.events s)).
Proof.
  unfold removeEvent. rewrite commitEvents_ids.
  destruct (existsb _ _) eqn:He; cbn [negb next].
  - apply (filter_map_ids (fun x => negb (String.eqb x id))).
  - symmetry. apply filter_all. rewrite existsb_map.
    rewrite <- He. clear He.
    induction (S.events s) as [|e l IH]; [done|]. cbn.
    by rewrite negb_involutive, IH.
Qed.

Lemma filter_length_eq {A} (p : A → bool) (l : list A) :
  length (List.filter p l) = length l → List.filter p l = l.
Proof.
  induction l as [|x l IH]; [done|]. cbn.
  pose proof (List.filter_length_le p l) as Hle.
  destruct (p x); cbn; intros H; [f_equal; apply IH; lia|lia].
Qed.

Lemma deleteSelected_ids s :
  map EditorEvent.id (S.events (deleteSelected s))
  = List.filter (fun x => negb (bool_decide (x ∈ S.selectedIds s)))
      (map EditorEvent.id (S.events s)).
Proof.
  unfold deleteSelected. case_decide as Hsize.
  - apply size_empty_inv in Hsize. apply leibniz_equiv in Hsize.
    rewrite Hsize. symmetry. apply filter_all.
    induction (map EditorEvent.id (S.events s)) as [|x l IH]; [done|].
    cbn. rewrite IH. rewrite bool_decide_eq_false_2; [done|].
    apply not_elem_of_empty.
  - rewrite commitEvents_ids.
    rewrite <- (filter_map_ids
                  (fun x => negb (bool_decide (x ∈ S.selectedIds s)))).
    case_decide as Hlen; cbn [next]; [|done].
    by rewrite (filter_length_eq _ _ Hlen).
Qed.

Lemma deleteSelected_changed s :
  S.events (deleteSelected s) ≠ S.events s →
  S.selectedIds (deleteSelected s) = ∅
  ∧ S.selectionAnchor (deleteSelected s) = None
  ∧ S.history (deleteSelected s) = push_limited (S.history s) (S.events s)
  ∧ S.future (deleteSelected s) = [].
Proof.
  unfold deleteSelected. case_decide as Hsize; [done|].
  set (mutator := fun current : list EditorEvent.t => _).
  destruct (mutator (S.events s)) as [m|] eqn:Hm.
  - intros _. subst mutator. cbn beta in Hm.
    case_decide as Hlen; [done|]. injection Hm as <-.
    unfold commitEvents. cbv zeta.
    match goal with |- context [if decide (length ?a = length ?b) then _ else _] =>
      rewrite (decide_False (P := length a = length b)) by done end.
    cbn [selectionOverride next resetAnchor trackHistory truthy default orb].
    rewrite decide_True by done. cells.
    split; [|done]. apply leibniz_equiv. apply filter_empty. 
  - rewrite commitEvents_null by done. cbn [resetAnchor truthy default].
    cells. done.
Qed.

Lemma imap_new_ids clock random (F : nat → EventTemplate → EditorEvent.t) l :
  (∀ i e, EditorEvent.id (F i e) = new_id clock random i) →
  map EditorEvent.id (imap F l)
  = imap (fun i _ => new_id clock random i) l.
Proof.
  intros HF. apply list_eq. intros i.
  rewrite lookup_map, !list_lookup_imap. destruct (l !! i); cbn; [|done].
  by rewrite HF.
Qed.

Lemma insertEvents_ids clock random index newEvents delayTotal s :
  let k := clampedIndex index (S.events s) in
  map EditorEvent.id
    (S.events (insertEvents clock random index newEvents delayTotal s))
  = take k (map EditorEvent.id (S.events s))
    ++ imap (fun i _ => new_id clock random i) newEvents
    ++ drop k (map EditorEvent.id (S.events s)).
Proof.
  intros k. unfold insertEvents. rewrite commitEvents_ids. cbn [next].
  fold (clampedIndex index (S.events s)). fold k.
  rewrite !map_app.
  change (map EditorEvent.id (take k (S.events s)))
    with (EditorEvent.id <$> take k (S.events s)).
  change (map EditorEvent.id (drop k (S.events s)))
    with (EditorEvent.id <$> drop k (S.events s)).
  rewrite fmap_take, fmap_drop. f_equal. f_equal.
  by apply imap_new_ids.
Qed.

Lemma insertEvents_commit clock random index newEvents delayTotal s :
  S.history (insertEvents clock random index newEvents delayTotal s)
  = push_limited (S.history s) (S.events s)
  ∧ S.future (insertEvents clock random index newEvents delayTotal s) = []
  ∧ S.isDirty (insertEvents clock random index newEvents delayTotal s) = true.
Proof.
  unfold insertEvents.
  match goal with
  | |- context [commitEvents ?m ?o ?s1] =>
      destruct (commitEvents_some m o s1 _ eq_refl)
        as (_ & Hd & _ & Hh & _)
  end.
  destruct (Hh ltac:(done)) as [H1 H2]. done.
Qed.

(** *** Batch edits of the selection *)

(** The callback of [current.map] in [applyToSelection]. *)
Lemma applyToSelection_unfold updater s :
  applyToSelection updater s
  = if decide (size (S.selectedIds s) = 0%nat) then s
    else
      commitEvents
        (fun current =>
           if negb (existsb snd (imap (apply_one updater (S.selectedIds s)) current))
           then None
           else Some (mkMutation
                        (map fst (imap (apply_one updater (S.selectedIds s)) current))
                        None))
        no_options s.
Proof. reflexivity. Qed.

Lemma apply_one_id updater selected i e :
  (∀ e i e', updater e i = Some e' → EditorEvent.id e' = EditorEvent.id e) →
  EditorEvent.id (fst (apply_one updater selected i e)) = EditorEvent.id e.
Proof.
  intros Hu. unfold apply_one. destruct (negb _); [done|].
  destruct (updater e i) as [e'|] eqn:He; [|done]. by apply Hu in He.
Qed.

Lemma applyToSelection_ids updater s :
  (∀ e i e', updater e i = Some e' → EditorEvent.id e' = EditorEvent.id e) →
  map EditorEvent.id (S.events (applyToSelection updater s))
  = map EditorEvent.id (S.events s).
Proof.
  intros Hu. rewrite applyToSelection_unfold. case_decide; [done|].
  rewrite commitEvents_ids. destruct (negb _); [done|]. cbn [next].
  apply list_eq. intros i. rewrite !lookup_map, list_lookup_imap.
  destruct (S.events s !! i) as [e|]; cbn; [|done].
  by rewrite apply_one_id.
Qed.

Lemma existsb_false_lookup {A} (p : A → bool) (l : list A) i x :
  existsb p l = false → l !! i = Some x → p x = false.
Proof.
  intros H Hx. destruct (p x) eqn:Hp; [|done].
  assert (existsb p l = true) as Ht; [|by rewrite H in Ht].
  apply existsb_exists. exists x. split; [|done].
  apply list_elem_of_In. by eapply list_elem_of_lookup_2.
Qed.

(** What a batch edit leaves at each position, for an updater that only
    ever rewrites the delay, to [target]. *)
Lemma applyToSelection_delays updater
    (target : EditorEvent.t → nat → JS.number) s :
  normalized (S.events s) →
  (∀ e i,
     match updater e i with
     | Some e' => e' = EditorEvent.with_delay e (target e i)
     | None => sanitizeDelay (target e i) = sanitizeDelay (EditorEvent.delay e)
     end) →
  ∀ i e, S.events s !! i = Some e →
    ∃ e', S.events (applyToSelection updater s) !! i = Some e'
      ∧ EditorEvent.id e' = EditorEvent.id e
      ∧ EditorEvent.delay e'
        = if decide (i = 0%nat) then JS.Int 0
          else if decide (EditorEvent.id e ∈ S.selectedIds s)
               then sanitizeDelay (target e i)
               else EditorEvent.delay e.
Proof.
  intros Hn Hu i e He.
  destruct (normalized_delay _ _ _ Hn He) as [Hd Hsan].
  assert (∀ j x, S.events s !! j = Some x →
            snd (apply_one updater (S.selectedIds s) j x) = false →
            EditorEvent.id x ∈ S.selectedIds s →
            sanitizeDelay (target x j) = sanitizeDelay (EditorEvent.delay x))
    as Hnone.
  { intros j x Hx Hsnd Hsel. unfold apply_one in Hsnd.
    rewrite bool_decide_eq_true_2 in Hsnd by done. cbn [negb] in Hsnd.
    specialize (Hu x j). by destruct (updater x j). }
  assert (unchanged :
    (∀ j x, S.events s !! j = Some x →
            snd (apply_one updater (S.selectedIds s) j x) = false) →
    ∃ e', S.events s !! i = Some e'
      ∧ EditorEvent.id e' = EditorEvent.id e
      ∧ EditorEvent.delay e'
        = if decide (i = 0%nat) then JS.Int 0
          else if decide (EditorEvent.id e ∈ S.selectedIds s)
               then sanitizeDelay (target e i)
               else EditorEvent.delay e).
  { intros Hall. exists e. split; [done|]. split; [done|].
    case_decide as Hi; [done|].
    case_decide as Hsel; [|done].
    rewrite (Hnone i e He (Hall i e He) Hsel). done. }
  rewrite applyToSelection_unfold.
  destruct (decide (size (S.selectedIds s) = 0%nat)) as [Hsize|Hsize].
  { apply unchanged. intros j x Hx. unfold apply_one.
    apply size_empty_inv in Hsize. apply leibniz_equiv in Hsize.
    rewrite Hsize. rewrite bool_decide_eq_false_2; [done|].
    apply not_elem_of_empty. }
  set (mutator := fun current : list EditorEvent.t => _).
  destruct (mutator (S.events s)) as [m|] eqn:Hm.
  - destruct (commitEvents_some mutator no_options s m Hm) as (-> & _).
    subst mutator. cbn beta in Hm.
    destruct (negb _); [done|]. injection Hm as <-. cbn [next].
    rewrite recomputeTimeline_lookup, lookup_map, list_lookup_imap, He.
    cbn [fmap option_fmap option_map].
    eexists. split; [done|]. unfold placed. cbn [EditorEvent.with_delay_time
      EditorEvent.id EditorEvent.delay].
    split; [by apply apply_one_id; intros x j x' Hx; specialize (Hu x j);
            rewrite Hx in Hu; subst x'|].
    case_decide as Hi; [done|].
    match goal with |- JS.Int (delay_value ?d) = _ =>
      destruct (sanitizeDelay_value d) as [<- _] end.
    unfold apply_one. case_bool_decide as Hsel; cbn [negb].
    + rewrite decide_True by done. specialize (Hu e i).
      destruct (updater e i) as [e''|]; cbn [fst].
      * subst e''. done.
      * by rewrite Hu.
    + rewrite decide_False by done. done.
  - rewrite commitEvents_null by done. cbn [resetAnchor no_options truthy default].
    apply unchanged. intros j x Hx. subst mutator. cbn beta in Hm.
    destruct (existsb _ _) eqn:Hex; [done|].
    apply (existsb_false_lookup _ _ j _ Hex).
    by rewrite list_lookup_imap, Hx.
Qed.

Lemma strict_eq_sym a b : JS.strict_eq a b = JS.strict_eq b a.
Proof.
  destruct a as [| | |x], b as [| | |y]; try done. cbn.
  destruct (Qeq_bool x y) eqn:H1, (Qeq_bool y x) eqn:H2; try done.
  - apply Qeq_bool_iff, Qeq_sym, Qeq_bool_iff in H1. congruence.
  - apply Qeq_bool_iff, Qeq_sym, Qeq_bool_iff in H2. congruence.
Qed.

Lemma sanitizeDelay_strict_eq_l value d :
  JS.strict_eq d (sanitizeDelay value) = true →
  sanitizeDelay (sanitizeDelay value) = sanitizeDelay d.
Proof.
  intros H. destruct (sanitizeDelay_range value) as (z & Hz & Hr).
  rewrite Hz in *. rewrite (sanitizeDelay_strict_eq d z H Hr).
  by apply sanitizeDelay_Int.
Qed.

(** *** Selection *)

Lemma select_range_elem events cursors : ∀ (start : gset string) x,
  x ∈ select_range events start cursors
  ↔ x ∈ start
    ∨ ∃ cursor e, cursor ∈ cursors ∧ events !! Z.to_nat cursor = Some e
                  ∧ EditorEvent.id e = x.
Proof.
  induction cursors as [|c cursors IH]; intros start x.
  - cbn. split; [by left|]. intros [H|(c & e & Hc & _)]; [done|].
    by apply elem_of_nil in Hc.
  - change (select_range events start (c :: cursors))
      with (select_range events
              (match events !! Z.to_nat c with
               | Some entry => {[EditorEvent.id entry]} ∪ start
               | None => start
               end) cursors).
    rewrite IH. split.
    + intros [H|(c' & e & Hc & He & Hx)].
      * destruct (events !! Z.to_nat c) as [e|] eqn:He; [|by left].
        apply elem_of_union in H as [H|H]; [|by left].
        apply elem_of_singleton in H. right. exists c, e.
        split; [apply list_elem_of_here|done].
      * right. exists c', e. split; [by apply list_elem_of_further|done].
    + intros [H|(c' & e & Hc & He & Hx)].
      * left. destruct (events !! Z.to_nat c); [|done].
        apply elem_of_union. by right.
      * apply elem_of_cons in Hc as [->|Hc].
        -- left. rewrite He. apply elem_of_union. left.
           by apply elem_of_singleton.
        -- right. by exists c', e.
Qed.

Lemma toggleSelection_shift id index meta s :
  S.events s ≠ [] →
  toggleSelection id index true meta s
  = let anchor := default index (S.selectionAnchor s) in
    let start := Z.max 0 (Z.min anchor index) in
    let end_ := Z.min (Z.of_nat (length (S.events s)) - 1) (Z.max anchor index) in
    setSelectedIds
      (select_range (S.events s) (if meta then S.selectedIds s else ∅)
         (seqZ start (end_ - start + 1)))
      (setSelectionAnchor (Some anchor) s).
Proof.
  intros Hne. unfold toggleSelection. cbv zeta.
  rewrite bool_decide_eq_false_2 by (by destruct (S.events s)).
  cbn [andb negb]. unfold select_range.
  destruct (S.selectionAnchor s) as [a|] eqn:Ha; cbn [default].
  - destruct s. cbn in *. by subst.
  - done.
Qed.

(** *** Identifiers of parsed events *)

Lemma pretty_N_go_no_dash x : ∀ s, no_dash s → no_dash (pretty_N_go x s).
Proof.
  induction (N.lt_wf_0 x) as [x _ IH]. intros s Hs.
  assert (x = 0 ∨ 0 < x)%N as [->|Hx] by lia.
  - by rewrite pretty_N_go_0.
  - rewrite pretty_N_go_step by done. apply IH.
    { by apply N.div_lt. }
    split; [|done]. unfold pretty_N_char. by repeat case_match.
Qed.

Lemma pretty_nat_no_dash (n : nat) : no_dash (pretty n).
Proof.
  unfold pretty, pretty_nat, pretty, pretty_N. case_decide.
  - done.
  - by apply pretty_N_go_no_dash.
Qed.

Lemma dash_prefix_inj s1 : ∀ s2 r1 r2,
  no_dash s1 → no_dash s2 →
  s1 +:+ String "-" r1 = s2 +:+ String "-" r2 → s1 = s2.
Proof.
  induction s1 as [|c s1 IH]; intros [|c' s2] r1 r2 H1 H2 H; cbn in *.
  - done.
  - injection H as H _. destruct H2 as [H2 _]. by subst.
  - injection H as H _. destruct H1 as [H1 _]. by subst.
  - injection H as -> H. f_equal. destruct H1, H2. by eapply IH.
Qed.

Lemma parsed_id_inj i j e e' : parsed_id i e = parsed_id j e' → i = j.
Proof.
  unfold parsed_id. intros H.
  apply dash_prefix_inj in H; try apply pretty_nat_no_dash.
  by apply pretty_nat_inj in H.
Qed.

Lemma createEditorEvents_NoDup es :
  NoDup (map EditorEvent.id (createEditorEvents es)).
Proof.
  apply NoDup_alt. intros i j x. rewrite createEditorEvents_imap.
  rewrite !lookup_map, !list_lookup_imap.
  destruct (es !! i) as [e|]; [|done]. destruct (es !! j) as [e'|]; [|done].
  cbn. intros Hi Hj. injection Hi as <-. injection Hj as Hj.
  by apply parsed_id_inj in Hj.
Qed.

(** *** Exporting and loading again *)

Lemma normalized_times l1 l2 :
  normalized l1 → normalized l2 →
  EditorEvent.delay <$> l1 = EditorEvent.delay <$> l2 →
  EditorEvent.time <$> l1 = EditorEvent.time <$> l2.
Proof.
  intros H1 H2 Hd. apply list_eq. intros i. rewrite !list_lookup_fmap.
  pose proof (f_equal (lookup i) Hd) as Hi. rewrite !list_lookup_fmap in Hi.
  destruct (l1 !! i) as [a|] eqn:Ha, (l2 !! i) as [b|] eqn:Hb; try done.
  cbn. f_equal.
  rewrite <- (normalized_lookup l1 i a H1 Ha).
  rewrite <- (normalized_lookup l2 i b H2 Hb).
  unfold placed. cbn. f_equal. apply delay_total_ext.
  by rewrite !fmap_take, !fmap_drop, Hd.
Qed.

Lemma exportRec_parse s :
  normalized (S.events s) → S.events s ≠ [] →
  ∃ bytes parsed,
    exportRec s = Some bytes
    ∧ parseRec bytes = inr parsed
    ∧ EditorEvent.delay <$> createEditorEvents (RecParser.events parsed)
      = EditorEvent.delay <$> S.events s
    ∧ EditorEvent.time <$> createEditorEvents (RecParser.events parsed)
      = EditorEvent.time <$> S.events s.
Proof.
  intros Hn Hne.
  destruct (parseRec_encodeRec (map encodable (S.events s))
              (Some (JS.Int (S.baseTime s)))) as (r & Hr & Hlen & _ & Hat).
  exists (encodeRec (map encodable (S.events s)) (Some (JS.Int (S.baseTime s)))), r.
  split.
  { unfold exportRec. rewrite decide_False; [done|].
    by destruct (S.events s). }
  split; [done|].
  assert (EditorEvent.delay <$> createEditorEvents (RecParser.events r)
          = EditorEvent.delay <$> S.events s) as Hd.
  { apply list_eq. intros i.
    rewrite createEditorEvents_imap, !list_lookup_fmap, list_lookup_imap.
    rewrite length_map in Hlen.
    destruct (S.events s !! i) as [ev|] eqn:Hev.
    - destruct (Hat i (encodable ev)) as (e' & He' & _ & _ & _ & _ & Hdelay).
      { by rewrite lookup_map, Hev. }
      rewrite He'. cbn. f_equal. rewrite Hdelay.
      destruct (normalized_delay _ _ _ Hn Hev) as [Hd _].
      destruct i as [|j]; [by rewrite Hd|].
      rewrite decide_False in Hd by done. cbn [encodable EncodableEvent.delay].
      rewrite Hd at 1 2.
      destruct (sanitizeDelay_value (EditorEvent.delay ev)) as [_ Hrange].
      rewrite CodecFacts.toUint32_Int_small; [done|].
      unfold RecParser.UINT32_MAX, RecEditor.UINT32_MAX in *. lia.
    - apply lookup_ge_None in Hev.
      rewrite (proj2 (lookup_ge_None (RecParser.events r) i)); [done|lia]. }
  split; [done|].
  apply normalized_times; [|done|done].
  by eapply parseRec_events_normalized.
Qed.

(** *** Selecting everything and deleting it *)

Lemma map_id_nil (l : list EditorEvent.t) :
  map EditorEvent.id l = [] → l = [].
Proof. by destruct l. Qed.

Lemma filter_none_ids (l : list EditorEvent.t) :
  List.filter (fun x => negb (bool_decide (x ∈ event_ids l)))
    (map EditorEvent.id l) = [].
Proof.
  assert (∀ ids : list string,
            (∀ x, x ∈ ids → x ∈ event_ids l) →
            List.filter (fun x => negb (bool_decide (x ∈ event_ids l))) ids = [])
    as H.
  { induction ids as [|x ids IH]; intros Hall; [done|]. cbn.
    rewrite bool_decide_eq_true_2 by (apply Hall, list_elem_of_here). cbn.
    apply IH. intros y Hy. by apply Hall, list_elem_of_further. }
  apply H. intros x Hx. unfold event_ids. by apply elem_of_list_to_set.
Qed.

Lemma deleteSelected_selectAll s :
  S.events s ≠ [] →
  S.events (deleteSelected (selectAll s)) = []
  ∧ S.history (deleteSelected (selectAll s))
    = push_limited (S.history s) (S.events s)
  ∧ S.selectedIds (deleteSelected (selectAll s)) = ∅.
Proof.
  intros Hne.
  assert (S.events (deleteSelected (selectAll s)) = []) as He.
  { apply map_id_nil. rewrite deleteSelected_ids. cells.
    apply filter_none_ids. }
  split; [done|].
  destruct (deleteSelected_changed (selectAll s)) as (Hs & _ & Hh & _).
  { rewrite He. cells. done. }
  split; [by rewrite Hh|done].
Qed.

(** *** What a merge appends, field by field *)

Lemma parsed_chain buffer parsed :
  parseRec buffer = inr parsed →
  tt_chain 0 (RecParser.events parsed)
  ∧ ∀ d, RecParser.events parsed !! 0%nat = Some d →
         TinyTaskEvent.delay d = 0 ∧ TinyTaskEvent.time d = 0.
Proof.
  intros Hp.
  destruct (decide (length buffer `mod` RECORD_BYTE_LENGTH = 0)%nat) as [Hm|Hm];
    [|by rewrite (parseRec_bad_length buffer Hm) in Hp].
  rewrite (CodecFacts.parseRec_ok buffer Hm) in Hp.
  apply (inj inr) in Hp. subst parsed. cbn [RecParser.events].
  pose proof (decoded_events_chain (length buffer `div` RECORD_BYTE_LENGTH) 0 0 0
                buffer ltac:(unfold RecParser.UINT32_MAX; lia)) as Hc.
  rewrite decide_True in Hc by done. split; [done|].
  intros d Hd. destruct (length buffer `div` RECORD_BYTE_LENGTH)%nat; [done|].
  cbn in Hd. by injection Hd as <-.
Qed.

Lemma delay_total_app l1 l2 :
  delay_total (l1 ++ l2) = delay_total l1 + delay_total l2.
Proof.
  induction l1 as [|e l1 IH]; [done|].
  unfold delay_total in *. cbn [app foldr]. rewrite IH. lia.
Qed.

(** The delays of a chain add up to its times. *)
Lemma tt_chain_sum ds : ∀ previous (added : list EditorEvent.t) i d,
  tt_chain previous ds →
  (fun e => delay_value (EditorEvent.delay e)) <$> added
  = TinyTaskEvent.delay <$> ds →
  ds !! i = Some d →
  delay_total (take (S i) added) = TinyTaskEvent.time d - previous.
Proof.
  induction ds as [|d0 ds IH]; intros previous added i d Hc Hd Hi; [done|].
  destruct added as [|a added]; [done|]. cbn in Hd. injection Hd as Ha Hd.
  destruct Hc as (Ht & _ & Hc). cbn [take delay_total foldr].
  fold (delay_total (take i added)). destruct i as [|i].
  - cbn in Hi. injection Hi as <-. rewrite take_0. cbn. lia.
  - cbn in Hi. rewrite (IH _ _ _ _ Hc Hd Hi). lia.
Qed.

Lemma normalized_end_time events :
  normalized events →
  end_time events = JS.Int (delay_total (drop 1 events)).
Proof.
  intros Hn. unfold end_time. destruct (last events) as [p|] eqn:Hl.
  - rewrite last_lookup in Hl.
    rewrite <- (normalized_lookup _ _ _ Hn Hl). unfold placed. cbn.
    rewrite take_ge; [done|]. rewrite length_drop. lia.
  - apply last_None in Hl. by subst.
Qed.

Lemma mergeFile_lookup_content clock random file s parsed i d :
  parseRec (arrayBuffer file) = inr parsed →
  RecParser.events parsed !! i = Some d →
  ∃ e,
    S.events (mergeFile clock random file s) !! (length (S.events s) + i)%nat
    = Some e
    ∧ EditorEvent.id e = new_id clock random i
    ∧ EditorEvent.message e = JS.Int (TinyTaskEvent.message d)
    ∧ EditorEvent.paramL e = JS.Int (TinyTaskEvent.paramL d)
    ∧ EditorEvent.paramH e = JS.Int (TinyTaskEvent.paramH d)
    ∧ EditorEvent.hwnd e = JS.Int (TinyTaskEvent.hwnd d)
    ∧ EditorEvent.delay e = JS.Int (TinyTaskEvent.delay d)
    ∧ (normalized (S.events s) →
       EditorEvent.time e
       = JS.add (end_time (S.events s)) (JS.Int (TinyTaskEvent.time d))).
Proof.
  intros Hp Hd.
  destruct (mergeFile_ok clock random file s parsed Hp) as (Hev & _).
  cbv zeta in Hev. rewrite Hev. clear Hev.
  destruct (parsed_chain _ _ Hp) as [Hchain Hfirst].
  set (added := imap _ _).
  assert (∀ j x, RecParser.events parsed !! j = Some x →
            ∃ a, added !! j = Some a
              ∧ EditorEvent.id a = new_id clock random j
              ∧ EditorEvent.message a = JS.Int (TinyTaskEvent.message x)
              ∧ EditorEvent.paramL a = JS.Int (TinyTaskEvent.paramL x)
              ∧ EditorEvent.paramH a = JS.Int (TinyTaskEvent.paramH x)
              ∧ EditorEvent.hwnd a = JS.Int (TinyTaskEvent.hwnd x)
              ∧ EditorEvent.delay a = JS.Int (TinyTaskEvent.delay x)) as Hadded.
  { intros j x Hx. subst added.
    rewrite list_lookup_imap, lookup_map, createEditorEvents_imap,
      list_lookup_imap, Hx.
    eexists. split; [done|]. cbn. repeat (split; [done|]).
    case_decide as Hj; [|done]. subst j.
    destruct (Hfirst x Hx) as [-> _]. done. }
  assert (∀ x, 0 ≤ TinyTaskEvent.delay x < RecParser.UINT32_MAX →
            delay_value (JS.Int (TinyTaskEvent.delay x)) = TinyTaskEvent.delay x)
    as Hvalue.
  { intros x Hx. apply delay_value_Int.
    unfold RecParser.UINT32_MAX, RecEditor.UINT32_MAX in *. lia. }
  assert (∀ j x, RecParser.events parsed !! j = Some x →
            0 ≤ TinyTaskEvent.delay x < RecParser.UINT32_MAX) as Hrange.
  { intros j x Hx.
    destruct ((0 :: (TinyTaskEvent.time <$> RecParser.events parsed)) !! j)
      as [p|] eqn:Hpj.
    - by destruct (tt_chain_lookup _ _ Hchain j p x Hpj Hx).
    - apply lookup_ge_None in Hpj. apply lookup_lt_Some in Hx.
      cbn in Hpj. rewrite length_fmap in Hpj. lia. }
  assert ((fun e => delay_value (EditorEvent.delay e)) <$> added
          = TinyTaskEvent.delay <$> RecParser.events parsed) as Hdelays.
  { apply list_eq. intros j. rewrite !list_lookup_fmap.
    destruct (RecParser.events parsed !! j) as [x|] eqn:Hx.
    - destruct (Hadded j x Hx) as (a & -> & _ & _ & _ & _ & _ & Ha). cbn.
      rewrite Ha, Hvalue; [done|]. by eapply Hrange.
    - apply lookup_ge_None in Hx.
      rewrite (proj2 (lookup_ge_None added j)); [done|].
      subst added.
      by rewrite length_imap, length_map, length_createEditorEvents. }
  destruct (Hadded i d Hd) as (a & Ha & Hid & Hm & Hl & Hh & Hw & Hdelay).
  rewrite recomputeTimeline_lookup, lookup_app_r by lia.
  replace (length (S.events s) + i - length (S.events s))%nat with i by lia.
  rewrite Ha. cbn [fmap option_fmap option_map].
  eexists. split; [done|]. unfold placed.
  cbn [EditorEvent.with_delay_time EditorEvent.id EditorEvent.message
       EditorEvent.paramL EditorEvent.paramH EditorEvent.hwnd
       EditorEvent.delay EditorEvent.time].
  repeat (split; [done|]). split.
  - rewrite Hdelay. f_equal. rewrite Hvalue by (by eapply Hrange).
    case_decide as H0; [|done].
    assert (i = 0%nat) as -> by lia. by destruct (Hfirst d Hd) as [-> _].
  - intros Hn. rewrite (normalized_end_time _ Hn), add_Int. f_equal.
    pose proof (tt_chain_sum _ 0 added i d Hchain Hdelays Hd) as Hsum.
    destruct (S.events s) as [|p0 ps] eqn:Hs.
    + cbn [length Nat.add app drop delay_total foldr].
      destruct added as [|a0 rest] eqn:Hadd; [done|].
      cbn [drop take delay_total foldr] in *.
      fold (delay_total (take i rest)) in Hsum.
      assert (delay_value (EditorEvent.delay a0) = 0) as H0.
      { destruct (RecParser.events parsed) as [|x0 xs] eqn:Hx; [done|].
        cbn in Hdelays. injection Hdelays as -> _.
        by destruct (Hfirst x0 eq_refl) as [-> _]. }
      rewrite H0 in Hsum. rewrite drop_0. lia.
    + cbn [app drop length]. rewrite !drop_0.
      replace (S (length ps) + i)%nat with (length ps + S i)%nat by lia.
      rewrite take_app_add, delay_total_app, Hsum. lia.
Qed.

(** *** Identifiers of inserted events *)

Lemma pretty_N_no_dash (n : N) : no_dash (pretty n).
Proof.
  unfold pretty, pretty_N. case_decide.
  - done.
  - by apply pretty_N_go_no_dash.
Qed.

Lemma new_id_inj clock random i clock0 random0 j :
  new_id clock random i = new_id clock0 random0 j
  ↔ clock i = clock0 j ∧ i = j ∧ random i = random0 j.
Proof.
  split.
  - unfold new_id. intros H. apply String.app_inj in H.
    pose proof H as Hc.
    apply dash_prefix_inj in Hc; try apply pretty_N_no_dash.
    apply pretty_N_inj in Hc. rewrite Hc in H.
    do 2 apply String.app_inj in H.
    pose proof H as Hi.
    apply dash_prefix_inj in Hi; try apply pretty_nat_no_dash.
    apply pretty_nat_inj in Hi. subst j.
    by do 2 apply String.app_inj in H.
  - unfold new_id. by intros (-> & <- & ->).
Qed.

End EditorMore.

(** * The specification's claims *)

Module StringFacts.

Lemma length_app (s1 s2 : string) :
  String.length (s1 +:+ s2) = (String.length s1 + String.length s2)%nat.
Proof. induction s1 as [|c s1 IH]; simpl; [done|]. by rewrite IH. Qed.

Lemma app_inv_tail (t : string) : ∀ s1 s2, s1 +:+ t = s2 +:+ t → s1 = s2.
Proof.
  induction s1 as [|c s1 IH]; intros [|c' s2] H.
  - done.
  - apply (f_equal String.length) in H.
    rewrite !length_app in H. simpl in H. lia.
  - apply (f_equal String.length) in H.
    rewrite !length_app in H. simpl in H. lia.
  - simpl in H. injection H as -> H. f_equal. by apply IH.
Qed.

(** The message of the thrown error determines the length it reports. *)
Lemma size_error_inj n m :
  RecParser.size_error n = RecParser.size_error m → n = m.
Proof.
  unfold RecParser.size_error. intros H.
  apply String.app_inj in H. apply app_inv_tail in H.
  by apply pretty_nat_inj in H.
Qed.

End StringFacts.

Section Claims.
Import RecEditor EditorSpec EditorFacts.

(** C1. Round trip: for every byte buffer whose length is a multiple of
    20, decoding succeeds, and encoding the decoded events with the decoded
    baseTime gives back the buffer, byte for byte. *)
Theorem parse_encode_roundtrip (b : list byte) :
  (length b `mod` 20 = 0)%nat →
  ∃ r, RecParser.parseRec b = inr r
       ∧ RecParser.encodeRec (RecParser.cloneAsEncodable (RecParser.events r))
           (Some (JS.Int (RecParser.baseTime r))) = b.
Proof.
  intros Hmod. eexists. split; [by apply CodecFacts.parseRec_ok|].
  cbn [RecParser.events RecParser.baseTime].
  rewrite CodecFacts.encodeRec_spec. cbn [default].
  remember (length b `div` RecParser.RECORD_BYTE_LENGTH)%nat as count eqn:Hcnt.
  assert (length b = (count * RecParser.RECORD_BYTE_LENGTH)%nat) as Hlen.
  { subst count. unfold RecParser.RECORD_BYTE_LENGTH in *.
    pose proof (Nat.div_mod_eq (length b) 20). lia. }
  pose proof (CodecFacts.getUint32_range b 12).
  destruct count as [|n] eqn:Hcount.
  - by destruct b.
  - unfold id.
    rewrite CodecFacts.toUint32_Int_small by (unfold RecParser.UINT32_MAX; lia).
    apply CodecFacts.encoded_decoded; [done|done|done].
Qed.

Lemma parse_encode_roundtrip_witness :
  (length sample_recording `mod` 20 = 0)%nat
  ∧ ∃ r, RecParser.parseRec sample_recording = inr r
         ∧ RecParser.encodeRec (RecParser.cloneAsEncodable (RecParser.events r))
             (Some (JS.Int (RecParser.baseTime r))) = sample_recording.
Proof.
  split; [reflexivity|].
  apply (parse_encode_roundtrip sample_recording). reflexivity.
Defined.

(** C2. An event list whose second delay is -5, encoded from baseTime 10:
    the first record carries timestamp 10, and the second carries 5, that
    is (10 + 2^32 - 5) mod 2^32, where a delay sanitised to 0 would give 10.
    [toUint32] has already wrapped the negative delay when [Math.max(0, ...)]
    sees it; the editor's [sanitizeDelay] does turn -5 into 0. *)
Theorem encodeRec_negative_delay_wraps :
  let bytes := RecParser.encodeRec negative_delay_events (Some (JS.Int 10)) in
  DataView.getUint32 bytes 12 = 10
  ∧ DataView.getUint32 bytes 32 = 5
  ∧ RecParser.toUint32 (JS.Int (-5)) = 2 ^ 32 - 5
  ∧ sanitizeDelay (JS.Int (-5)) = JS.Int 0.
Proof. vm_compute. done. Qed.

(** C3. In every state the hook reaches from its initial state, whatever
    the commands (load, merge, delay edit, remove, insert, batch edits,
    reset, selection, undo, redo), the working sequence has
    time[0] = 0 = delay[0] and, for every i > 0,
    time[i] = time[i-1] + delay[i] and time[i] >= time[i-1]; and every
    command either leaves the working sequence as it is or installs an
    output of [recomputeTimeline]. *)
Theorem timeline_invariant (cs : list command) :
  let s := run cs initial in
  timeline_ok (S.events s)
  ∧ ∀ c, S.events (exec c s) = S.events s
         ∨ ∃ l, S.events (exec c s) = recomputeTimeline l.
Proof.
  split; [|intros c; apply exec_events].
  apply normalized_ok, run_normalized, initial_normalized.
Qed.

(** C4. From any reachable state, after n <= 50 mutations (edit commands
    that each change the working sequence), n undos bring the working
    sequence back to what it was before them, and n redos then bring back
    the sequence the mutations had produced; an undo with an empty history
    changes nothing. *)
Theorem undo_redo_inverse (cs0 cs : list command) :
  let s := run cs0 initial in
  mutations cs s →
  (length cs ≤ HISTORY_LIMIT)%nat →
  let n := length cs in
  S.events (Nat.iter n undo (run cs s)) = S.events s
  ∧ S.events (Nat.iter n redo (Nat.iter n undo (run cs s)))
    = S.events (run cs s)
  ∧ ∀ t, S.history t = [] → undo t = t.
Proof.
  intros s Hm Hlen n.
  destruct (undo_redo_run cs s) as [H1 H2]; try done.
  { apply run_normalized, initial_normalized. }
  split; [done|]. split; [done|]. apply undo_empty.
Qed.

Lemma undo_redo_inverse_witness :
  let cs0 := [LoadFile sample_file] in
  let cs := [UpdateDelay "1-32-513-257-196610" (JS.Int 100);
             RemoveEvent "0-0-512-1-2"] in
  let s := run cs0 initial in
  mutations cs s
  ∧ (length cs ≤ HISTORY_LIMIT)%nat
  ∧ S.events (Nat.iter 2 undo (run cs s)) = S.events s
  ∧ S.events (Nat.iter 2 redo (Nat.iter 2 undo (run cs s)))
    = S.events (run cs s).
Proof.
  intros cs0 cs s.
  assert (mutations cs s) as Hm.
  { repeat split; try (intros H; vm_compute in H; discriminate H). }
  assert (length cs ≤ HISTORY_LIMIT)%nat as Hlen by (vm_compute; lia).
  split; [exact Hm|]. split; [exact Hlen|].
  destruct (undo_redo_inverse cs0 cs Hm Hlen) as (H1 & H2 & _).
  split; [exact H1|exact H2].
Defined.

(** C5. A Load or a Merge of a file whose length is not a multiple of 20
    fails: Load returns nothing, both record the codec's message in the
    error cell, and the baseline, the working sequence, both stacks, the
    selection, the dirty flag and the base time are as before. No other
    command touches the error cell. *)
Theorem malformed_file_leaves_store (file : File) (s : S.t)
    (clock : nat → N) (random : nat → string) :
  (length (arrayBuffer file) `mod` 20 ≠ 0)%nat →
  let message := RecParser.size_error (length (arrayBuffer file)) in
  let unchanged (s' : S.t) :=
    S.error s' = Some message
    ∧ S.initialEvents s' = S.initialEvents s
    ∧ S.events s' = S.events s
    ∧ S.history s' = S.history s
    ∧ S.future s' = S.future s
    ∧ S.selectedIds s' = S.selectedIds s
    ∧ S.isDirty s' = S.isDirty s
    ∧ S.baseTime s' = S.baseTime s in
  snd (loadFile file s) = None
  ∧ unchanged (fst (loadFile file s))
  ∧ unchanged (mergeFile clock random file s)
  ∧ ∀ c, reads_file c = false → S.error (exec c s) = S.error s.
Proof.
  intros Hlen message unchanged. subst unchanged. cbv beta.
  rewrite loadFile_bad_length, mergeFile_bad_length by done.
  split; [done|]. split; [done|]. split; [done|].
  intros c. apply exec_error.
Qed.

Lemma malformed_file_leaves_store_witness :
  let s := run [LoadFile sample_file] initial in
  (length (arrayBuffer truncated_file) `mod` 20 ≠ 0)%nat
  ∧ snd (loadFile truncated_file s) = None
  ∧ S.events (fst (loadFile truncated_file s)) = S.events s
  ∧ S.error (fst (loadFile truncated_file s))
    = Some "Unexpected .rec size: 30 bytes is not a multiple of 20.".
Proof.
  intros s.
  assert (length (arrayBuffer truncated_file) `mod` 20 ≠ 0)%nat as Hlen
    by (vm_compute; lia).
  split; [exact Hlen|].
  destruct (malformed_file_leaves_store truncated_file s (fun _ => 0%N)
              (fun _ => "") Hlen) as (H1 & (H2 & _ & H3 & _) & _).
  split; [exact H1|]. split; [exact H3|]. exact H2.
Defined.

(** C6, as the code has it. [updateDelay] sanitises the value (a negative
    or non-finite value gives 0, -5 gives 0, 1e20 gives 2^32 - 1). After it,
    every event with the given id that is not the first of the sequence has
    the sanitised value as its delay, while the first event's delay is 0
    whatever the value. When no event has the id, or every event that has it
    already has the sanitised delay, the state is unchanged: no history
    entry, the dirty flag as before. *)
Theorem updateDelay_sets_later_events (s : S.t) (id : string)
    (value : JS.number) :
  (sanitizeDelay (JS.Int (-5)) = JS.Int 0
   ∧ sanitizeDelay (JS.Int (10 ^ 20)) = JS.Int (2 ^ 32 - 1))
  ∧ (JS.isFinite value = false ∨ JS.lt value (JS.Int 0) = true →
     sanitizeDelay value = JS.Int 0)
  ∧ (∀ i e, (0 < i)%nat →
            S.events (updateDelay id value s) !! i = Some e →
            EditorEvent.id e = id →
            JS.strict_eq (EditorEvent.delay e) (sanitizeDelay value) = true
            ∧ (normalized (S.events s) →
               EditorEvent.delay e = sanitizeDelay value))
  ∧ (normalized (S.events s) →
     ∀ e, S.events (updateDelay id value s) !! 0%nat = Some e →
          EditorEvent.delay e = JS.Int 0)
  ∧ ((∀ e, e ∈ S.events s → EditorEvent.id e = id →
           JS.strict_eq (EditorEvent.delay e) (sanitizeDelay value) = true) →
     updateDelay id value s = s).
Proof.
  split; [by vm_compute|]. split.
  { intros [H|H]; unfold sanitizeDelay; rewrite H; [done|].
    by rewrite orb_true_r. }
  split.
  { intros i e Hi He Hid.
    pose proof (updateDelay_delay id value s i e Hi He Hid) as Heq.
    split; [done|]. intros Hn.
    pose proof (exec_normalized (UpdateDelay id value) s Hn) as Hn'.
    cbn [exec] in Hn'. unfold normalized in Hn'. rewrite <- Hn' in He.
    apply recompute_from_lookup in He as (ev & _ & _ & Hd).
    rewrite decide_False in Hd by lia.
    destruct (sanitizeDelay_range (EditorEvent.delay ev)) as (z & Hz & _).
    destruct (sanitizeDelay_range value) as (z' & Hz' & _).
    rewrite Hd, Hz, Hz' in *.
    unfold JS.strict_eq, JS.Int in Heq. apply Qeq_bool_iff in Heq.
    rewrite inject_Z_injective in Heq. by subst. }
  split; [|apply updateDelay_noop].
  intros Hn e He.
  pose proof (exec_normalized (UpdateDelay id value) s Hn) as Hn'.
  by apply (normalized_ok _ Hn').
Qed.

Lemma updateDelay_sets_later_events_witness :
  let s := run [LoadFile sample_file] initial in
  let id := "1-32-513-257-196610" in
  let e := EditorEvent.mk id (JS.Int 513) (JS.Int 257) (JS.Int 196610)
             (JS.Int (2 ^ 32 - 1)) (JS.Int (2 ^ 32 - 1)) (JS.Int 7) in
  (0 < 1)%nat
  ∧ S.events (updateDelay id (JS.Int (10 ^ 20)) s) !! 1%nat = Some e
  ∧ EditorEvent.id e = id
  ∧ normalized (S.events s)
  ∧ EditorEvent.delay e = sanitizeDelay (JS.Int (10 ^ 20)).
Proof.
  intros s id e.
  assert (0 < 1)%nat as Hi by lia.
  assert (S.events (updateDelay id (JS.Int (10 ^ 20)) s) !! 1%nat = Some e)
    as He by (by vm_compute).
  assert (EditorEvent.id e = id) as Hid by reflexivity.
  assert (normalized (S.events s)) as Hn by (by vm_compute).
  repeat (split; [assumption|]).
  destruct (updateDelay_sets_later_events s id (JS.Int (10 ^ 20)))
    as (_ & _ & H & _).
  exact (proj2 (H 1%nat e Hi He Hid) Hn).
Defined.

(** C6 as stated fails on the first event of a sequence: setting its
    delay to 1e20 leaves it at 0, not at 2^32 - 1. *)
Lemma updateDelay_first_event_counterexample :
  let s := run [LoadFile sample_file] initial in
  let id := "0-0-512-1-2" in
  let s' := updateDelay id (JS.Int (10 ^ 20)) s in
  sanitizeDelay (JS.Int (10 ^ 20)) = JS.Int (2 ^ 32 - 1)
  ∧ ∃ e, S.events s' !! 0%nat = Some e
         ∧ EditorEvent.id e = id
         ∧ EditorEvent.delay e = JS.Int 0
         ∧ EditorEvent.delay e ≠ JS.Int (2 ^ 32 - 1).
Proof.
  split; [by vm_compute|].
  eexists. split; [by vm_compute|]. split; [done|]. split; [done|].
  intros H. vm_compute in H. discriminate H.
Qed.

(** C7, as the code has it. A merge of a well-sized file appends the
    decoded events after the current ones, which stay in place. The
    appended event number i carries the message, the parameters, the window
    handle and the delay of the decoded event number i (the first decoded
    delay is 0, so the entry delay is 0), and its time is the decoded time
    shifted by the end time of the current sequence. It gets the id
    [new-<clock>-<i>-<random>], which differs from every id that
    [createEditorEvents] gives a parsed event, and equals another inserted
    id exactly when the clock reading, the position in the batch and the
    random draw are all the same. So the appended ids are not ids of the
    working sequence when that sequence holds only events that came from
    parsed files (whether or not the two files yield the same parsed ids)
    and events inserted under another clock reading, position or draw. *)
Theorem merge_appends_with_new_ids (clock : nat → N) (random : nat → string)
    (file : File) (s : S.t) (parsed : RecParser.ParseResult) :
  RecParser.parseRec (arrayBuffer file) = inr parsed →
  let s' := mergeFile clock random file s in
  let n := length (S.events s) in
  length (S.events s') = (n + length (RecParser.events parsed))%nat
  ∧ (normalized (S.events s) → take n (S.events s') = S.events s)
  ∧ (∀ e, S.events s' !! n = Some e → EditorEvent.delay e = JS.Int 0)
  ∧ (∀ i d, RecParser.events parsed !! i = Some d →
       ∃ e, S.events s' !! (n + i)%nat = Some e
         ∧ EditorEvent.message e = JS.Int (RecParser.TinyTaskEvent.message d)
         ∧ EditorEvent.paramL e = JS.Int (RecParser.TinyTaskEvent.paramL d)
         ∧ EditorEvent.paramH e = JS.Int (RecParser.TinyTaskEvent.paramH d)
         ∧ EditorEvent.hwnd e = JS.Int (RecParser.TinyTaskEvent.hwnd d)
         ∧ EditorEvent.delay e = JS.Int (RecParser.TinyTaskEvent.delay d)
         ∧ (normalized (S.events s) →
            EditorEvent.time e
            = JS.add (Timeline.end_time (S.events s))
                (JS.Int (RecParser.TinyTaskEvent.time d))))
  ∧ (∀ i e, S.events s' !! (n + i)%nat = Some e →
            EditorEvent.id e = new_id clock random i
            ∧ (∀ index event, EditorEvent.id e ≠ parsed_id index event)
            ∧ (∀ clock0 random0 j,
                 EditorEvent.id e = new_id clock0 random0 j
                 ↔ clock i = clock0 j ∧ i = j ∧ random i = random0 j)
            ∧ ((∀ x, x ∈ event_ids (S.events s) →
                     (∃ index event, x = parsed_id index event)
                     ∨ (∃ clock0 random0 j,
                          x = new_id clock0 random0 j
                          ∧ ¬ (clock i = clock0 j ∧ i = j
                               ∧ random i = random0 j))) →
               EditorEvent.id e ∉ event_ids (S.events s))).
Proof.
  intros Hp s' n. subst s' n.
  split; [by eapply mergeFile_length|].
  split; [by eapply mergeFile_prefix|].
  split.
  { intros e He. rewrite <- (Nat.add_0_r (length _)) in He.
    by apply (mergeFile_lookup_added _ _ _ _ _ _ _ Hp He). }
  split.
  { intros i d Hd.
    destruct (EditorMore.mergeFile_lookup_content clock random file s parsed
                i d Hp Hd) as (e & He & _ & Hrest).
    by exists e. }
  intros i e He.
  destruct (mergeFile_lookup_added _ _ _ _ _ _ _ Hp He) as [Hid _].
  split; [done|]. rewrite Hid. split; [|split].
  - intros index event. apply new_id_parsed_id.
  - intros clock0 random0 j. apply EditorMore.new_id_inj.
  - intros Hall Hin.
    destruct (Hall _ Hin) as [(index & event & Heq)
                             |(clock0 & random0 & j & Heq & Hne)].
    + by apply new_id_parsed_id in Heq.
    + by apply EditorMore.new_id_inj in Heq.
Qed.

Lemma merge_appends_with_new_ids_witness :
  let clock := fun _ : nat => 1000%N in
  let random := fun _ : nat => "0.5" in
  let s := run [LoadFile sample_file] initial in
  let s' := mergeFile clock random sample_file s in
  (∃ parsed, RecParser.parseRec (arrayBuffer sample_file) = inr parsed)
  ∧ length (S.events s') = 4%nat
  ∧ (∀ e, S.events s' !! 2%nat = Some e → EditorEvent.delay e = JS.Int 0)
  ∧ (∃ e, S.events s' !! 3%nat = Some e
        ∧ EditorEvent.message e = JS.Int 0x201
        ∧ EditorEvent.paramL e = JS.Int 0x101
        ∧ EditorEvent.paramH e = JS.Int 0x30002
        ∧ EditorEvent.hwnd e = JS.Int 7
        ∧ EditorEvent.delay e = JS.Int 0x20)
  ∧ (∀ e, S.events s' !! 3%nat = Some e →
        EditorEvent.id e = "new-1000-1-0.5"
        ∧ EditorEvent.id e ∉ event_ids (S.events s)).
Proof.
  intros clock random s s'.
  destruct (RecParser.parseRec (arrayBuffer sample_file)) as [message|parsed]
    eqn:Hp; [by vm_compute in Hp|].
  split; [by exists parsed|].
  destruct (merge_appends_with_new_ids clock random sample_file s parsed Hp)
    as (Hlen & _ & Hdelay & Hcontent & Hids).
  vm_compute in Hp. injection Hp as <-.
  split; [exact Hlen|]. split; [exact Hdelay|]. split.
  - destruct (Hcontent 1%nat _ eq_refl)
      as (e & He & Hm & Hl & Hh & Hw & Hd & _).
    exists e. split; [exact He|]. split; [exact Hm|]. split; [exact Hl|].
    split; [exact Hh|]. split; [exact Hw|]. exact Hd.
  - intros e He. destruct (Hids 1%nat e He) as (Hid & _ & _ & Hfresh).
    split; [exact Hid|]. apply Hfresh. intros x Hx. left.
    apply elem_of_event_ids in Hx as (ev & Hev & <-).
    apply list_elem_of_lookup in Hev as [k Hk].
    destruct k as [|[|k]]; vm_compute in Hk; [| |discriminate Hk];
      injection Hk as <-.
    + exists 0%nat, (RecParser.TinyTaskEvent.mk 512 1 2 0 0 7). reflexivity.
    + exists 1%nat, (RecParser.TinyTaskEvent.mk 513 257 196610 32 32 7).
      reflexivity.
Defined.

(** C7 as stated fails: a merge made under the clock reading and the
    random draw of an earlier merge gives its events the ids the earlier
    merge left in the sequence. *)
Lemma merge_id_collision_counterexample :
  let clock := fun _ : nat => 1000%N in
  let random := fun _ : nat => "0.5" in
  let s := run [LoadFile sample_file; MergeFile clock random sample_file]
             initial in
  let s' := mergeFile clock random sample_file s in
  ∃ inserted, S.events s' !! (length (S.events s) + 0)%nat = Some inserted
              ∧ EditorEvent.id inserted ∈ event_ids (S.events s).
Proof.
  eexists. split; [vm_compute; reflexivity|].
  apply elem_of_event_ids. eexists. split.
  - apply list_elem_of_lookup. exists 2%nat. vm_compute. reflexivity.
  - reflexivity.
Qed.

(** C8, as the code has it. In every state reached by commands whose
    toggles name events of the working sequence, the selection is a subset
    of the ids of the working sequence; and in a state where it is, removing
    the event with id b from a selection {a, b, c} leaves {a, c}. *)
Theorem selection_within_sequence (cs : list command) :
  well_called_run cs initial →
  selection_ok (run cs initial)
  ∧ ∀ s a b c,
      selection_ok s → S.selectedIds s = {[a; b; c]} → a ≠ b → c ≠ b →
      S.selectedIds (removeEvent b s) = {[a; c]}.
Proof.
  intros Hc. split.
  { apply run_selection_ok; [done|]. unfold selection_ok. cbn. done. }
  intros s a b c Hs Hsel Hab Hcb. unfold selection_ok in Hs. rewrite Hsel in Hs.
  destruct (removeEvent_present b s) as [_ Hr].
  { apply Hs. rewrite !elem_of_union, !elem_of_singleton. tauto. }
  rewrite Hr, Hsel. apply set_eq. intros x.
  rewrite elem_of_filter, !elem_of_union, !elem_of_singleton. split.
  - intros [[_ Hx] [[->| ->]| ->]]; tauto.
  - intros [->| ->]; (split; [split; [|done]|tauto]);
      apply Hs; rewrite !elem_of_union, !elem_of_singleton; tauto.
Qed.

Lemma selection_within_sequence_witness :
  let a := "0-0-512-1-2" in
  let b := "1-32-513-257-196610" in
  let c := "2-32-513-257-196610" in
  let cs := [LoadFile longer_file; ToggleSelection a 0 false false;
             ToggleSelection b 1 false false; ToggleSelection c 2 false false] in
  well_called_run cs initial
  ∧ selection_ok (run cs initial)
  ∧ S.selectedIds (removeEvent b (run cs initial)) = {[a; c]}.
Proof.
  intros a b c cs.
  assert (well_called_run cs initial) as Hc.
  { split; [exact I|].
    split; [|split; [|split; [|exact I]]];
      apply elem_of_event_ids; eexists; (split; [apply list_elem_of_lookup|]).
    - exists 0%nat. vm_compute. reflexivity.
    - reflexivity.
    - exists 1%nat. vm_compute. reflexivity.
    - reflexivity.
    - exists 2%nat. vm_compute. reflexivity.
    - reflexivity. }
  split; [exact Hc|].
  destruct (selection_within_sequence cs Hc) as [Hok Hrm].
  split; [exact Hok|].
  apply Hrm; [exact Hok| |done|done].
  apply set_eq. intros x. vm_compute. tauto.
Defined.

(** C8 as stated fails: a toggle with an id that no event has puts that
    id in the selection. *)
Lemma toggle_absent_id_counterexample :
  let s := run [ToggleSelection "ghost" 0 false false] initial in
  "ghost" ∈ S.selectedIds s ∧ "ghost" ∉ event_ids (S.events s).
Proof. split; [by vm_compute|]. intros H. by vm_compute in H. Qed.

(** C9. Decoding a buffer whose length is not a multiple of 20 returns
    only an error, whose message states that length (two lengths never
    share a message); decoding the empty buffer returns no events and
    baseTime 0. *)
Theorem parseRec_length_check :
  (∀ buffer : list byte,
     (length buffer `mod` 20 ≠ 0)%nat →
     RecParser.parseRec buffer = inl (RecParser.size_error (length buffer)))
  ∧ (∀ n m, RecParser.size_error n = RecParser.size_error m → n = m)
  ∧ RecParser.parseRec [] = inr (RecParser.mkParseResult [] 0 [] 0).
Proof.
  split; [apply parseRec_bad_length|].
  split; [apply StringFacts.size_error_inj|done].
Qed.

Lemma parseRec_length_check_witness :
  (length (take 30 sample_recording) `mod` 20 ≠ 0)%nat
  ∧ RecParser.parseRec (take 30 sample_recording)
    = inl "Unexpected .rec size: 30 bytes is not a multiple of 20.".
Proof.
  assert (length (take 30 sample_recording) `mod` 20 ≠ 0)%nat as Hlen
    by (vm_compute; lia).
  split; [exact Hlen|].
  exact (proj1 parseRec_length_check (take 30 sample_recording) Hlen).
Defined.

(** C10. [recomputeTimeline] is idempotent on every event list; and in
    every reachable state the working sequence and every snapshot on the
    undo and redo stacks is a fixed point of it, so normalising a snapshot
    again on undo or redo returns the snapshot. *)
Theorem normaliser_idempotent :
  (∀ events, recomputeTimeline (recomputeTimeline events)
             = recomputeTimeline events)
  ∧ ∀ cs,
      let s := run cs initial in
      recomputeTimeline (S.events s) = S.events s
      ∧ Forall (fun snapshot => recomputeTimeline snapshot = snapshot)
          (S.history s)
      ∧ Forall (fun snapshot => recomputeTimeline snapshot = snapshot)
          (S.future s).
Proof.
  split; [apply recomputeTimeline_idem|].
  intros cs. apply (run_stacks_normalized cs initial initial_stacks_normalized).
Qed.

End Claims.

(** * The codec beyond the round trip *)

Section CodecCoverage.
Import DataView RecParser CodecSpec CodecFacts Layout CodecMore.

(** X1. [toUint32] maps every number into [0, 2^32): a finite number to its
    truncation modulo 2^32 (the mathematical, non-negative remainder), NaN
    and the infinities to 0; converting twice changes nothing. *)
Theorem toUint32_wraps (value : JS.number) :
  0 ≤ toUint32 value < UINT32_MAX
  ∧ toUint32 value
    = match value with
      | JS.Fin q => JS.trunc q `mod` UINT32_MAX
      | _ => 0
      end
  ∧ toUint32 (JS.Int (toUint32 value)) = toUint32 value.
Proof.
  split; [apply toUint32_range|]. split.
  - destruct value; try done. apply toUint32_Fin.
  - apply toUint32_Int_small, toUint32_range.
Qed.

(** X2. For two 32-bit timestamps [diffUint32] is the forward distance on
    the 2^32 clock: it lies in [0, 2^32), adding it to the previous
    timestamp gives the current one modulo 2^32, and it is the plain
    difference when the clock did not wrap. *)
Theorem diffUint32_recovers (current previous : Z) :
  0 ≤ previous < UINT32_MAX → 0 ≤ current < UINT32_MAX →
  0 ≤ diffUint32 current previous < UINT32_MAX
  ∧ (previous + diffUint32 current previous) `mod` UINT32_MAX = current
  ∧ (previous ≤ current → diffUint32 current previous = current - previous).
Proof.
  intros Hp Hc.
  assert (- UINT32_MAX ≤ current - previous) as Hd by lia.
  split; [by apply diffUint32_range|].
  rewrite diffUint32_mod by done. unfold UINT32_MAX in *. split.
  - rewrite Zplus_mod_idemp_r.
    replace (previous + (current - previous)) with current by lia.
    apply Z.mod_small. lia.
  - intros Hle. apply Z.mod_small. lia.
Qed.

Lemma diffUint32_recovers_witness :
  0 ≤ 0xFFFFFFF0 < UINT32_MAX ∧ 0 ≤ 0x10 < UINT32_MAX
  ∧ diffUint32 0x10 0xFFFFFFF0 = 0x20
  ∧ (0xFFFFFFF0 + diffUint32 0x10 0xFFFFFFF0) `mod` UINT32_MAX = 0x10.
Proof.
  assert (0 ≤ 0xFFFFFFF0 < UINT32_MAX) as Hp by (unfold UINT32_MAX; lia).
  assert (0 ≤ 0x10 < UINT32_MAX) as Hc by (unfold UINT32_MAX; lia).
  split; [exact Hp|]. split; [exact Hc|]. split; [reflexivity|].
  exact (proj1 (proj2 (diffUint32_recovers 0x10 0xFFFFFFF0 Hp Hc))).
Defined.

(** X3. [parseRec] on a buffer of whole records returns one event per 20
    bytes; event [i] carries the little-endian words at offsets 20i, 20i+4,
    20i+8 and 20i+16 as message, paramL, paramH and hwnd; its delay is 0 for
    the first event and otherwise [diffUint32] of the timestamps stored at
    20i+12 and 20(i-1)+12; baseTime is the first stored timestamp (0 for an
    empty buffer). *)
Theorem parseRec_reads_records (buffer : list byte) :
  (length buffer `mod` RECORD_BYTE_LENGTH = 0)%nat →
  ∃ r, parseRec buffer = inr r
    ∧ length (events r) = (length buffer `div` RECORD_BYTE_LENGTH)%nat
    ∧ baseTime r = (if decide (length buffer = 0%nat) then 0
                    else stored_time buffer 0)
    ∧ ∀ i e, events r !! i = Some e →
        TinyTaskEvent.message e = getUint32 buffer (i * 20)
        ∧ TinyTaskEvent.paramL e = getUint32 buffer (i * 20 + 4)
        ∧ TinyTaskEvent.paramH e = getUint32 buffer (i * 20 + 8)
        ∧ TinyTaskEvent.hwnd e = getUint32 buffer (i * 20 + 16)
        ∧ TinyTaskEvent.delay e
          = match i with
            | O => 0
            | S j => diffUint32 (stored_time buffer (S j)) (stored_time buffer j)
            end.
Proof.
  intros Hmod. rewrite (parseRec_ok buffer Hmod). cbn zeta.
  set (count := (length buffer `div` RECORD_BYTE_LENGTH)%nat).
  assert (length buffer = (count * 20)%nat) as Hlen.
  { subst count. unfold RECORD_BYTE_LENGTH in *.
    pose proof (Nat.div_mod_eq (length buffer) 20). lia. }
  eexists. split; [done|]. cbn [events baseTime].
  split; [apply length_decoded_events|]. split.
  - destruct count; [by rewrite decide_True|]. by rewrite decide_False by lia.
  - intros i e He.
    destruct (decoded_events_lookup count 0 0 0 buffer i e Hlen He)
      as (H1 & H2 & H3 & H4 & H5).
    repeat (split; [done|]). rewrite H5. by destruct i.
Qed.

Lemma parseRec_reads_records_witness :
  (length sample_recording `mod` RECORD_BYTE_LENGTH = 0)%nat
  ∧ ∃ r, parseRec sample_recording = inr r
      ∧ length (events r) = 2%nat
      ∧ baseTime r = 0xFFFFFFF0
      ∧ ∀ e, events r !! 1%nat = Some e →
          TinyTaskEvent.message e = 0x201
          ∧ TinyTaskEvent.hwnd e = 7
          ∧ TinyTaskEvent.delay e = 0x20.
Proof.
  assert (length sample_recording `mod` RECORD_BYTE_LENGTH = 0)%nat as Hmod
    by reflexivity.
  split; [exact Hmod|].
  destruct (parseRec_reads_records sample_recording Hmod)
    as (r & Hr & Hlen & Hbase & Hat).
  exists r. split; [exact Hr|]. split; [exact Hlen|]. split; [exact Hbase|].
  intros e He. destruct (Hat 1%nat e He) as (H1 & _ & _ & H4 & H5).
  split; [exact H1|]. split; [exact H4|]. exact H5.
Defined.

(** X4. The timeline [parseRec] returns: the first event has time 0 and
    delay 0, every later event's time is its predecessor's time plus its own
    delay, every delay lies in [0, 2^32), and the duration is the time of
    the last event, which is the sum of all delays. *)
Theorem parseRec_timeline (buffer : list byte) :
  (length buffer `mod` RECORD_BYTE_LENGTH = 0)%nat →
  ∃ r, parseRec buffer = inr r
    ∧ (∀ e, events r !! 0%nat = Some e →
         TinyTaskEvent.time e = 0 ∧ TinyTaskEvent.delay e = 0)
    ∧ (∀ i p e, events r !! i = Some p → events r !! S i = Some e →
         TinyTaskEvent.time e = TinyTaskEvent.time p + TinyTaskEvent.delay e
         ∧ 0 ≤ TinyTaskEvent.delay e < UINT32_MAX)
    ∧ duration r = last_time (events r)
    ∧ duration r = foldr Z.add 0 (TinyTaskEvent.delay <$> events r).
Proof.
  intros Hmod. rewrite (parseRec_ok buffer Hmod). cbn zeta.
  set (count := (length buffer `div` RECORD_BYTE_LENGTH)%nat).
  eexists. split; [done|]. cbn [events duration].
  pose proof (decoded_events_chain count 0 0 0 buffer
                ltac:(unfold UINT32_MAX; lia)) as Hchain.
  rewrite decide_True in Hchain by done.
  split; [|split; [|split; [done|]]].
  - intros e He. destruct count; [done|]. cbn in He. by injection He as <-.
  - intros i p e Hp He.
    apply (tt_chain_lookup _ _ Hchain (S i) (TinyTaskEvent.time p) e);
      [|done].
    cbn [lookup list_lookup]. change (?l !! i) with (lookup i l).
    by rewrite list_lookup_fmap, Hp.
  - pose proof (tt_chain_last _ _ Hchain) as Hl. unfold last_time.
    by rewrite Hl.
Qed.

Lemma parseRec_timeline_witness :
  (length sample_recording `mod` RECORD_BYTE_LENGTH = 0)%nat
  ∧ ∃ r, parseRec sample_recording = inr r ∧ duration r = 0x20.
Proof.
  assert (length sample_recording `mod` RECORD_BYTE_LENGTH = 0)%nat as Hmod
    by reflexivity.
  split; [exact Hmod|].
  destruct (parseRec_timeline sample_recording Hmod)
    as (r & Hr & _ & _ & Hd & _).
  exists r. split; [exact Hr|].
  rewrite Hd. vm_compute in Hr. injection Hr as <-. reflexivity.
Defined.

(** X5. The [hwnds] list of a parsed recording holds every window handle
    that occurs in an event exactly once, in the order of first
    occurrence. *)
Theorem parseRec_hwnds (buffer : list byte) :
  match parseRec buffer with
  | inl _ => (length buffer `mod` RECORD_BYTE_LENGTH ≠ 0)%nat
  | inr r =>
      hwnds r = insertion_order (TinyTaskEvent.hwnd <$> events r)
      ∧ NoDup (hwnds r)
      ∧ ∀ h, h ∈ hwnds r ↔ ∃ e, e ∈ events r ∧ TinyTaskEvent.hwnd e = h
  end.
Proof.
  assert (∀ es : list TinyTaskEvent.t,
            NoDup (insertion_order (TinyTaskEvent.hwnd <$> es))
            ∧ ∀ h, h ∈ insertion_order (TinyTaskEvent.hwnd <$> es)
                   ↔ ∃ e, e ∈ es ∧ TinyTaskEvent.hwnd e = h) as Hspec.
  { intros es.
    destruct (insertion_order_spec (TinyTaskEvent.hwnd <$> es)) as [H1 H2].
    split; [done|]. intros h. rewrite H2, list_elem_of_fmap.
    split; intros (e & Ha & Hb); exists e; done. }
  unfold parseRec. case_decide as H0.
  - cbn [hwnds events]. split; [done|]. apply (Hspec []).
  - case_decide as Hmod; [done|]. cbn zeta. cbn [hwnds events].
    rewrite parse_loop_hwndSet by done. split; [done|]. apply Hspec.
Qed.

(** X6. [encodeRec] writes exactly 20 bytes per event, whatever the field
    values and the base time. *)
Theorem encodeRec_length (es : list EncodableEvent.t)
    (bt : option JS.number) :
  length (encodeRec es bt) = (length es * RECORD_BYTE_LENGTH)%nat.
Proof. apply encodeRec_mod_length. Qed.

(** X7. The record [encodeRec] writes for event [i] holds, at offsets 20i,
    20i+4, 20i+8 and 20i+16, the [toUint32] values of message, paramL,
    paramH and hwnd; the first record's timestamp is the [toUint32] value of
    the base time, 0 when none is given, and the first event's delay is not
    written anywhere. *)
Theorem encodeRec_layout (es : list EncodableEvent.t)
    (bt : option JS.number) (i : nat) (e : EncodableEvent.t) :
  es !! i = Some e →
  getUint32 (encodeRec es bt) (i * 20) = toUint32 (EncodableEvent.message e)
  ∧ getUint32 (encodeRec es bt) (i * 20 + 4)
    = toUint32 (EncodableEvent.paramL e)
  ∧ getUint32 (encodeRec es bt) (i * 20 + 8)
    = toUint32 (EncodableEvent.paramH e)
  ∧ getUint32 (encodeRec es bt) (i * 20 + 16)
    = toUint32 (EncodableEvent.hwnd e)
  ∧ stored_time (encodeRec es bt) 0 = toUint32 (default (JS.Int 0) bt).
Proof.
  intros He. rewrite encodeRec_spec.
  pose proof (toUint32_range (default (JS.Int 0) bt)) as Hb.
  set (b := toUint32 (default (JS.Int 0) bt)) in *.
  destruct (encoded_records_lookup es b 0 b i e He) as (H0 & H4 & H8 & H16).
  repeat (split; [done|]).
  unfold stored_time.
  apply (encoded_records_time es _ 0 _ 0); [done|lia|].
  destruct es; [done|]. done.
Qed.

Lemma encodeRec_layout_witness :
  let e := EncodableEvent.mk (JS.Fin (1029 # 2)) JS.NaN (JS.Int (-1))
             (JS.Int 16) (JS.Int (2 ^ 32 + 3)) in
  mixed_events !! 1%nat = Some e
  ∧ getUint32 (encodeRec mixed_events None) 20 = 514
  ∧ getUint32 (encodeRec mixed_events None) 24 = 0
  ∧ getUint32 (encodeRec mixed_events None) 28 = 2 ^ 32 - 1
  ∧ getUint32 (encodeRec mixed_events None) 36 = 3
  ∧ stored_time (encodeRec mixed_events None) 0 = 0.
Proof.
  intros e.
  assert (mixed_events !! 1%nat = Some e) as He by reflexivity.
  split; [exact He|].
  exact (encodeRec_layout mixed_events None 1 e He).
Defined.

(** X8. The timestamp [encodeRec] writes into record [i] is the base time
    plus the [toUint32] values of the delays of events 1 to [i], modulo
    2^32. *)
Theorem encodeRec_timestamps (es : list EncodableEvent.t)
    (bt : option JS.number) (i : nat) :
  (i < length es)%nat →
  stored_time (encodeRec es bt) i
  = (toUint32 (default (JS.Int 0) bt) + delay_sum (take i (drop 1 es)))
      `mod` UINT32_MAX.
Proof.
  intros Hi. rewrite encodeRec_spec.
  pose proof (toUint32_range (default (JS.Int 0) bt)) as Hb.
  set (b := toUint32 (default (JS.Int 0) bt)) in *.
  destruct (written_times_lookup es b 0 b i Hi) as [t Ht].
  unfold stored_time.
  rewrite (encoded_records_time es b 0 b i t Hb (proj1 Hb) Ht).
  by apply written_times_closed.
Qed.

Lemma encodeRec_timestamps_witness :
  (2 < length mixed_events)%nat
  ∧ stored_time (encodeRec mixed_events (Some (JS.Int 5))) 2 = 20.
Proof.
  assert (2 < length mixed_events)%nat as Hi by (vm_compute; lia).
  split; [exact Hi|].
  exact (encodeRec_timestamps mixed_events (Some (JS.Int 5)) 2 Hi).
Defined.

(** X9. Decoding what [encodeRec] wrote always succeeds and returns, for
    each event, the [toUint32] values of its message, parameters and window
    handle; the delay of the first event comes back as 0 and the delay of
    every later event as its [toUint32] value; baseTime comes back as the
    [toUint32] value of the base time given. *)
Theorem parse_after_encode (es : list EncodableEvent.t)
    (bt : option JS.number) :
  ∃ r, parseRec (encodeRec es bt) = inr r
    ∧ length (events r) = length es
    ∧ baseTime r = (if decide (length es = 0%nat) then 0
                    else toUint32 (default (JS.Int 0) bt))
    ∧ ∀ i e, es !! i = Some e →
        ∃ e', events r !! i = Some e'
          ∧ TinyTaskEvent.message e' = toUint32 (EncodableEvent.message e)
          ∧ TinyTaskEvent.paramL e' = toUint32 (EncodableEvent.paramL e)
          ∧ TinyTaskEvent.paramH e' = toUint32 (EncodableEvent.paramH e)
          ∧ TinyTaskEvent.hwnd e' = toUint32 (EncodableEvent.hwnd e)
          ∧ TinyTaskEvent.delay e'
            = match i with
              | O => 0
              | S _ => toUint32 (EncodableEvent.delay e)
              end.
Proof. apply parseRec_encodeRec. Qed.

End CodecCoverage.

(** * Further properties of the hook's commands *)

Section EditorCoverage.
Import RecEditor NumberFacts EditorSpec EditorFacts Timeline EditorMore.

(** X10. Loading a file of whole records always succeeds and installs the
    parsed events unchanged (they are already a normalised timeline) as the
    working sequence and as the baseline, with the parsed base time and the
    file name; the error, the dirty flag, the selection, the anchor and both
    stacks are cleared, whatever the state was. *)
Theorem loadFile_installs_recording (file : File) (s : S.t) :
  (length (arrayBuffer file) `mod` RecParser.RECORD_BYTE_LENGTH = 0)%nat →
  ∃ parsed,
    RecParser.parseRec (arrayBuffer file) = inr parsed
    ∧ loadFile file s
      = (S.mk (createEditorEvents (RecParser.events parsed))
           (createEditorEvents (RecParser.events parsed))
           (RecParser.baseTime parsed) (Some (name file)) false None false ∅
           None [] [],
         Some (mkLoadResult (name file) (RecParser.baseTime parsed))).
Proof.
  intros Hmod. eexists. split; [by apply CodecFacts.parseRec_ok|].
  apply loadFile_ok. by apply CodecFacts.parseRec_ok.
Qed.

Lemma loadFile_installs_recording_witness :
  (length (arrayBuffer sample_file) `mod` RecParser.RECORD_BYTE_LENGTH = 0)%nat
  ∧ ∃ parsed,
      RecParser.parseRec (arrayBuffer sample_file) = inr parsed
      ∧ S.events (fst (loadFile sample_file initial))
        = createEditorEvents (RecParser.events parsed)
      ∧ S.baseTime (fst (loadFile sample_file initial)) = 0xFFFFFFF0.
Proof.
  assert (length (arrayBuffer sample_file) `mod` RecParser.RECORD_BYTE_LENGTH
          = 0)%nat as Hmod by reflexivity.
  split; [exact Hmod|].
  destruct (loadFile_installs_recording sample_file initial Hmod)
    as (parsed & Hp & Hload).
  exists parsed. split; [exact Hp|]. rewrite Hload. split; [reflexivity|].
  vm_compute in Hp. injection Hp as <-. reflexivity.
Defined.

(** X11. Exporting right after loading a file of whole records gives back
    the bytes of the file; for an empty file there is nothing to export. *)
Theorem export_after_load (file : File) (s : S.t) :
  (length (arrayBuffer file) `mod` RecParser.RECORD_BYTE_LENGTH = 0)%nat →
  exportRec (fst (loadFile file s))
  = if decide (length (arrayBuffer file) = 0%nat) then None
    else Some (arrayBuffer file).
Proof.
  intros Hmod. eapply exportRec_loaded. by apply CodecFacts.parseRec_ok.
Qed.

Lemma export_after_load_witness :
  (length (arrayBuffer longer_file) `mod` RecParser.RECORD_BYTE_LENGTH = 0)%nat
  ∧ exportRec (fst (loadFile longer_file initial))
    = Some (arrayBuffer longer_file).
Proof.
  assert (length (arrayBuffer longer_file) `mod` RecParser.RECORD_BYTE_LENGTH
          = 0)%nat as Hmod by reflexivity.
  split; [exact Hmod|].
  exact (export_after_load longer_file initial Hmod).
Defined.

(** X12. In every state the hook can reach, the undo stack and the redo
    stack together hold at most [HISTORY_LIMIT] snapshots. *)
Theorem stacks_within_limit (cs : list command) :
  (length (S.history (run cs initial)) + length (S.future (run cs initial))
   ≤ HISTORY_LIMIT)%nat.
Proof. apply (run_bounded cs initial initial_bounded). Qed.

(** X13. In a reachable state with something to undo, [redo] after [undo]
    restores the working sequence and both stacks. *)
Theorem redo_after_undo (cs : list command) :
  canUndo (run cs initial) = true →
  S.events (redo (undo (run cs initial))) = S.events (run cs initial)
  ∧ S.history (redo (undo (run cs initial))) = S.history (run cs initial)
  ∧ S.future (redo (undo (run cs initial))) = S.future (run cs initial).
Proof.
  intros Hcan. apply redo_undo.
  - apply run_stacks_normalized, initial_stacks_normalized.
  - apply run_bounded, initial_bounded.
  - intros Hnil. unfold canUndo in Hcan. by rewrite Hnil in Hcan.
Qed.

Lemma redo_after_undo_witness :
  let cs := [LoadFile longer_file; RemoveEvent "1-32-513-257-196610";
             UpdateDelay "2-32-513-257-196610" (JS.Int 40); Undo] in
  canUndo (run cs initial) = true
  ∧ S.future (redo (undo (run cs initial))) = S.future (run cs initial)
  ∧ length (S.future (run cs initial)) = 1%nat.
Proof.
  intros cs.
  assert (canUndo (run cs initial) = true) as Hcan by (by vm_compute).
  split; [exact Hcan|]. split.
  - exact (proj2 (proj2 (redo_after_undo cs Hcan))).
  - by vm_compute.
Defined.

(** X14. In a reachable state with something to redo, [undo] after [redo]
    restores the working sequence and both stacks. *)
Theorem undo_after_redo (cs : list command) :
  canRedo (run cs initial) = true →
  S.events (undo (redo (run cs initial))) = S.events (run cs initial)
  ∧ S.history (undo (redo (run cs initial))) = S.history (run cs initial)
  ∧ S.future (undo (redo (run cs initial))) = S.future (run cs initial).
Proof.
  intros Hcan. apply undo_redo.
  - apply run_stacks_normalized, initial_stacks_normalized.
  - apply run_bounded, initial_bounded.
  - intros Hnil. unfold canRedo in Hcan. by rewrite Hnil in Hcan.
Qed.

Lemma undo_after_redo_witness :
  let cs := [LoadFile longer_file; RemoveEvent "1-32-513-257-196610";
             UpdateDelay "2-32-513-257-196610" (JS.Int 40); Undo] in
  canRedo (run cs initial) = true
  ∧ S.events (undo (redo (run cs initial))) = S.events (run cs initial).
Proof.
  intros cs.
  assert (canRedo (run cs initial) = true) as Hcan by (by vm_compute).
  split; [exact Hcan|].
  exact (proj1 (undo_after_redo cs Hcan)).
Defined.

(** X15. Only [loadFile] writes the baseline: every other command leaves the
    initial events, the base time and the file name as they are. *)
Theorem baseline_kept (c : command) (s : S.t) :
  is_load c = false →
  S.initialEvents (exec c s) = S.initialEvents s
  ∧ S.baseTime (exec c s) = S.baseTime s
  ∧ S.fileName (exec c s) = S.fileName s.
Proof.
  intros Hc. destruct (exec_baseline c s Hc) as [Hb _].
  unfold baseline in Hb. by injection Hb.
Qed.

Lemma baseline_kept_witness :
  let s := run [LoadFile sample_file] initial in
  let c := MergeFile (fun _ => 1000%N) (fun _ => "0.5") longer_file in
  is_load c = false
  ∧ S.initialEvents (exec c s) = S.initialEvents s
  ∧ length (S.events (exec c s)) = 5%nat.
Proof.
  intros s c.
  assert (is_load c = false) as Hc by reflexivity.
  split; [exact Hc|]. split.
  - exact (proj1 (baseline_kept c s Hc)).
  - by vm_compute.
Defined.

(** X16. After a non-empty recording was loaded, [resetChanges] brings the
    hook back to the state the load left, whatever commands (other than
    another load) ran in between; only the error cell keeps its value. *)
Theorem resetChanges_restores_load (file : File) (s0 : S.t)
    (cs : list command) :
  (length (arrayBuffer file) `mod` RecParser.RECORD_BYTE_LENGTH = 0)%nat →
  arrayBuffer file ≠ [] →
  forallb (fun c => negb (is_load c)) cs = true →
  resetChanges (run cs (fst (loadFile file s0)))
  = setError (S.error (run cs (fst (loadFile file s0))))
      (fst (loadFile file s0)).
Proof.
  intros Hmod Hne Hcs.
  pose proof (CodecFacts.parseRec_ok _ Hmod) as Hp. cbv zeta in Hp.
  eapply resetChanges_after_load; [exact Hp| |done].
  cbn [RecParser.events]. intros Hnil.
  apply (f_equal length) in Hnil. rewrite CodecMore.length_decoded_events in Hnil.
  cbn [length] in Hnil. unfold RecParser.RECORD_BYTE_LENGTH in *.
  pose proof (Nat.div_mod_eq (length (arrayBuffer file)) 20) as Hdiv.
  rewrite Hnil, Hmod in Hdiv. by destruct (arrayBuffer file).
Qed.

Lemma resetChanges_restores_load_witness :
  let cs := [RemoveEvent "0-0-512-1-2"; SelectAll;
             ApplyDelayToSelection (JS.Int 5);
             MergeFile (fun _ => 1000%N) (fun _ => "0.5") truncated_file] in
  (length (arrayBuffer longer_file) `mod` RecParser.RECORD_BYTE_LENGTH = 0)%nat
  ∧ arrayBuffer longer_file ≠ []
  ∧ forallb (fun c => negb (is_load c)) cs = true
  ∧ S.events (resetChanges (run cs (fst (loadFile longer_file initial))))
    = S.events (fst (loadFile longer_file initial))
  ∧ length (S.events (run cs (fst (loadFile longer_file initial)))) = 2%nat
  ∧ length (S.events (fst (loadFile longer_file initial))) = 3%nat.
Proof.
  intros cs.
  assert (length (arrayBuffer longer_file) `mod` RecParser.RECORD_BYTE_LENGTH
          = 0)%nat as Hmod by reflexivity.
  assert (arrayBuffer longer_file ≠ []) as Hne by (by vm_compute).
  assert (forallb (fun c => negb (is_load c)) cs = true) as Hcs by reflexivity.
  split; [exact Hmod|]. split; [exact Hne|]. split; [exact Hcs|].
  split; [|split].
  - exact (eq_trans
             (f_equal S.events
                (resetChanges_restores_load longer_file initial cs Hmod Hne Hcs))
             (events_setError _ _)).
  - by vm_compute.
  - by vm_compute.
Defined.

(** X17. [removeEvent] keeps the ids of all other events in their order
    and leaves no event with the given id; when no event has the id it
    changes nothing at all, not even the undo stack. *)
Theorem removeEvent_filters_ids (id : string) (s : S.t) :
  map EditorEvent.id (S.events (removeEvent id s))
  = List.filter (fun x => negb (String.eqb x id))
      (map EditorEvent.id (S.events s))
  ∧ (id ∉ event_ids (S.events (removeEvent id s)))
  ∧ (id ∉ event_ids (S.events s) → removeEvent id s = s).
Proof.
  split; [apply removeEvent_ids|]. split; [|apply removeEvent_absent].
  unfold event_ids. rewrite elem_of_list_to_set, removeEvent_ids.
  intros Hin. apply list_elem_of_In, filter_In in Hin as [_ Hneq].
  by rewrite String.eqb_refl in Hneq.
Qed.

(** X18. [deleteSelected] keeps exactly the events whose id is not
    selected, in their order; when it removes something, the selection and
    the anchor are cleared and the previous sequence goes on the undo
    stack. *)
Theorem deleteSelected_filters_ids (s : S.t) :
  map EditorEvent.id (S.events (deleteSelected s))
  = List.filter (fun x => negb (bool_decide (x ∈ S.selectedIds s)))
      (map EditorEvent.id (S.events s))
  ∧ (S.events (deleteSelected s) ≠ S.events s →
     S.selectedIds (deleteSelected s) = ∅
     ∧ S.selectionAnchor (deleteSelected s) = None
     ∧ S.history (deleteSelected s) = push_limited (S.history s) (S.events s)
     ∧ S.future (deleteSelected s) = []).
Proof. split; [apply deleteSelected_ids|apply deleteSelected_changed]. Qed.

(** X19. [insertEvents] splices the new events in at the index clamped to
    the sequence: the ids before and after the position are kept in order
    and the new events get the ids [new-<clock>-<i>-<random>] in between.
    Every call is committed: the previous sequence goes on the undo stack,
    the redo stack is emptied and the state is marked dirty, even when the
    list of new events is empty. *)
Theorem insertEvents_splices (clock : nat → N) (random : nat → string)
    (index : Z) (newEvents : list EventTemplate) (delayTotal : JS.number)
    (s : S.t) :
  let s' := insertEvents clock random index newEvents delayTotal s in
  let k := clampedIndex index (S.events s) in
  (k ≤ length (S.events s))%nat
  ∧ map EditorEvent.id (S.events s')
    = take k (map EditorEvent.id (S.events s))
      ++ imap (fun i _ => new_id clock random i) newEvents
      ++ drop k (map EditorEvent.id (S.events s))
  ∧ length (S.events s') = (length (S.events s) + length newEvents)%nat
  ∧ S.history s' = push_limited (S.history s) (S.events s)
  ∧ S.future s' = []
  ∧ S.isDirty s' = true.
Proof.
  intros s' k.
  assert (k ≤ length (S.events s))%nat as Hk by (subst k; unfold clampedIndex; lia).
  split; [done|].
  pose proof (insertEvents_ids clock random index newEvents delayTotal s) as Hids.
  cbv zeta in Hids. fold k s' in Hids. split; [done|]. split.
  - apply (f_equal length) in Hids.
    rewrite !length_app, length_map, length_take, length_imap, length_drop,
      length_map in Hids. lia.
  - apply insertEvents_commit.
Qed.

(** X20. A toggle without shift flips the membership of the given id and
    of no other id, so toggling the same id twice gives back the
    selection; the anchor becomes the toggled index, or nothing when the
    selection became empty; the sequence and the stacks are not touched. *)
Theorem toggleSelection_flips (id : string) (index index' : Z)
    (meta meta' : bool) (s : S.t) :
  let s' := toggleSelection id index false meta s in
  (∀ x, x ∈ S.selectedIds s'
        ↔ if decide (x = id) then x ∉ S.selectedIds s
          else x ∈ S.selectedIds s)
  ∧ S.selectedIds (toggleSelection id index' false meta' s') = S.selectedIds s
  ∧ S.selectionAnchor s'
    = (if decide (size (S.selectedIds s') = 0%nat) then None else Some index)
  ∧ S.events s' = S.events s
  ∧ S.history s' = S.history s
  ∧ S.future s' = S.future s.
Proof.
  intros s'.
  assert (∀ t x, x ∈ S.selectedIds (toggleSelection id index false meta t)
                 ↔ if decide (x = id) then x ∉ S.selectedIds t
                   else x ∈ S.selectedIds t) as Hflip.
  { intros t x. unfold toggleSelection. cbn [andb]. cbv zeta. cells.
    destruct (decide (id ∈ S.selectedIds t)) as [Hin|Hin].
    - rewrite elem_of_difference, elem_of_singleton.
      case_decide as Hx; [subst x; tauto|tauto].
    - rewrite elem_of_union, elem_of_singleton.
      case_decide as Hx; [subst x; tauto|tauto]. }
  split; [apply Hflip|]. split; [|done].
  apply set_eq. intros x.
  assert (∀ t i m, S.selectedIds (toggleSelection id i false m t)
                   = S.selectedIds (toggleSelection id index false meta t)) as Hsame
    by done.
  rewrite (Hsame s' index' meta'), Hflip. subst s'.
  case_decide as Hx; rewrite Hflip; [rewrite decide_True by done|].
  2: by rewrite decide_False by done.
  destruct (decide (x ∈ S.selectedIds s)); tauto.
Qed.

(** X21. A toggle with shift on a non-empty sequence selects the events at
    the positions between the anchor (the given index when there is no
    anchor) and the given index, clamped to the sequence, together with the
    previous selection when meta is held and instead of it otherwise; the
    anchor stays, or becomes the given index when there was none. The id
    argument plays no part. *)
Theorem toggleSelection_range (id : string) (index : Z) (meta : bool)
    (s : S.t) :
  S.events s ≠ [] →
  let s' := toggleSelection id index true meta s in
  let anchor := default index (S.selectionAnchor s) in
  let first := Z.max 0 (Z.min anchor index) in
  let last := Z.min (Z.of_nat (length (S.events s)) - 1) (Z.max anchor index) in
  (∀ x, x ∈ S.selectedIds s'
        ↔ (meta = true ∧ x ∈ S.selectedIds s)
          ∨ ∃ position e, first ≤ position ≤ last
                          ∧ S.events s !! Z.to_nat position = Some e
                          ∧ EditorEvent.id e = x)
  ∧ S.selectionAnchor s' = Some anchor
  ∧ S.events s' = S.events s.
Proof.
  intros Hne s' anchor first last. subst s'.
  rewrite (toggleSelection_shift id index meta s Hne). cbv zeta.
  fold anchor first last. cells. split; [|done].
  intros x. rewrite select_range_elem. split.
  - intros [Hx|(c & e & Hc & He & Hid)].
    + left. by destruct meta.
    + right. exists c, e. apply elem_of_seqZ in Hc. split; [lia|done].
  - intros [[-> Hx]|(c & e & Hc & He & Hid)]; [by left|].
    right. exists c, e. split; [|done]. apply elem_of_seqZ. lia.
Qed.


Lemma toggleSelection_range_witness :
  let s := run [LoadFile longer_file;
                ToggleSelection "2-32-513-257-196610" 2 false false] initial in
  S.events s ≠ []
  ∧ (∀ x, x ∈ S.selectedIds (toggleSelection "ignored" 0 true false s)
          ↔ x = "0-0-512-1-2" ∨ x = "1-32-513-257-196610"
            ∨ x = "2-32-513-257-196610")
  ∧ S.selectionAnchor (toggleSelection "ignored" 0 true false s) = Some 2.
Proof.
  intros s.
  assert (S.events s ≠ []) as Hne by (by vm_compute).
  split; [exact Hne|].
  destruct (toggleSelection_range "ignored" 0 false s Hne) as (Hsel & Ha & _).
  assert (S.selectionAnchor s = Some 2) as Hanchor by (by vm_compute).
  assert (length (S.events s) = 3%nat) as Hlen by (by vm_compute).
  assert (EditorEvent.id <$> S.events s !! 0%nat = Some "0-0-512-1-2") as H0
    by (by vm_compute).
  assert (EditorEvent.id <$> S.events s !! 1%nat = Some "1-32-513-257-196610")
    as H1 by (by vm_compute).
  assert (EditorEvent.id <$> S.events s !! 2%nat = Some "2-32-513-257-196610")
    as H2 by (by vm_compute).
  split; [|by rewrite Ha, Hanchor].
  intros x. rewrite Hsel, Hanchor, Hlen. cbn [default]. unfold id. split.
  - intros [[Hm _]|(position & e & Hpos & He & <-)]; [discriminate Hm|].
    assert (position = 0 ∨ position = 1 ∨ position = 2) as [->|[->| ->]] by lia.
    + change (Z.to_nat 0) with 0%nat in He. rewrite He in H0.
      injection H0 as ->. by left.
    + change (Z.to_nat 1) with 1%nat in He. rewrite He in H1.
      injection H1 as ->. right. by left.
    + change (Z.to_nat 2) with 2%nat in He. rewrite He in H2.
      injection H2 as ->. right. by right.
  - intros [->|[->| ->]]; right.
    + destruct (S.events s !! 0%nat) as [e|] eqn:He; [|discriminate H0].
      exists 0, e. split; [lia|]. split; [exact He|]. by injection H0.
    + destruct (S.events s !! 1%nat) as [e|] eqn:He; [|discriminate H1].
      exists 1, e. split; [lia|]. split; [exact He|]. by injection H1.
    + destruct (S.events s !! 2%nat) as [e|] eqn:He; [|discriminate H2].
      exists 2, e. split; [lia|]. split; [exact He|]. by injection H2.
Defined.

(** X22. On a normalised sequence [applyDelayToSelection] leaves every
    event in its place with its id; a selected event other than the first
    gets the sanitised value as its delay, an unselected one keeps its
    delay, and the first event keeps delay 0. *)
Theorem applyDelayToSelection_delays (value : JS.number) (s : S.t) (i : nat)
    (e : EditorEvent.t) :
  normalized (S.events s) →
  S.events s !! i = Some e →
  ∃ e', S.events (applyDelayToSelection value s) !! i = Some e'
    ∧ EditorEvent.id e' = EditorEvent.id e
    ∧ EditorEvent.delay e'
      = if decide (i = 0%nat) then JS.Int 0
        else if decide (EditorEvent.id e ∈ S.selectedIds s)
             then sanitizeDelay value
             else EditorEvent.delay e.
Proof.
  intros Hn He.
  destruct (applyToSelection_delays
              (fun event _ =>
                 if JS.strict_eq (EditorEvent.delay event) (sanitizeDelay value)
                 then None
                 else Some (EditorEvent.with_delay event (sanitizeDelay value)))
              (fun _ _ => sanitizeDelay value) s Hn) with (i := i) (e := e)
    as (e' & He' & Hid & Hd); [|done|].
  - intros ev j. destruct (JS.strict_eq _ _) eqn:Heq; [|done].
    by apply sanitizeDelay_strict_eq_l.
  - exists e'. split; [done|]. split; [done|].
    rewrite Hd. by rewrite sanitizeDelay_idem.
Qed.

Lemma applyDelayToSelection_delays_witness :
  let s := run [LoadFile longer_file;
                ToggleSelection "1-32-513-257-196610" 1 false false] initial in
  let e := EditorEvent.mk "1-32-513-257-196610" (JS.Int 513) (JS.Int 257)
             (JS.Int 196610) (JS.Int 32) (JS.Int 32) (JS.Int 7) in
  normalized (S.events s)
  ∧ S.events s !! 1%nat = Some e
  ∧ ∃ e', S.events (applyDelayToSelection (JS.Fin (7 # 2)) s) !! 1%nat = Some e'
      ∧ EditorEvent.delay e' = JS.Int 4.
Proof.
  intros s e.
  assert (normalized (S.events s)) as Hn by (by vm_compute).
  assert (S.events s !! 1%nat = Some e) as He by (by vm_compute).
  split; [exact Hn|]. split; [exact He|].
  destruct (applyDelayToSelection_delays (JS.Fin (7 # 2)) s 1 e Hn He)
    as (e' & He' & _ & Hd).
  exists e'. split; [exact He'|]. rewrite Hd. by vm_compute.
Defined.

(** X23. On a normalised sequence [addDelayToSelection] gives a selected
    event other than the first the sanitised sum of its delay and the
    rounded delta; the other events keep their delays. *)
Theorem addDelayToSelection_delays (delta : JS.number) (s : S.t) (i : nat)
    (e : EditorEvent.t) :
  normalized (S.events s) →
  S.events s !! i = Some e →
  ∃ e', S.events (addDelayToSelection delta s) !! i = Some e'
    ∧ EditorEvent.id e' = EditorEvent.id e
    ∧ EditorEvent.delay e'
      = if decide (i = 0%nat) then JS.Int 0
        else if decide (EditorEvent.id e ∈ S.selectedIds s)
             then sanitizeDelay
                    (JS.add (EditorEvent.delay e) (JS.Math_round delta))
             else EditorEvent.delay e.
Proof.
  intros Hn He.
  destruct (applyToSelection_delays
              (fun event _ =>
                 if JS.strict_eq
                      (sanitizeDelay
                         (JS.add (EditorEvent.delay event) (JS.Math_round delta)))
                      (EditorEvent.delay event)
                 then None
                 else Some (EditorEvent.with_delay event
                              (sanitizeDelay
                                 (JS.add (EditorEvent.delay event)
                                    (JS.Math_round delta)))))
              (fun event _ =>
                 sanitizeDelay
                   (JS.add (EditorEvent.delay event) (JS.Math_round delta)))
              s Hn) with (i := i) (e := e)
    as (e' & He' & Hid & Hd); [|done|].
  - intros ev j. destruct (JS.strict_eq _ _) eqn:Heq; [|done].
    rewrite strict_eq_sym in Heq. by apply sanitizeDelay_strict_eq_l.
  - exists e'. split; [done|]. split; [done|].
    rewrite Hd. by rewrite sanitizeDelay_idem.
Qed.

Lemma addDelayToSelection_delays_witness :
  let s := run [LoadFile longer_file; SelectAll] initial in
  let e := EditorEvent.mk "1-32-513-257-196610" (JS.Int 513) (JS.Int 257)
             (JS.Int 196610) (JS.Int 32) (JS.Int 32) (JS.Int 7) in
  normalized (S.events s)
  ∧ S.events s !! 1%nat = Some e
  ∧ ∃ e', S.events (addDelayToSelection (JS.Int (-40)) s) !! 1%nat = Some e'
      ∧ EditorEvent.delay e' = JS.Int 0.
Proof.
  intros s e.
  assert (normalized (S.events s)) as Hn by (by vm_compute).
  assert (S.events s !! 1%nat = Some e) as He by (by vm_compute).
  split; [exact Hn|]. split; [exact He|].
  destruct (addDelayToSelection_delays (JS.Int (-40)) s 1 e Hn He)
    as (e' & He' & _ & Hd).
  exists e'. split; [exact He'|]. rewrite Hd. by vm_compute.
Defined.

(** X24. On a normalised sequence [clampSmallDelays] sets to 0 the delay
    of every selected event other than the first whose delay is not at
    least the limit, the larger of 0 and the rounded threshold; all other
    delays stay. With a NaN threshold no delay is at least the limit, so
    every selected delay becomes 0. *)
Theorem clampSmallDelays_delays (threshold : JS.number) (s : S.t) (i : nat)
    (e : EditorEvent.t) :
  normalized (S.events s) →
  S.events s !! i = Some e →
  ∃ e', S.events (clampSmallDelays threshold s) !! i = Some e'
    ∧ EditorEvent.id e' = EditorEvent.id e
    ∧ EditorEvent.delay e'
      = if decide (i = 0%nat) then JS.Int 0
        else if decide (EditorEvent.id e ∈ S.selectedIds s)
             then if JS.ge (EditorEvent.delay e)
                       (JS.Math_max (JS.Int 0) (JS.Math_round threshold))
                  then EditorEvent.delay e
                  else JS.Int 0
             else EditorEvent.delay e.
Proof.
  intros Hn He.
  set (limit := JS.Math_max (JS.Int 0) (JS.Math_round threshold)).
  destruct (applyToSelection_delays
              (fun event index =>
                 if decide (index = 0%nat) then None
                 else if JS.strict_eq (EditorEvent.delay event) (JS.Int 0)
                         || JS.ge (EditorEvent.delay event) limit
                      then None
                      else Some (EditorEvent.with_delay event (JS.Int 0)))
              (fun event index =>
                 if decide (index = 0%nat) then EditorEvent.delay event
                 else if JS.strict_eq (EditorEvent.delay event) (JS.Int 0)
                         || JS.ge (EditorEvent.delay event) limit
                      then EditorEvent.delay event
                      else JS.Int 0)
              s Hn) with (i := i) (e := e)
    as (e' & He' & Hid & Hd); [|done|].
  - intros ev j. case_decide; [done|]. by destruct (_ || _).
  - exists e'. split; [done|]. split; [done|]. rewrite Hd.
    case_decide as Hi; [done|]. case_decide as Hsel; [|done].
    destruct (normalized_delay _ _ _ Hn He) as [_ Hsan].
    destruct (JS.strict_eq (EditorEvent.delay e) (JS.Int 0)) eqn:Hz.
    + cbn [orb]. rewrite Hsan.
      pose proof (sanitizeDelay_strict_eq _ 0 Hz
                    ltac:(unfold UINT32_MAX; lia)) as H0.
      rewrite Hsan in H0. rewrite H0. by destruct (JS.ge (JS.Int 0) limit).
    + cbn [orb]. destruct (JS.ge (EditorEvent.delay e) limit); [done|].
      apply sanitizeDelay_Int. unfold UINT32_MAX. lia.
Qed.

Lemma clampSmallDelays_delays_witness :
  let s := run [LoadFile longer_file; SelectAll] initial in
  let e := EditorEvent.mk "1-32-513-257-196610" (JS.Int 513) (JS.Int 257)
             (JS.Int 196610) (JS.Int 32) (JS.Int 32) (JS.Int 7) in
  normalized (S.events s)
  ∧ S.events s !! 1%nat = Some e
  ∧ (∃ e', S.events (clampSmallDelays (JS.Int 33) s) !! 1%nat = Some e'
       ∧ EditorEvent.delay e' = JS.Int 0)
  ∧ (∃ e', S.events (clampSmallDelays JS.NaN s) !! 1%nat = Some e'
       ∧ EditorEvent.delay e' = JS.Int 0).
Proof.
  intros s e.
  assert (normalized (S.events s)) as Hn by (by vm_compute).
  assert (S.events s !! 1%nat = Some e) as He by (by vm_compute).
  split; [exact Hn|]. split; [exact He|]. split.
  - destruct (clampSmallDelays_delays (JS.Int 33) s 1 e Hn He)
      as (e' & He' & _ & Hd).
    exists e'. split; [exact He'|]. rewrite Hd. by vm_compute.
  - destruct (clampSmallDelays_delays JS.NaN s 1 e Hn He)
      as (e' & He' & _ & Hd).
    exists e'. split; [exact He'|]. rewrite Hd. by vm_compute.
Defined.

(** X25. The commands that edit delays never add, drop, reorder or
    re-identify events: the list of ids stays the same. *)
Theorem delay_edits_keep_ids (c : command) (s : S.t) :
  is_delay_edit c = true →
  map EditorEvent.id (S.events (exec c s)) = map EditorEvent.id (S.events s).
Proof.
  intros Hc. destruct c; try discriminate Hc; cbn [exec].
  - rewrite updateDelay_unfold, commitEvents_ids.
    destruct (negb _); [done|]. cbn [next].
    apply list_eq. intros i. rewrite !lookup_map.
    destruct (S.events s !! i) as [e|]; [|done]. cbn. f_equal.
    unfold update_one. destruct (negb _); [done|].
    by destruct (JS.strict_eq _ _).
  - apply applyToSelection_ids. intros e i e' H.
    destruct (JS.strict_eq _ _); [done|]. by injection H as <-.
  - apply applyToSelection_ids. intros e i e' H. cbv zeta in H.
    destruct (JS.strict_eq _ _); [done|]. by injection H as <-.
  - apply applyToSelection_ids. intros e i e' H.
    case_decide; [done|]. destruct (_ || _); [done|]. by injection H as <-.
Qed.

Lemma delay_edits_keep_ids_witness :
  let s := run [LoadFile longer_file] initial in
  let c := UpdateDelay "2-32-513-257-196610" (JS.Int 1000) in
  is_delay_edit c = true
  ∧ map EditorEvent.id (S.events (exec c s))
    = ["0-0-512-1-2"; "1-32-513-257-196610"; "2-32-513-257-196610"]
  ∧ S.events (exec c s) ≠ S.events s.
Proof.
  intros s c.
  assert (is_delay_edit c = true) as Hc by reflexivity.
  split; [exact Hc|]. split.
  - rewrite (delay_edits_keep_ids c s Hc). by vm_compute.
  - intros H. apply (f_equal (fun l => EditorEvent.delay <$> l !! 2%nat)) in H.
    vm_compute in H. discriminate H.
Defined.

(** X26. [recomputeTimeline] in closed form: it keeps the length, the
    order and, for every event, the id, the message, the parameters and
    the window handle; the first event gets delay 0 and time 0, and event
    [i] gets the integer its delay sanitises to, in [0, 2^32), and as time
    the sum of these integers over the events 1 to [i]. *)
Theorem recomputeTimeline_closed_form (events : list EditorEvent.t) :
  recomputeTimeline events = imap (placed events) events
  ∧ ∀ delay, sanitizeDelay delay = JS.Int (delay_value delay)
             ∧ 0 ≤ delay_value delay ≤ UINT32_MAX - 1.
Proof. split; [apply recomputeTimeline_closed|apply sanitizeDelay_value]. Qed.

(** X27. The ids [createEditorEvents] gives the events of one parsed
    recording are pairwise distinct, whatever the events hold: the id
    starts with the position. So are the ids right after a load. *)
Theorem parsed_ids_distinct (es : list RecParser.TinyTaskEvent.t)
    (file : File) (s : S.t) :
  NoDup (map EditorEvent.id (createEditorEvents es))
  ∧ (S.error (fst (loadFile file s)) = None →
     NoDup (map EditorEvent.id (S.events (fst (loadFile file s))))).
Proof.
  split; [apply createEditorEvents_NoDup|].
  destruct (RecParser.parseRec (arrayBuffer file)) as [message|parsed] eqn:Hp.
  - unfold loadFile. rewrite Hp. cells. done.
  - rewrite (loadFile_ok file s parsed Hp). cells. intros _.
    apply createEditorEvents_NoDup.
Qed.

(** X28. In every reachable state with a non-empty working sequence,
    [exportRec] gives bytes that load without an error into a sequence of
    the same length with the same delay and the same time at every
    position. *)
Theorem export_then_load_keeps_timeline (cs : list command) (name : string)
    (s0 : S.t) :
  S.events (run cs initial) ≠ [] →
  ∃ bytes,
    exportRec (run cs initial) = Some bytes
    ∧ S.error (fst (loadFile (mkFile name bytes) s0)) = None
    ∧ EditorEvent.delay <$> S.events (fst (loadFile (mkFile name bytes) s0))
      = EditorEvent.delay <$> S.events (run cs initial)
    ∧ EditorEvent.time <$> S.events (fst (loadFile (mkFile name bytes) s0))
      = EditorEvent.time <$> S.events (run cs initial).
Proof.
  intros Hne.
  destruct (exportRec_parse (run cs initial)
              (run_normalized cs initial initial_normalized) Hne)
    as (bytes & parsed & Hex & Hp & Hd & Ht).
  exists bytes. split; [done|].
  rewrite (loadFile_ok (mkFile name bytes) s0 parsed Hp). cells. done.
Qed.

Lemma export_then_load_keeps_timeline_witness :
  let cs := [LoadFile longer_file;
             UpdateDelay "1-32-513-257-196610" (JS.Int (2 ^ 32 - 1));
             UpdateDelay "2-32-513-257-196610" (JS.Int (2 ^ 32 - 1))] in
  S.events (run cs initial) ≠ []
  ∧ EditorEvent.time <$> S.events (run cs initial)
    = [JS.Int 0; JS.Int (2 ^ 32 - 1); JS.Int (2 ^ 33 - 2)]
  ∧ ∃ bytes,
      exportRec (run cs initial) = Some bytes
      ∧ EditorEvent.time <$> S.events (fst (loadFile (mkFile "again.rec" bytes)
                                              initial))
        = EditorEvent.time <$> S.events (run cs initial).
Proof.
  intros cs.
  assert (S.events (run cs initial) ≠ []) as Hne by (by vm_compute).
  split; [exact Hne|]. split; [by vm_compute|].
  destruct (export_then_load_keeps_timeline cs "again.rec" initial Hne)
    as (bytes & Hex & _ & _ & Ht).
  exists bytes. split; [exact Hex|exact Ht].
Defined.

(** X29. In every reachable state with a non-empty working sequence,
    selecting everything and deleting the selection empties the sequence,
    and one [undo] brings the sequence back. *)
Theorem delete_all_then_undo (cs : list command) :
  S.events (run cs initial) ≠ [] →
  S.events (deleteSelected (selectAll (run cs initial))) = []
  ∧ S.events (undo (deleteSelected (selectAll (run cs initial))))
    = S.events (run cs initial).
Proof.
  intros Hne. set (s := run cs initial) in *.
  destruct (deleteSelected_selectAll s Hne) as (He & Hh & _).
  split; [done|].
  assert (stacks_bounded s) as Hb by apply run_bounded, initial_bounded.
  assert (normalized (S.events s)) as Hn
    by apply run_normalized, initial_normalized.
  assert (stacks_bounded (deleteSelected (selectAll s))) as Hb'
    by (apply (exec_bounded DeleteSelected), (exec_bounded SelectAll), Hb).
  destruct (push_limited_drop (S.history s) (S.events s)) as (d & _ & _ & Hpush).
  assert (last (S.history (deleteSelected (selectAll s))) = Some (S.events s))
    as Hlast.
  { rewrite Hh. unfold push_limited. cbv zeta. case_decide as Hlen.
    - destruct (S.history s) as [|h0 hs] eqn:Hs.
      + cbn in Hlen. unfold HISTORY_LIMIT in Hlen. lia.
      + cbn [app tail]. by rewrite last_snoc.
    - by rewrite last_snoc. }
  rewrite (undo_bounded _ _ Hb' Hlast). cells. done.
Qed.

Lemma delete_all_then_undo_witness :
  let cs := [LoadFile longer_file; RemoveEvent "0-0-512-1-2"] in
  S.events (run cs initial) ≠ []
  ∧ S.events (deleteSelected (selectAll (run cs initial))) = []
  ∧ length (S.events (undo (deleteSelected (selectAll (run cs initial)))))
    = 2%nat.
Proof.
  intros cs.
  assert (S.events (run cs initial) ≠ []) as Hne by (by vm_compute).
  split; [exact Hne|].
  destruct (delete_all_then_undo cs Hne) as [He Hu].
  split; [exact He|]. rewrite Hu. by vm_compute.
Defined.

End EditorCoverage.
